(** * synapse: the multiplexing client and the cluster client

    A shallow embedding of the per-connection client (waiters, write path,
    reader loop, shutdown) and of the cluster client of [client_pool.go]
    (dial fan-out, status), with the properties of the specification
    stated over it.

    Conventions.
    - A [uint64]/[uint32] is a [Z] with its wrap-around written out.
    - A [[]byte] is the list of its visible bytes; a Go [string] is a
      [string].
    - A [*waiter] is a location in a store of waiters, so that the pending
      map, the writing channel, the free list and the caller share one
      object.
    - A goroutine that blocks (on [sema.Wait], on [wg.Wait], on a full
      channel) is a computation that parks; the code that follows the
      blocking call is a definition of its own ([*_resume]) that is run
      again from the later state. *)

From Stdlib Require Import ZArith List Lia Bool Sorting.Sorted.
From Stdlib Require Import Strings.String Strings.Byte.
From stdpp Require Import base option list gmap.

Local Open Scope Z_scope.

(** ** Bytes and fixed-width integers *)

Definition u8 (b : byte) : Z := Z.of_N (Byte.to_N b).

Definition byte_of_Z (z : Z) : byte :=
  match Byte.of_N (Z.to_N (z mod 256)) with
  | Some b => b
  | None => x00
  end.

(** Big-endian value of a byte string. *)
Definition be (bs : list byte) : Z :=
  fold_left (fun acc b => acc * 256 + u8 b) bs 0.

(** Reinterpretation of an unsigned [bits]-bit value as two's complement. *)
Definition signed (bits : Z) (z : Z) : Z :=
  if z <? 2 ^ (bits - 1) then z else z - 2 ^ bits.

Definition wrap64 (z : Z) : Z := z mod 2 ^ 64.
Definition wrap32 (z : Z) : Z := z mod 2 ^ 32.

(** ** Errors *)

Inductive msgp_type : Type := IntType | StrType.

(** The [error] values that travel through the client. [ExtError] stands
    for an error produced outside the package (transport, user codec). *)
Inductive error : Type :=
| ErrClosed
| ErrTimeout
| ErrTooLarge
| ErrNoClients
| errNoCmd
| errInvalidCmd
| errUnknownCmd
| ErrShortBytes
| TypeError (wanted : msgp_type) (lead : byte)
| UintOverflow (Value : Z) (FailedBitsize : Z)
| ResponseError (Code : Z) (Expl : string)
| Errorf (format : string) (arg : error)
| ExtError (msg : string).

(** ** The [msgp] functions used by the client

    [msgp] is the external MessagePack codec. The readers below follow the
    MessagePack wire format the way [msgp.ReadIntBytes] (through
    [ReadInt64Bytes]) and [msgp.ReadStringBytes] (through [ReadStringZC])
    read it: they return the value, the rest of the input and an error. *)
Module msgp.

Definition mint8 : Z := 0xd0.
Definition mint16 : Z := 0xd1.
Definition mint32 : Z := 0xd2.
Definition mint64 : Z := 0xd3.
Definition mstr8 : Z := 0xd9.
Definition mstr16 : Z := 0xda.
Definition mstr32 : Z := 0xdb.
Definition muint8 : Z := 0xcc.
Definition muint16 : Z := 0xcd.
Definition muint32 : Z := 0xce.
Definition muint64 : Z := 0xcf.
Definition MaxInt64 : Z := 2 ^ 63 - 1.
Definition mfixmap : Z := 0x80.

Definition isfixint (b : byte) : bool := u8 b <? 0x80.
Definition isnfixint (b : byte) : bool := 0xe0 <=? u8 b.
Definition isfixstr (b : byte) : bool := (0xa0 <=? u8 b) && (u8 b <? 0xc0).

(** Reads one integer of [n] bytes that follows the lead byte. *)
Definition read_sized (n : nat) (lead : byte) (rest : list byte)
  : Z * list byte * option error :=
  if (length rest <? n)%nat then (0, lead :: rest, Some ErrShortBytes)
  else (signed (8 * Z.of_nat n) (be (take n rest)), drop n rest, None).

(** Reads one unsigned integer of [n] bytes that follows the lead
    byte. *)
Definition read_unsigned (n : nat) (lead : byte) (rest : list byte)
  : Z * list byte * option error :=
  if (length rest <? n)%nat then (0, lead :: rest, Some ErrShortBytes)
  else (be (take n rest), drop n rest, None).

(** The case [muint64]: a value above [math.MaxInt64] does not fit the
    result and is an overflow. *)
Definition read_uint64 (lead : byte) (rest : list byte)
  : Z * list byte * option error :=
  if (length rest <? 8)%nat then (0, lead :: rest, Some ErrShortBytes)
  else
    let u := be (take 8 rest) in
    if MaxInt64 <? u then (0, lead :: rest, Some (UintOverflow u 64))
    else (u, drop 8 rest, None).

(** [ReadIntBytes]: the fixed forms, then the signed and the unsigned
    sized forms; any other lead byte is a type error. *)
Definition ReadIntBytes (b : list byte) : Z * list byte * option error :=
  match b with
  | [] => (0, [], Some ErrShortBytes)
  | lead :: rest =>
    if isfixint lead then (u8 lead, rest, None)
    else if isnfixint lead then (u8 lead - 256, rest, None)
    else if u8 lead =? mint8 then read_sized 1 lead rest
    else if u8 lead =? muint8 then read_unsigned 1 lead rest
    else if u8 lead =? mint16 then read_sized 2 lead rest
    else if u8 lead =? muint16 then read_unsigned 2 lead rest
    else if u8 lead =? mint32 then read_sized 4 lead rest
    else if u8 lead =? muint32 then read_unsigned 4 lead rest
    else if u8 lead =? mint64 then read_sized 8 lead rest
    else if u8 lead =? muint64 then read_uint64 lead rest
    else (0, b, Some (TypeError IntType lead))
  end.

(** The body of a string once its length [read] is known. *)
Definition read_str (read : Z) (b : list byte)
  : string * list byte * option error :=
  if (Z.of_nat (length b) <? read) then (EmptyString, b, Some ErrShortBytes)
  else (string_of_list_byte (take (Z.to_nat read) b),
        drop (Z.to_nat read) b, None).

(** Reads a length of [n] bytes that follows the lead byte, then the
    string. *)
Definition read_str_sized (n : nat) (lead : byte) (rest : list byte)
  : string * list byte * option error :=
  if (length rest <? n)%nat
  then (EmptyString, lead :: rest, Some ErrShortBytes)
  else read_str (be (take n rest)) (drop n rest).

Definition ReadStringBytes (b : list byte)
  : string * list byte * option error :=
  match b with
  | [] => (EmptyString, [], Some ErrShortBytes)
  | lead :: rest =>
    if isfixstr lead then read_str (u8 lead - 0xa0) rest
    else if u8 lead =? mstr8 then read_str_sized 1 lead rest
    else if u8 lead =? mstr16 then read_str_sized 2 lead rest
    else if u8 lead =? mstr32 then read_str_sized 4 lead rest
    else (EmptyString, b, Some (TypeError StrType lead))
  end.

(** [AppendUint64] writes the shortest form that holds [u]: one byte up
    to 127, else the lead byte of the smallest unsigned size and the
    value in big-endian order. *)
Definition AppendUint64 (b : list byte) (u : Z) : list byte :=
  if u <=? 127 then b ++ [byte_of_Z (Z.land u 0x7f)]
  else if u <=? 255 then b ++ [byte_of_Z muint8; byte_of_Z u]
  else if u <=? 65535 then
    b ++ [byte_of_Z muint16; byte_of_Z (u / 2 ^ 8); byte_of_Z u]
  else if u <=? 4294967295 then
    b ++ [byte_of_Z muint32; byte_of_Z (u / 2 ^ 24); byte_of_Z (u / 2 ^ 16);
          byte_of_Z (u / 2 ^ 8); byte_of_Z u]
  else
    b ++ [byte_of_Z muint64; byte_of_Z (u / 2 ^ 56); byte_of_Z (u / 2 ^ 48);
          byte_of_Z (u / 2 ^ 40); byte_of_Z (u / 2 ^ 32);
          byte_of_Z (u / 2 ^ 24); byte_of_Z (u / 2 ^ 16);
          byte_of_Z (u / 2 ^ 8); byte_of_Z u].

(** [AppendUint32] forwards to [AppendUint64]. *)
Definition AppendUint32 (b : list byte) (u : Z) : list byte :=
  AppendUint64 b u.

(** [AppendMapHeader] for a map of fewer than sixteen entries. *)
Definition AppendMapHeader (b : list byte) (sz : Z) : list byte :=
  b ++ [byte_of_Z (mfixmap + sz)].

(** [AppendInt] and [AppendString] in their shortest forms, for a status
    below 128 and a string shorter than 32 bytes: what a server writes
    into a response body. *)
Definition AppendInt (b : list byte) (i : Z) : list byte :=
  b ++ [byte_of_Z i].

Definition AppendString (b : list byte) (s : string) : list byte :=
  b ++ byte_of_Z (0xa0 + Z.of_nat (String.length s)) :: list_byte_of_string s.

End msgp.

(** ** The data of one client

    The world holds one [Client], the store of the waiters it uses and the
    process-wide state the client code touches (the free list [waiters],
    the [ErrorLogger]). *)

(** A [*waiter]. *)
Definition loc := nat.

(** The struct [waiter]. [next] is the link of the free list, which is a
    list here; [parent] is the one client of the world. [done] is the
    [sema.Point]: [true] from [sema.Wake] until [sema.Wait] returns. *)
Record waiter : Type := mkWaiter {
  seq : Z;
  done : bool;
  err : option error;
  in_ : list byte;
  reap : bool;
  static : bool
}.

(** The [net.Conn] as the client uses it: [rd] holds the bytes that have
    arrived and are not yet read, [rd_err] the error a read returns once
    they run out (none: the read blocks), [close_result] what [Close]
    returns. *)
Record Conn : Type := mkConn {
  RemoteAddr : string;
  rd : list byte;
  rd_err : option error;
  conn_closed : bool;
  close_result : option error
}.

(** The struct [Client]. The channels [writing] and [done] are the queue
    of the one and the closed flag of both. *)
Record Client : Type := mkClient {
  svc : string;
  conn : Conn;
  csn : Z;
  writing : list loc;
  writing_closed : bool;
  done_closed : bool;
  wg : Z;
  state : Z;
  pending : gmap Z loc
}.

(** Effects in the order they happen. *)
Inductive event : Type :=
| EvWake (w : loc)
| EvCloseDone
| EvCloseWriting
| EvConnClose.

Record World : Type := mkWorld {
  cl : Client;
  heap : gmap loc waiter;
  brk : loc;
  waiters : list loc;
  ErrorLogger : option (list string);
  events : list event
}.

Definition waiterHWM : nat := 32.
Definition clientClosed : Z := 0.
Definition clientOpen : Z := 1.

(** Modelled from the spec: [maxMessageSize] is declared with the frame
    codec, which is not among the sources; the body length field is 16
    bits and a body above 65,535 bytes is rejected. *)
Definition maxMessageSize : Z := 65535.

(** What a user-supplied [msgp.Marshaler] does with the buffer it is given:
    the new buffer and an error. *)
Definition Marshaler : Type := list byte -> list byte * option error.

(** The declarations of the package that the client code uses and that are
    not among the sources: the frame codec, the status and command codes
    and the command directory. *)
Class Decls : Type := {
  fType : Type;
  fType_eq_dec :: EqDecision fType;
  fREQ : fType;
  fRES : fType;
  fCMD : fType;
  leadSize : nat;
  putFrame : list byte -> Z -> fType -> Z -> list byte;
  readFrame : list byte -> Z * fType * Z;
  StatusOK : Z;
  cmdInvalid : Z;
  cmdPing : Z;
  cmdListLinks : Z;
  _maxcommand : Z;
  cmdDirectory_done : Z -> Client -> list byte -> Client
}.

(** *** Field updates *)

Definition set_in (b : list byte) (w : waiter) : waiter :=
  mkWaiter (seq w) (done w) (err w) b (reap w) (static w).
Definition set_seq (s : Z) (w : waiter) : waiter :=
  mkWaiter s (done w) (err w) (in_ w) (reap w) (static w).
Definition set_reap (r : bool) (w : waiter) : waiter :=
  mkWaiter (seq w) (done w) (err w) (in_ w) r (static w).
Definition set_err (e : option error) (w : waiter) : waiter :=
  mkWaiter (seq w) (done w) e (in_ w) (reap w) (static w).
Definition set_done (d : bool) (w : waiter) : waiter :=
  mkWaiter (seq w) d (err w) (in_ w) (reap w) (static w).

Definition set_rd (bs : list byte) (c : Conn) : Conn :=
  mkConn (RemoteAddr c) bs (rd_err c) (conn_closed c) (close_result c).
Definition set_conn_closed (c : Conn) : Conn :=
  mkConn (RemoteAddr c) (rd c) (rd_err c) true (close_result c).

Definition set_conn (x : Conn) (c : Client) : Client :=
  mkClient (svc c) x (csn c) (writing c) (writing_closed c) (done_closed c)
    (wg c) (state c) (pending c).
Definition set_csn (x : Z) (c : Client) : Client :=
  mkClient (svc c) (conn c) x (writing c) (writing_closed c) (done_closed c)
    (wg c) (state c) (pending c).
Definition set_writing (x : list loc) (c : Client) : Client :=
  mkClient (svc c) (conn c) (csn c) x (writing_closed c) (done_closed c)
    (wg c) (state c) (pending c).
Definition set_writing_closed (c : Client) : Client :=
  mkClient (svc c) (conn c) (csn c) (writing c) true (done_closed c)
    (wg c) (state c) (pending c).
Definition set_done_closed (c : Client) : Client :=
  mkClient (svc c) (conn c) (csn c) (writing c) (writing_closed c) true
    (wg c) (state c) (pending c).
Definition set_wg (x : Z) (c : Client) : Client :=
  mkClient (svc c) (conn c) (csn c) (writing c) (writing_closed c)
    (done_closed c) x (state c) (pending c).
Definition set_state (x : Z) (c : Client) : Client :=
  mkClient (svc c) (conn c) (csn c) (writing c) (writing_closed c)
    (done_closed c) (wg c) x (pending c).
Definition set_pending (x : gmap Z loc) (c : Client) : Client :=
  mkClient (svc c) (conn c) (csn c) (writing c) (writing_closed c)
    (done_closed c) (wg c) (state c) x.

Definition on_cl (f : Client -> Client) (σ : World) : World :=
  mkWorld (f (cl σ)) (heap σ) (brk σ) (waiters σ) (ErrorLogger σ) (events σ).
Definition on_heap (f : gmap loc waiter -> gmap loc waiter) (σ : World)
  : World :=
  mkWorld (cl σ) (f (heap σ)) (brk σ) (waiters σ) (ErrorLogger σ) (events σ).
Definition set_brk (b : loc) (σ : World) : World :=
  mkWorld (cl σ) (heap σ) b (waiters σ) (ErrorLogger σ) (events σ).
Definition set_waiters (ws : list loc) (σ : World) : World :=
  mkWorld (cl σ) (heap σ) (brk σ) ws (ErrorLogger σ) (events σ).
Definition set_ErrorLogger (l : option (list string)) (σ : World) : World :=
  mkWorld (cl σ) (heap σ) (brk σ) (waiters σ) l (events σ).
Definition emit (e : event) (σ : World) : World :=
  mkWorld (cl σ) (heap σ) (brk σ) (waiters σ) (ErrorLogger σ)
    (events σ ++ [e]).

(** ** Computations of a goroutine

    A computation runs from a world to a result and the world it leaves.
    It returns, parks at a blocking call (the world is the one at that
    point) or panics. *)
Inductive res (A : Type) : Type :=
| Ret (a : A)
| Park
| Panic (msg : string).
Arguments Ret {A} a.
Arguments Park {A}.
Arguments Panic {A} msg.

Definition M (A : Type) : Type := World -> res A * World.

Definition ret {A : Type} (a : A) : M A := fun σ => (Ret a, σ).

Definition bind {A B : Type} (m : M A) (k : A -> M B) : M B :=
  fun σ =>
    match m σ with
    | (Ret a, σ') => k a σ'
    | (Park, σ') => (Park, σ')
    | (Panic s, σ') => (Panic s, σ')
    end.

Notation "x <- m ;; k" := (bind m (fun x => k))
  (at level 20, m at level 99, k at level 200, only parsing).
Notation "m ;; k" := (bind m (fun _ => k))
  (at level 100, k at level 200, right associativity, only parsing).

Definition gets {A : Type} (f : World -> A) : M A := fun σ => (Ret (f σ), σ).
Definition modify (f : World -> World) : M unit := fun σ => (Ret tt, f σ).
Definition park {A : Type} : M A := fun σ => (Park, σ).
Definition panic {A : Type} (msg : string) : M A := fun σ => (Panic msg, σ).

Fixpoint for_each {A : Type} (f : A -> M unit) (l : list A) : M unit :=
  match l with
  | [] => ret tt
  | x :: l' => f x ;; for_each f l'
  end.

(** ** Primitives: [sync], [sync/atomic], channels, the transport *)

(** [wg.Add] panics when the counter becomes negative. *)
Definition wg_Add (d : Z) : M unit := fun σ =>
  let v := wg (cl σ) + d in
  if v <? 0 then (Panic "sync: negative WaitGroup counter", σ)
  else (Ret tt, on_cl (set_wg v) σ).

Definition wg_Done : M unit := wg_Add (-1).

Definition wg_Wait : M unit := fun σ =>
  if wg (cl σ) =? 0 then (Ret tt, σ) else (Park, σ).

Definition LoadUint32_state : M Z := gets (fun σ => state (cl σ)).

Definition CompareAndSwapUint32_state (old new : Z) : M bool := fun σ =>
  if state (cl σ) =? old then (Ret true, on_cl (set_state new) σ)
  else (Ret false, σ).

Definition AddUint64_csn (d : Z) : M Z := fun σ =>
  let v := wrap64 (csn (cl σ) + d) in
  (Ret v, on_cl (set_csn v) σ).

(** [p.writing <- w] on the channel of capacity [waiterHWM]. *)
Definition send_writing (w : loc) : M unit := fun σ =>
  if writing_closed (cl σ) then (Panic "send on closed channel", σ)
  else if (length (writing (cl σ)) <? waiterHWM)%nat
  then (Ret tt, on_cl (set_writing (writing (cl σ) ++ [w])) σ)
  else (Park, σ).

Definition close_done : M unit := fun σ =>
  if done_closed (cl σ) then (Panic "close of closed channel", σ)
  else (Ret tt, emit EvCloseDone (on_cl set_done_closed σ)).

Definition close_writing : M unit := fun σ =>
  if writing_closed (cl σ) then (Panic "close of closed channel", σ)
  else (Ret tt, emit EvCloseWriting (on_cl set_writing_closed σ)).

Definition conn_Close : M (option error) := fun σ =>
  (Ret (close_result (conn (cl σ))),
   emit EvConnClose (on_cl (fun c => set_conn (set_conn_closed (conn c)) c) σ)).

(** [bwr.ReadFull] of [n] bytes: the bytes read and the error. The read
    blocks while fewer than [n] bytes have arrived and the transport has
    not failed. *)
Definition ReadFull (n : nat) : M (list byte * option error) := fun σ =>
  let c := conn (cl σ) in
  if conn_closed c
  then (Ret ([], Some (ExtError "use of closed network connection")), σ)
  else if (n <=? length (rd c))%nat
  then (Ret (take n (rd c), None),
        on_cl (set_conn (set_rd (drop n (rd c)) c)) σ)
  else match rd_err c with
       | Some e => (Ret (rd c, Some e), on_cl (set_conn (set_rd [] c)) σ)
       | None => (Park, σ)
       end.

(** [bwr.Skip] of [n] bytes: the number skipped and the error. *)
Definition Skip (n : nat) : M (nat * option error) :=
  r <- ReadFull n ;; ret (length r.1, r.2).

(** Dereference of a [*waiter]. *)
Definition deref (w : loc) : M waiter := fun σ =>
  match heap σ !! w with
  | Some x => (Ret x, σ)
  | None => (Panic "nil pointer dereference", σ)
  end.

Definition update (w : loc) (f : waiter -> waiter) : M unit :=
  x <- deref w ;; modify (on_heap (<[w := f x]>)).

Definition in_get (w : loc) : M (list byte) := x <- deref w ;; ret (in_ x).
Definition in_set (w : loc) (b : list byte) : M unit := update w (set_in b).

(** [b[:n]] when [cap(b) >= n], else [make([]byte, n)]: a slice of [n]
    bytes. The bytes of the backing array beyond [len(b)] are not kept in
    the model and read as zero; the callers overwrite them. *)
Definition resize (n : nat) (b : list byte) : list byte :=
  take n b ++ replicate (n - length b) x00.

(** [copy(dst[off:], src)]. *)
Definition copy_at (off : nat) (src dst : list byte) : list byte :=
  take off dst ++ take (length dst - off) src ++ drop (off + length src) dst.

(** The package-level [errorf]: prints when an [ErrorLogger] is set. *)
Definition println (s : string) (σ : World) : World :=
  match ErrorLogger σ with
  | Some lines => set_ErrorLogger (Some (lines ++ [s])) σ
  | None => σ
  end.

Definition errorf (s : string) : M unit := modify (println s).

(** Modelled from the spec: the package [sema] is not among the sources;
    [done] is a single-use completion signal (a binary semaphore): [Wake]
    sets it, [Wait] blocks until it is set and consumes it. *)
Definition sema_Wait (w : loc) : M unit :=
  x <- deref w ;; if done x then update w (set_done false) else park.

(** Modelled from the spec: [sema.Wake] sets the completion signal of the
    waiter. *)
Definition sema_Wake (w : loc) : M unit :=
  update w (set_done true) ;; modify (emit (EvWake w)).

(** Modelled from the spec: the pending map [wMap] is not among the
    sources. [insert(w)] stores under [w.seq]; [remove(seq)] is a lookup
    and delete that returns the waiter or none; [flush(err)] removes and
    signals every entry with the given error; [length] counts the
    entries. *)
Definition pending_insert (w : loc) : M unit :=
  x <- deref w ;;
  modify (on_cl (fun c => set_pending (<[seq x := w]> (pending c)) c)).

(** Modelled from the spec: [remove(seq)] of the pending map, an atomic
    lookup and delete that returns the waiter or none. *)
Definition pending_remove (s : Z) : M (option loc) := fun σ =>
  match pending (cl σ) !! s with
  | Some w =>
    (Ret (Some w), on_cl (fun c => set_pending (delete s (pending c)) c) σ)
  | None => (Ret None, σ)
  end.

(** Modelled from the spec: [length] of the pending map. *)
Definition pending_length : M nat := gets (fun σ => size (pending (cl σ))).

(** Modelled from the spec: [flush(err)] of the pending map removes every
    entry, sets its error and signals it. *)
Definition pending_flush (e : error) : M unit :=
  ws <- gets (fun σ => (map_to_list (pending (cl σ))).*2) ;;
  modify (on_cl (set_pending ∅)) ;;
  for_each (fun w => update w (set_err (Some e)) ;; sema_Wake w) ws.

(** Modelled from the spec: the free list [waiters] is not among the
    sources; [pop] returns a cleared waiter. Clearing keeps the buffer,
    which is reused, and the arena flag. *)
Definition clear (w : waiter) : waiter :=
  mkWaiter 0 false None (in_ w) false (static w).

(** Modelled from the spec: [pop(client)] returns a cleared waiter, from
    the free list or, when the list is empty, freshly allocated and not
    static. *)
Definition waiters_pop : M loc := fun σ =>
  match waiters σ with
  | w :: rest => (update w clear ;; ret w) (set_waiters rest σ)
  | [] =>
    let w := brk σ in
    (Ret w,
     set_brk (S w) (on_heap (<[w := mkWaiter 0 false None [] false false]>) σ))
  end.

(** Modelled from the spec: [push(waiter)] returns a static waiter to the
    free list and drops the others. *)
Definition waiters_push (w : loc) : M unit :=
  x <- deref w ;;
  if static x then modify (fun σ => set_waiters (w :: waiters σ) σ)
  else ret tt.

(** ** The client *)

Section client.
Context `{Decls}.

(** *** Shutdown *)

(** The part of [Close] that follows the state change; it parks in
    [wg.Wait] while a caller is outstanding and is run again later. *)
Definition Close_resume : M (option error) :=
  wg_Wait ;;
  close_done ;;
  close_writing ;;
  conn_Close.

Definition Close : M (option error) :=
  swapped <- CompareAndSwapUint32_state clientOpen clientClosed ;;
  if negb swapped then ret (Some ErrClosed)
  else Close_resume.

(** [for c.pending.length() > 0 { c.pending.flush(err) }]. *)
Fixpoint flush_loop (fuel : nat) (e : error) : M unit :=
  n <- pending_length ;;
  if (0 <? n)%nat then
    match fuel with
    | O => panic "flush_loop: out of fuel"
    | S fuel' => pending_flush e ;; flush_loop fuel' e
    end
  else ret tt.

Definition closeError_resume : M unit :=
  wg_Wait ;;
  close_done ;;
  close_writing ;;
  conn_Close ;;
  ret tt.

Definition closeError (e : error) : M unit :=
  swapped <- CompareAndSwapUint32_state clientOpen clientClosed ;;
  if negb swapped then ret tt
  else
    let e := Errorf "synapse: fatal error: %s" e in
    pending_flush e ;;
    flush_loop 1 e ;;
    closeError_resume.

(** The handler [do] of a read or write result. *)
Definition do_ (e : option error) : M bool :=
  match e with
  | Some e => closeError e ;; ret false
  | None => ret true
  end.

(** *** The reader *)

(** One pass through the body of the loop of [readLoop]: [true] when the
    loop goes on, [false] when [readLoop] returns. *)
Definition readLoop_iter : M bool :=
  r <- ReadFull leadSize ;;
  ok <- do_ r.2 ;;
  if negb ok then ret false
  else
    let '(seq, frame, sz) := readFrame r.1 in
    if negb (bool_decide (frame = fCMD)) && negb (bool_decide (frame = fRES))
    then
      addr <- gets (fun σ => RemoteAddr (conn (cl σ))) ;;
      errorf ("server at addr " ++ addr ++ " sent a bad frame")%string ;;
      r <- Skip (Z.to_nat sz) ;;
      do_ r.2
    else
      w <- pending_remove seq ;;
      match w with
      | None =>
        r <- Skip (Z.to_nat sz) ;;
        do_ r.2
      | Some w =>
        b <- in_get w ;;
        in_set w (resize (Z.to_nat sz) b) ;;
        r <- ReadFull (Z.to_nat sz) ;;
        b <- in_get w ;;
        in_set w (copy_at 0 r.1 b) ;;
        ok <- do_ r.2 ;;
        if negb ok then ret false
        else
          update w (set_err None) ;;
          sema_Wake w ;;
          ret true
      end.

(** [readLoop]: passes follow one another until one returns, parks or
    panics. [fuel] bounds the number of passes; the result is none when it
    runs out. *)
Fixpoint readLoop (fuel : nat) (σ : World) : option (res unit * World) :=
  match fuel with
  | O => None
  | S fuel' =>
    match readLoop_iter σ with
    | (Ret true, σ') => readLoop fuel' σ'
    | (Ret false, σ') => Some (Ret tt, σ')
    | (Park, σ') => Some (Park, σ')
    | (Panic msg, σ') => Some (Panic msg, σ')
    end
  end.

(** *** The write path *)

Definition writebody (w : loc) (seq : Z) : M unit :=
  update w (set_seq seq) ;;
  update w (set_reap false) ;;
  pending_insert w ;;
  send_writing w.

Definition writeCommand (w : loc) (cmd : Z) (msg : list byte)
  : M (option error) :=
  wg_Add 1 ;;
  st <- LoadUint32_state ;;
  if st =? clientClosed then ret (Some ErrClosed)
  else
    seqn <- AddUint64_csn 1 ;;
    let cmdlen := Z.of_nat (length msg) + 1 in
    if cmdlen >? maxMessageSize then ret (Some ErrTooLarge)
    else
      let need := (leadSize + Z.to_nat cmdlen)%nat in
      b <- in_get w ;;
      in_set w (resize need b) ;;
      b <- in_get w ;;
      in_set w (putFrame b seqn fCMD cmdlen) ;;
      b <- in_get w ;;
      in_set w (<[leadSize := byte_of_Z cmd]> b) ;;
      b <- in_get w ;;
      in_set w (copy_at (leadSize + 1) msg b) ;;
      writebody w seqn ;;
      ret None.

Definition write (w : loc) (method : Z) (inp : option Marshaler)
  : M (option error) :=
  wg_Add 1 ;;
  st <- LoadUint32_state ;;
  if st =? clientClosed then ret (Some ErrClosed)
  else
    sn <- AddUint64_csn 1 ;;
    b <- in_get w ;;
    in_set w (resize leadSize b) ;;
    b <- in_get w ;;
    in_set w (msgp.AppendUint32 b (wrap32 method)) ;;
    e <- match inp with
         | Some m =>
           b <- in_get w ;;
           in_set w (m b).1 ;;
           ret (m b).2
         | None =>
           b <- in_get w ;;
           in_set w (msgp.AppendMapHeader b 0) ;;
           ret None
         end ;;
    match e with
    | Some e => ret (Some e)
    | None =>
      b <- in_get w ;;
      let olen := Z.of_nat (length b) - Z.of_nat leadSize in
      if olen >? maxMessageSize then ret (Some ErrTooLarge)
      else
        in_set w (putFrame b sn fREQ olen) ;;
        writebody w sn ;;
        ret None
    end.

(** *** Calls *)

Section unmarshal.
Context {T : Type}.

(** What [out.UnmarshalMsg] does with the object [out] points to: the
    new object, the rest of the input and an error. *)
Variable UnmarshalMsg : T -> list byte -> T * list byte * option error.

Definition read (w : loc) (out : option T) : M (option T * option error) :=
  b <- in_get w ;;
  let '(code, body, e) := msgp.ReadIntBytes b in
  match e with
  | Some e => ret (out, Some e)
  | None =>
    if negb (code =? StatusOK) then
      let '(str, _, e) := msgp.ReadStringBytes b in
      let str := match e with Some _ => "<?>"%string | None => str end in
      ret (out, Some (ResponseError code str))
    else
      match out with
      | Some o =>
        let '(o', _, e) := UnmarshalMsg o body in
        ret (Some o', e)
      | None => ret (None, None)
      end
  end.

(** The part of [call] from [sema.Wait] on. *)
Definition call_resume (w : loc) (out : option T)
  : M (option T * option error) :=
  sema_Wait w ;;
  wg_Done ;;
  x <- deref w ;;
  match err x with
  | Some e => ret (out, Some e)
  | None => read w out
  end.

Definition call (w : loc) (method : Z) (inp : option Marshaler)
  (out : option T) : M (option T * option error) :=
  e <- write w method inp ;;
  match e with
  | Some e => wg_Done ;; ret (out, Some e)
  | None => call_resume w out
  end.

(** The part of [Call] that runs once the caller is woken. *)
Definition Call_resume (w : loc) (out : option T)
  : M (option T * option error) :=
  r <- call_resume w out ;;
  waiters_push w ;;
  ret r.

Definition Call (method : Z) (inp : option Marshaler) (out : option T)
  : M (option T * option error) :=
  w <- waiters_pop ;;
  r <- call w method inp out ;;
  waiters_push w ;;
  ret r.

End unmarshal.

(** *** Commands *)

(** The part of [sendCommand] from [sema.Wait] on. *)
Definition sendCommand_resume (w : loc) : M (option error) :=
  sema_Wait w ;;
  wg_Done ;;
  x <- deref w ;;
  match err x with
  | Some e => ret (Some e)
  | None =>
    b <- in_get w ;;
    match b with
    | [] => waiters_push w ;; ret (Some errNoCmd)
    | b0 :: rest =>
      let r := u8 b0 in
      if (r =? cmdInvalid) || (r >=? _maxcommand)
      then waiters_push w ;; ret (Some errUnknownCmd)
      else
        modify (on_cl (fun c => cmdDirectory_done r c rest)) ;;
        waiters_push w ;;
        ret None
    end
  end.

Definition sendCommand (cmd : Z) (msg : list byte) : M (option error) :=
  w <- waiters_pop ;;
  e <- writeCommand w cmd msg ;;
  match e with
  | Some e => wg_Done ;; ret (Some e)
  | None => sendCommand_resume w
  end.

Definition ping : M (option error) := sendCommand cmdPing [].

End client.

(** ** The writer, the scavenger and the constructor *)

(** [wt, ok := <-c.writing]: the oldest waiter of the queue; none once
    the channel is closed and drained; the receive blocks while the
    channel is open and empty. *)
Definition recv_writing : M (option loc) := fun σ =>
  match writing (cl σ) with
  | w :: rest => (Ret (Some w), on_cl (set_writing rest) σ)
  | [] => if writing_closed (cl σ) then (Ret None, σ) else (Park, σ)
  end.

(** The [select] of [writeLoop]: what its [case] received from
    [c.writing], or [default] when the channel is open and empty. *)
Inductive selected : Type :=
| Received (w : loc)
| ChannelClosed
| Default.

Definition select_writing : M selected := fun σ =>
  match writing (cl σ) with
  | w :: rest => (Ret (Received w), on_cl (set_writing rest) σ)
  | [] =>
    if writing_closed (cl σ) then (Ret ChannelClosed, σ) else (Ret Default, σ)
  end.

Section writer.
Context `{Decls} {W : Type}.

(** The buffered writer [bwr] over the connection is a local variable of
    [writeLoop] and is passed along; [fwd] is an external package:
    [bwr_Write] and [bwr_Flush] are what [bwr.Write(p)] and [bwr.Flush()]
    make of the writer, with their error. *)
Variable bwr_Write : W -> list byte -> W * option error.
Variable bwr_Flush : W -> W * option error.

(** [c.do(bwr.Write(w.in))]: the writer after the write, and whether the
    loop goes on. *)
Definition write_waiter (bw : W) (w : loc) : M (W * bool) :=
  b <- in_get w ;;
  let '(bw, e) := bwr_Write bw b in
  ok <- do_ e ;;
  ret (bw, ok).

(** [writeLoop] from the label [more] on, up to the end of the pass of
    the outer loop: [true] when the outer loop goes on, [false] when
    [writeLoop] returns. Every jump back to [more] follows a receive;
    [fuel] bounds the number of jumps. *)
Fixpoint writeLoop_more (fuel : nat) (bw : W) : M (W * bool) :=
  s <- select_writing ;;
  match s with
  | Received another =>
    r <- write_waiter bw another ;;
    if negb r.2 then ret (r.1, false)
    else
      match fuel with
      | O => panic "writeLoop: out of fuel"
      | S fuel' => writeLoop_more fuel' r.1
      end
  | ChannelClosed => ret ((bwr_Flush bw).1, false)
  | Default =>
    let '(bw, e) := bwr_Flush bw in
    ok <- do_ e ;;
    ret (bw, ok)
  end.

(** One pass of the outer loop of [writeLoop]. The jumps to [more] are
    at most as many as waiters are queued when the pass gets there. *)
Definition writeLoop_iter (bw : W) : M (W * bool) :=
  r <- recv_writing ;;
  match r with
  | None => ret (bw, false)
  | Some wt =>
    r <- write_waiter bw wt ;;
    if negb r.2 then ret (r.1, false)
    else
      n <- gets (fun σ => length (writing (cl σ))) ;;
      writeLoop_more n r.1
  end.

(** [writeLoop], from the writer [bw] that [fwd.NewWriterSize] returns;
    the result is the writer it leaves. [fuel] bounds the number of
    passes and the result is none when it runs out. *)
Fixpoint writeLoop (fuel : nat) (bw : W) (σ : World)
  : option (res W * World) :=
  match fuel with
  | O => None
  | S fuel' =>
    match writeLoop_iter bw σ with
    | (Ret (bw', true), σ') => writeLoop fuel' bw' σ'
    | (Ret (bw', false), σ') => Some (Ret bw', σ')
    | (Park, σ') => Some (Park, σ')
    | (Panic msg, σ') => Some (Panic msg, σ')
    end
  end.

End writer.

(** Modelled from the spec: [reap()] of the pending map is not among the
    sources. The comment on [timeoutLoop] says of it: reap every pending
    item with [reap=true], and set all others to [reap=true]; to reap an
    entry is to remove it, set its error to [ErrTimeout] and signal
    it. *)
Definition reap_entry (s : Z) (w : loc) : M unit :=
  x <- deref w ;;
  if reap x then
    modify (on_cl (fun c => set_pending (delete s (pending c)) c)) ;;
    update w (set_err (Some ErrTimeout)) ;;
    sema_Wake w
  else update w (set_reap true).

(** Modelled from the spec: [reap()] passes over all the entries of the
    pending map. *)
Definition pending_reap : M unit :=
  ws <- gets (fun σ => map_to_list (pending (cl σ))) ;;
  for_each (fun sw => reap_entry sw.1 sw.2) ws.

(** [timeoutLoop]. Each element of [ticks] is a tick that arrives on the
    ticker; it tells which case the [select] takes when [c.done] is
    closed as well ([true]: the case of [c.done]). Once the ticks are
    used up the loop blocks in the [select] until [c.done] is closed. *)
Fixpoint timeoutLoop (ticks : list bool) : M unit :=
  closed <- gets (fun σ => done_closed (cl σ)) ;;
  match ticks with
  | [] => if closed then ret tt else park
  | takes_done :: ticks' =>
    if closed && takes_done then ret tt
    else pending_reap ;; timeoutLoop ticks'
  end.

Section constructor.
Context `{Decls}.

(** The end of [NewClient], from the error of the ping on. *)
Definition NewClient_finish (err : option error) : M (option error) :=
  match err with
  | Some e => Close ;; ret (Some (Errorf "synapse: ping failed: %s" e))
  | None => ret None
  end.

(** [NewClient]: the world's client becomes the new client over [c]; the
    result is the error (the client returned is nil exactly when there is
    one). The loops that [NewClient] starts are computations of their
    own ([readLoop], [writeLoop], [timeoutLoop] with [timeout], and
    [syncLinks] after a successful ping). *)
Definition NewClient (c : Conn) (timeout : Z) : M (option error) :=
  modify (on_cl (fun _ => mkClient "" c 0 [] false false 0 clientOpen ∅)) ;;
  err <- ping ;;
  NewClient_finish err.

(** The part of [NewClient] that runs once its ping, on the waiter [w],
    is woken. *)
Definition NewClient_resume (w : loc) : M (option error) :=
  err <- sendCommand_resume w ;;
  NewClient_finish err.

End constructor.

(** ** The request of a handler *)

Module req.

(** The struct [request]; the padding is left out. *)
Record request : Type := mkRequest {
  name : string;
  addr : string;
  in_ : list byte
}.

Definition mnil : Z := 0xc0.

(** [msgp.IsNil]: the first byte is the nil byte. *)
Definition msgp_IsNil (b : list byte) : bool :=
  match b with
  | [] => false
  | lead :: _ => u8 lead =? mnil
  end.

Definition Name (r : request) : string := name r.
Definition RemoteAddr (r : request) : string := addr r.

Section decode.
Context {T : Type}.

(** What [m.UnmarshalMsg] does with the object [m] points to: the new
    object, the rest of the input and an error. *)
Variable UnmarshalMsg : T -> list byte -> T * list byte * option error.

(** [Decode]: the object [m] points to after the call, the request after
    the call, and the error. *)
Definition Decode (m : option T) (r : request)
  : option T * request * option error :=
  match m with
  | Some o =>
    let '(o', rest, err) := UnmarshalMsg o (in_ r) in
    (Some o', mkRequest (name r) (addr r) rest, err)
  | None => (None, r, None)
  end.

End decode.

Definition IsNil (r : request) : bool := msgp_IsNil (in_ r).

End req.

(** ** The cluster client *)

Module pool.

(** [time.Duration] counts nanoseconds. *)
Definition Nanosecond : Z := 1.
Definition Millisecond : Z := 1000000.

(** A per-connection client as the pool holds it: its connection, its
    state and the period [d] its [timeoutLoop] was started with. *)
Record Client : Type := mkClient {
  conn : Conn;
  state : Z;
  tick : Z
}.

(** The struct [ClusterClient]; [done] is the closed flag of the
    channel. *)
Record ClusterClient : Type := mkCluster {
  idx : Z;
  cstate : Z;
  clients : list Client;
  nwk : string;
  remotes : list string;
  done : bool
}.

Record ClusterStatus : Type := mkStatus {
  Network : string;
  Connected : list string;
  Disconnected : list string
}.

Definition set_clients (x : list Client) (c : ClusterClient) : ClusterClient :=
  mkCluster (idx c) (cstate c) x (nwk c) (remotes c) (done c).
Definition set_remotes (x : list string) (c : ClusterClient) : ClusterClient :=
  mkCluster (idx c) (cstate c) (clients c) (nwk c) x (done c).

Section net.

(** The network: what [net.Dial(network, addr)] returns. *)
Variable net_Dial : string -> string -> Conn + error.

(** What the handshake [cl.ping()] returns on a connection. *)
Variable ping : Conn -> option error.

(** [NewClient]: the client is created open, its loops are started,
    [timeoutLoop] with [timeout]; when the ping fails the client is closed
    and the failure returned. *)
Definition NewClient (c : Conn) (timeout : Z) : Client + error :=
  let cl := mkClient c clientOpen timeout in
  match ping c with
  | Some e => inr (Errorf "synapse: ping failed: %s" e)
  | None => inl cl
  end.

(** The goroutine that [dialAll] starts for the address [addr] at index
    [i]; it owns [errs[i]] and [c.remotes[i]] and appends to [c.clients]
    under [addLock].

    Modelled from the spec: [handleDialError] is not among the sources
    and the spec gives it no effect on the client list or the remotes
    (both locks are held while it runs); it is left out. *)
Definition dialAll_go (i : nat) (addr : string)
  (s : ClusterClient * list (option error))
  : ClusterClient * list (option error) :=
  let '(c, errs) := s in
  match net_Dial (nwk c) addr with
  | inr e => (c, <[i := Some e]> errs)
  | inl cn =>
    let c := set_remotes (<[i := RemoteAddr cn]> (remotes c)) c in
    match NewClient cn 1000 with
    | inr e => (c, <[i := Some e]> errs)
    | inl cl => (set_clients (clients c ++ [cl]) c, errs)
    end
  end.

(** The loop over [errs] at the end of [dialAll], from index [i] on. *)
Fixpoint scan (errs : list (option error)) (i : Z) (any : bool) (first : Z)
  : bool * Z :=
  match errs with
  | [] => (any, first)
  | e :: errs' =>
    if bool_decide (e = None) && negb any then scan errs' (i + 1) true first
    else if (first =? -1) && negb (bool_decide (e = None))
    then scan errs' (i + 1) any i
    else scan errs' (i + 1) any first
  end.

(** [dialAll]. The goroutines run in parallel; [sched] is the order in
    which they take effect. Indexing [errs] out of range panics. *)
Definition dialAll (sched : list nat) (c : ClusterClient)
  : res (ClusterClient * option error) :=
  if (0 <? length (clients c))%nat then Ret (c, None)
  else if (length (remotes c) =? 0)%nat then Ret (c, Some ErrNoClients)
  else
    let addrs := remotes c in
    let errs := replicate (length addrs) None in
    let '(c, errs) :=
      foldl (fun s i =>
               match addrs !! i with
               | Some addr => dialAll_go i addr s
               | None => s
               end) (c, errs) sched in
    let '(any, first) := scan errs 0 false (-1) in
    if negb any then
      if first <? 0 then Panic "index out of range"
      else match errs !! Z.to_nat first with
           | Some e => Ret (c, e)
           | None => Panic "index out of range"
           end
    else Ret (c, None).

(** [Close] of the cluster: every client is closed and the list
    cleared. *)
Definition Close (c : ClusterClient) : ClusterClient * option error :=
  if negb (cstate c =? 2) then (c, Some ErrClosed)
  else (mkCluster (idx c) 0 [] (nwk c) (remotes c) true, None).

Definition DialCluster (sched : list nat) (network : string)
  (addrs : list string) : res (option ClusterClient * option error) :=
  if (length addrs <? 1)%nat then Ret (None, Some ErrNoClients)
  else
    let c := mkCluster 0 2 [] network addrs false in
    match dialAll sched c with
    | Ret (c, Some e) => let _ := Close c in Ret (None, Some e)
    | Ret (c, None) => Ret (Some c, None)
    | Park => Park
    | Panic msg => Panic msg
    end.

Definition add (n : Client) (c : ClusterClient) : ClusterClient :=
  set_clients (clients c ++ [n]) c.

(** The search [for _, rem := range c.remotes] of [dial]. *)
Fixpoint found (addr : string) (rems : list string) : bool :=
  match rems with
  | [] => false
  | rem :: rems' => if String.eqb rem addr then true else found addr rems'
  end.

Definition dial (inet addr : string) (exists_ : bool) (c : ClusterClient)
  : ClusterClient * option error :=
  match net_Dial inet addr with
  | inr e => (c, Some e)
  | inl cn =>
    let c :=
      if negb exists_ then
        if negb (found (RemoteAddr cn) (remotes c))
        then set_remotes (remotes c ++ [RemoteAddr cn]) c
        else c
      else c in
    match NewClient cn 1000 with
    | inr e => (c, Some e)
    | inl cl => (add cl c, None)
    end
  end.

Definition Add (addr : string) (c : ClusterClient)
  : ClusterClient * option error :=
  if negb (cstate c =? 2) then (c, Some ErrClosed)
  else dial (nwk c) addr false c.

(** The timeout a cluster-created client runs with: 1000 units of
    [time.Duration], that is nanoseconds, and not 1000 milliseconds. *)
Definition cluster_tick (cl : Client) : Prop :=
  tick cl = 1000 * Nanosecond /\
  tick cl <> 1000 * Millisecond.

(** The error that the goroutine of [dialAll] records for an address;
    none when the connection and its handshake succeed. *)
Definition attempt (network addr : string) : option error :=
  match net_Dial network addr with
  | inr e => Some e
  | inl cn =>
    match NewClient cn 1000 with
    | inr e => Some e
    | inl _ => None
    end
  end.

(** One goroutine of [dialAll] taking effect. *)
Definition dial_step (addrs : list string)
    (s : ClusterClient * list (option error)) (i : nat)
  : ClusterClient * list (option error) :=
  match addrs !! i with
  | Some addr => dialAll_go i addr s
  | None => s
  end.

End net.

(** The inner loop of [Status]: is [rem] among the connected? *)
Fixpoint dialed (rem : string) (connected : list string) : bool :=
  match connected with
  | [] => false
  | cn :: connected' =>
    if String.eqb rem cn then true else dialed rem connected'
  end.

(** The outer loop of [Status] over the remotes. *)
Fixpoint disconnected (rems connected : list string) : list string :=
  match rems with
  | [] => []
  | rem :: rems' =>
    if negb (dialed rem connected)
    then rem :: disconnected rems' connected
    else disconnected rems' connected
  end.

Definition Status (c : ClusterClient) : ClusterStatus :=
  let connected := map (fun cl => RemoteAddr (conn cl)) (clients c) in
  mkStatus (nwk c) connected (disconnected (remotes c) connected).

(** *** Round robin, removal and re-dial *)

Definition set_idx (x : Z) (c : ClusterClient) : ClusterClient :=
  mkCluster x (cstate c) (clients c) (nwk c) (remotes c) (done c).

(** [next]: the counter is incremented first; the client at the counter
    modulo the length of the list, none ([nil]) when the list is empty. *)
Definition next (c : ClusterClient) : ClusterClient * option Client :=
  let i := wrap64 (idx c + 1) in
  let c := set_idx i c in
  let l := length (clients c) in
  if (l =? 0)%nat then (c, None)
  else (c, clients c !! Z.to_nat (i mod Z.of_nat l)).

Section balance.

Variable net_Dial : string -> string -> Conn + error.
Variable ping : Conn -> option error.

(** [v == n] on two [*Client]: the record of a client does not hold its
    address, so the comparison of pointers is given from outside. *)
Variable same : Client -> Client -> bool.

(** [Network()] of the remote address of a connection. *)
Variable addr_Network : Conn -> string.

(** What [v.Call(method, in, out)] returns on the client [v], for the
    method and the arguments of the call at hand. *)
Variable call_on : Client -> option error.

(** [handleErr] is not among the sources: what it does to the cluster. *)
Variable handleErr : Client -> error -> ClusterClient -> ClusterClient.

(** The loop of [remove] over [rest], the clients from index [i] on, of
    the list [cls]: at the first client that is [n] the last client takes
    its place and the list loses its last element. *)
Fixpoint remove_from (n : Client) (cls rest : list Client) (i : nat)
  : list Client * bool :=
  match rest with
  | [] => (cls, false)
  | v :: rest' =>
    if same v n then
      let l := length cls in
      match cls !! (l - 1)%nat with
      | Some last => (take (l - 1) (<[i := last]> cls), true)
      | None => (cls, true)
      end
    else remove_from n cls rest' (S i)
  end.

Definition remove (n : Client) (c : ClusterClient) : ClusterClient * bool :=
  let '(cls, found) := remove_from n (clients c) (clients c) 0 in
  (set_clients cls c, found).

(** [redial]: only the caller that removed [n] from the list dials its
    remote again. [n.Close()] acts on the client that left the list. *)
Definition redial (n : Client) (c : ClusterClient) : ClusterClient :=
  let '(c, removed) := remove n c in
  if removed then
    (dial net_Dial ping (addr_Network (conn n)) (RemoteAddr (conn n)) true c).1
  else c.

(** [addAnother]: one more connection to the remote at the incremented
    counter modulo the number of remotes. *)
Definition addAnother (c : ClusterClient) : res (ClusterClient * option error) :=
  let l := length (remotes c) in
  if (l =? 0)%nat then Ret (c, Some ErrNoClients)
  else
    let this := wrap64 (idx c + 1) in
    let c := set_idx this c in
    match remotes c !! Z.to_nat (this mod Z.of_nat l) with
    | Some addr => Ret (dial net_Dial ping (nwk c) addr true c)
    | None => Panic "index out of range"
    end.

(** [Call] of the cluster. The jump back to the label [next] is the
    recursive call; [fuel] bounds the number of passes and the result is
    none when it runs out. [sched] is the order in which the dials of a
    [dialAll] take effect. *)
Fixpoint Call (fuel : nat) (sched : list nat) (c : ClusterClient)
  : option (res (ClusterClient * option error)) :=
  match fuel with
  | O => None
  | S fuel' =>
    let '(c, v) := next c in
    match v with
    | None =>
      if negb (cstate c =? 2) then Some (Ret (c, Some ErrClosed))
      else
        match dialAll net_Dial ping sched c with
        | Ret (c, Some e) => Some (Ret (c, Some e))
        | Ret (c, None) => Call fuel' sched c
        | Park => Some Park
        | Panic msg => Some (Panic msg)
        end
    | Some v =>
      match call_on v with
      | Some e => Some (Ret (handleErr v e c, Some e))
      | None => Some (Ret (c, None))
      end
    end
  end.

End balance.

End pool.

(** ** Vocabulary of the properties *)

(** [keeps f m]: whatever [m] does, it leaves the part [f] of the world
    as it was. *)
Definition keeps {A B : Type} (f : World -> B) (m : M A) : Prop :=
  forall σ r σ', m σ = (r, σ') -> f σ' = f σ.

(** [nonincr m]: [m] does not add to the bytes that wait to be read. *)
Definition nonincr {A : Type} (m : M A) : Prop :=
  forall σ r σ',
    m σ = (r, σ') ->
    (length (rd (conn (cl σ'))) <= length (rd (conn (cl σ))))%nat.

(** [flags_kept w σ σ']: the waiter [w] of [σ] is still there in [σ'] with
    the same signal, error and arena flag. *)
Definition flags_kept (w : loc) (σ σ' : World) : Prop :=
  forall x, heap σ !! w = Some x ->
    exists x', heap σ' !! w = Some x' /\ done x' = done x /\
               err x' = err x /\ static x' = static x.

(** The free list holds static waiters of the store only (what [push]
    maintains). *)
Definition pool_ok (σ : World) : Prop :=
  forall w, w ∈ waiters σ ->
    exists x, heap σ !! w = Some x /\ static x = true.

(** A marshaler that appends [n] bytes and does not fail. *)
Definition appends (m : Marshaler) (n : nat) : Prop :=
  forall b, (m b).2 = None /\ length (m b).1 = (length b + n)%nat.

(** An invocation of the write path. *)
Inductive op : Type :=
| OpWrite (w : loc) (method : Z) (inp : option Marshaler)
| OpWriteCommand (w : loc) (cmd : Z) (msg : list byte).

Section runs.
Context `{Decls}.

Definition exec (o : op) : M (option error) :=
  match o with
  | OpWrite w method inp => write w method inp
  | OpWriteCommand w cmd msg => writeCommand w cmd msg
  end.

(** The sequence number an invocation obtained: the value
    [atomic.AddUint64] left in the counter; none when the counter was not
    touched (the invocation returned at the state check). *)
Definition obtained (σ σ' : World) : list Z :=
  if csn (cl σ') =? csn (cl σ) then [] else [csn (cl σ')].

(** The sequence numbers that a run of invocations on one client obtains,
    in the order of the atomic increments. *)
Fixpoint run (ops : list op) (σ : World) : list Z :=
  match ops with
  | [] => []
  | o :: ops' =>
    let σ' := (exec o σ).2 in
    obtained σ σ' ++ run ops' σ'
  end.

End runs.

(** The clients that [n] successive calls of [next] return. *)
Fixpoint rounds (n : nat) (c : pool.ClusterClient) : list (option pool.Client) :=
  match n with
  | O => []
  | S n' => let '(c', v) := pool.next c in v :: rounds n' c'
  end.

(** Every connected address is a stored remote. *)
Definition known (c : pool.ClusterClient) : Prop :=
  forall cl, cl ∈ pool.clients c -> RemoteAddr (pool.conn cl) ∈ pool.remotes c.

(** What [write] makes of the buffer before the frame is put: the
    marshaled argument, or the empty map when there is none. *)
Definition marshal (inp : option Marshaler) (b : list byte)
  : list byte * option error :=
  match inp with
  | Some m => m b
  | None => (msgp.AppendMapHeader b 0, None)
  end.

(** The world that a write path leaves when it has queued the waiter
    [w], found as [x], under the sequence number [sn] with the buffer
    [buf]. *)
Definition queued (w : loc) (x : waiter) (sn : Z) (buf : list byte)
    (σ : World) : World :=
  mkWorld
    (mkClient (svc (cl σ)) (conn (cl σ)) sn (writing (cl σ) ++ [w])
       (writing_closed (cl σ)) (done_closed (cl σ)) (wg (cl σ) + 1)
       (state (cl σ)) (<[sn := w]> (pending (cl σ))))
    (<[w := mkWaiter sn (done x) (err x) buf false (static x)]> (heap σ))
    (brk σ) (waiters σ) (ErrorLogger σ) (events σ).

(** The frame codec writes the lead in place, over the first [leadSize]
    bytes of the buffer, and reads back from a lead what was put in
    it. *)
Definition framing `{Decls} : Prop :=
  forall (b : list byte) (s : Z) (k : fType) (n : Z),
    (leadSize <= length b)%nat ->
    0 <= s < 2 ^ 64 ->
    0 <= n <= maxMessageSize ->
    k = fREQ \/ k = fRES \/ k = fCMD ->
    length (putFrame b s k n) = length b /\
    drop leadSize (putFrame b s k n) = drop leadSize b /\
    readFrame (take leadSize (putFrame b s k n)) = (s, k, n).

(** A marshaler of a value whose encoding is [body]: it appends the
    encoding to the buffer it is given. *)
Definition encodes (inp : option Marshaler) (body : list byte) : Prop :=
  match inp with
  | Some m => forall b, m b = (b ++ body, None)
  | None => body = [byte_of_Z msgp.mfixmap]
  end.

(** The waiters that are pending are in the store and are not at the
    same time free: they are not in the free list and not beyond the
    allocation mark. *)
Definition pending_ok (σ : World) : Prop :=
  forall s w, pending (cl σ) !! s = Some w ->
    is_Some (heap σ !! w) /\ (w ∉ waiters σ) /\ (w < brk σ)%nat.

(** The writer after the buffers [bs] are written to it one after the
    other, without a flush in between, and the error of the first write
    that fails; the buffers behind that one are not written. *)
Fixpoint write_all {W : Type} (bwr_Write : W -> list byte -> W * option error)
    (bw : W) (bs : list (list byte)) : W * option error :=
  match bs with
  | [] => (bw, None)
  | b :: bs' =>
    match bwr_Write bw b with
    | (bw', Some e) => (bw', Some e)
    | (bw', None) => write_all bwr_Write bw' bs'
    end
  end.

(** [bs] are the buffers of the waiters [ws], in their order. *)
Definition buffers (σ : World) (ws : list loc) (bs : list (list byte)) : Prop :=
  Forall2 (fun w b => in_ <$> heap σ !! w = Some b) ws bs.

(** A frame on the connection and the waiter it is for. *)
Record delivery `{Decls} : Type := mkDelivery {
  d_lead : list byte;
  d_body : list byte;
  d_seq : Z;
  d_kind : fType;
  d_waiter : loc
}.

(** The frame of a delivery is well formed: its lead decodes to the
    sequence number, a kind that is routed and the length of the body. *)
Definition well_framed `{Decls} (d : delivery) : Prop :=
  length (d_lead d) = leadSize /\
  readFrame (d_lead d) = (d_seq d, d_kind d, Z.of_nat (length (d_body d))) /\
  (d_kind d = fCMD \/ d_kind d = fRES).

(** The bytes of the frames of [ds], one after the other. *)
Definition stream `{Decls} (ds : list delivery) : list byte :=
  concat ((fun d => d_lead d ++ d_body d) <$> ds).

(** ** Concrete declarations and worlds, for evaluation *)

Definition be_bytes (n : nat) (z : Z) : list byte :=
  map (fun i => byte_of_Z (z / 2 ^ (8 * Z.of_nat i))) (rev (List.seq 0 n)).

(** Modelled from the spec: the frame codec and the command directory are
    not among the sources. The lead is [seq:u64 be || kind:u8 ||
    length:u16 be] in 12 bytes, the last of them padding; kinds and
    command codes are numbered in the order the spec lists them, and the
    directory's handlers leave the client as it is. *)
Definition wire : Decls := {|
  fType := Z;
  fREQ := 0;
  fRES := 1;
  fCMD := 2;
  leadSize := 12;
  putFrame := fun b s k n =>
    be_bytes 8 s ++ [byte_of_Z k] ++ be_bytes 2 n ++ drop 11 b;
  readFrame := fun lead =>
    (be (take 8 lead), be (take 1 (drop 8 lead)), be (take 2 (drop 9 lead)));
  StatusOK := 1;
  cmdInvalid := 0;
  cmdPing := 1;
  cmdListLinks := 2;
  _maxcommand := 3;
  cmdDirectory_done := fun _ c _ => c
|}.

Definition conn0 : Conn := mkConn "10.0.0.1:7000" [] None false None.

(** The client that [NewClient] builds over [conn0]. *)
Definition client0 : Client :=
  mkClient "" conn0 0 [] false false 0 clientOpen ∅.

(** A world with two static waiters in the free list. *)
Definition world0 : World :=
  mkWorld client0
    (<[0%nat := mkWaiter 0 false None [] false true]>
       (<[1%nat := mkWaiter 0 false None [] false true]> ∅))
    2%nat [0%nat; 1%nat] (Some []) [].

(** A response body with status 2 and the explanation "not found", as
    [msgp] writes them. *)
Definition not_found_body : list byte :=
  msgp.AppendString (msgp.AppendInt [] 2) "not found".

(** [world0] with that body in the buffer of waiter 0. *)
Definition world_not_found : World :=
  on_heap (<[0%nat := mkWaiter 1 false None not_found_body false true]>)
    world0.

(** A marshaler that appends 65,535 zero bytes. *)
Definition big : Marshaler :=
  fun b => (b ++ replicate (Z.to_nat 65535) x00, None).

(** An unmarshaler that keeps its object and fails on nothing. *)
Definition discard (o : unit) (b : list byte)
  : unit * list byte * option error := (o, b, None).

(** [world0] after [Close]. *)
Definition world_closed : World := on_cl (set_state clientClosed) world0.

(** [world0] once a call has parked and the scavenger has reaped its
    waiter with [ErrTimeout]. *)
Definition world_timed_out : World :=
  on_cl (set_pending ∅)
    (on_heap (alter (fun x => set_done true (set_err (Some ErrTimeout) x))
                0%nat)
       (Call (H := wire) discard 42 None None world0).2).

(** The same for a ping. *)
Definition world_ping_timed_out : World :=
  on_cl (set_pending ∅)
    (on_heap (alter (fun x => set_done true (set_err (Some ErrTimeout) x))
                0%nat)
       (ping (H := wire) world0).2).

(** [world0] with the counter two below its maximum. *)
Definition world_wrap : World := on_cl (set_csn (2 ^ 64 - 2)) world0.

(** Two pings, on the waiters 0 and 1. *)
Definition two_pings : list op :=
  [OpWriteCommand 0%nat 1 []; OpWriteCommand 1%nat 1 []].

(** A frame as the server writes it. *)
Definition frame (s k : Z) (body : list byte) : list byte :=
  putFrame (Decls := wire) (replicate 12 x00) s k (Z.of_nat (length body))
  ++ body.

(** [world0] once a call has parked (its waiter 0 is registered under the
    sequence number 1) and the bytes [bs] have arrived. *)
Definition world_rx (bs : list byte) : World :=
  on_cl (fun c => set_conn (set_rd bs (conn c)) c)
    (Call (H := wire) discard 42 None None world0).2.

(** A response body with status OK and a nil payload. *)
Definition ok_body : list byte := [x01; xc0].

(** A network on which every address accepts and reports itself as the
    remote address. *)
Definition net_up (network addr : string) : Conn + error :=
  inl (mkConn addr [] None false None).

(** Only 10.0.0.1:7000 accepts. *)
Definition net_one (network addr : string) : Conn + error :=
  if String.eqb addr "10.0.0.1:7000" then net_up network addr
  else inr (ExtError ("dial " ++ addr ++ ": connection refused")).


(** Every handshake succeeds. *)
Definition ping_ok (c : Conn) : option error := None.

Definition two_addrs : list string :=
  ["10.0.0.2:7000"; "10.0.0.1:7000"]%string.

(** A client of the pool, connected to [a]. *)
Definition node (a : string) : pool.Client :=
  pool.mkClient (mkConn a [] None false None) clientOpen 1000.

(** An open cluster of three clients whose counter stands at 4. *)
Definition cluster3 : pool.ClusterClient :=
  pool.mkCluster 4 2
    [node "10.0.0.1:7000"; node "10.0.0.2:7000"; node "10.0.0.3:7000"]
    "tcp" ["10.0.0.1:7000"; "10.0.0.2:7000"; "10.0.0.3:7000"]%string false.

(** An open cluster that has lost its clients. *)
Definition cluster_lost : pool.ClusterClient :=
  pool.mkCluster 0 2 [] "tcp" two_addrs false.

(** Every request succeeds. *)
Definition call_ok (v : pool.Client) : option error := None.

(** An error handler that leaves the cluster as it is. *)
Definition handle_keep (v : pool.Client) (e : error)
    (c : pool.ClusterClient) : pool.ClusterClient := c.

(** [world0] with the bytes [bs] arrived on the connection. *)
Definition world_in (bs : list byte) : World :=
  on_cl (fun c => set_conn (set_rd bs (conn c)) c) world0.

(** [world0] on a connection whose reads fail. *)
Definition world_eof : World :=
  on_cl (set_conn (mkConn "10.0.0.1:7000" [] (Some (ExtError "EOF")) false None))
    world0.



(** [world0] with a full queue. *)
Definition world_full : World :=
  on_cl (set_writing (replicate waiterHWM 1%nat)) world0.

(** [world0] with a command outstanding on waiter 0, woken with the
    response [body]. *)
Definition world_answered (body : list byte) : World :=
  set_waiters [1%nat]
    (on_cl (set_wg 1)
       (on_heap (<[0%nat := mkWaiter 1 true None body false true]>) world0)).

(** [world0] with the waiters 0 and 1 queued, their buffers [b0] and
    [b1]. *)
Definition world_queued (b0 b1 : list byte) : World :=
  set_waiters []
    (on_cl (set_writing [0%nat; 1%nat])
       (on_heap (fun _ => <[0%nat := mkWaiter 1 false None b0 false true]>
                            (<[1%nat := mkWaiter 2 false None b1 false true]> ∅))
          world0)).

(** [world0] with the waiters 0 and 1 pending under the sequence numbers
    1 and 2 and the bytes [bs] arrived. *)
Definition world_two (bs : list byte) : World :=
  set_waiters []
    (on_cl (fun c => set_pending (<[1 := 0%nat]> (<[2 := 1%nat]> ∅))
                       (set_conn (set_rd bs (conn c)) c))
       world0).

(** A writer that holds what was written to it and takes no more than
    [cap] bytes. *)
Definition cap_Write (cap : nat) (bw : list byte) (b : list byte)
  : list byte * option error :=
  if (length (bw ++ b) <=? cap)%nat then (bw ++ b, None)
  else (bw, Some (ExtError "short write")).

Definition cap_Flush (bw : list byte) : list byte * option error :=
  (bw, None).

(** The response to a ping as the server frames it. *)
Definition pong : list byte := frame 1 2 [x01].

(** The deliveries of two frames, for the waiters 1 and 0. *)
Definition two_deliveries : list (@delivery wire) :=
  [@mkDelivery wire (take 12 (frame 2 1 ok_body)) ok_body 2 1 1%nat;
   @mkDelivery wire (take 12 (frame 1 2 [x01])) [x01] 1 2 0%nat].

(** Two clients of the pool are the same when they are connected to the
    same address. *)
Definition same_addr (a b : pool.Client) : bool :=
  String.eqb (RemoteAddr (pool.conn a)) (RemoteAddr (pool.conn b)).

(** Every remote address is on the network tcp. *)
Definition on_tcp (c : Conn) : string := "tcp".

(** An unmarshaler that reads one byte and appends it to its object. *)
Definition take_byte (o : list byte) (b : list byte)
  : list byte * list byte * option error :=
  match b with
  | [] => (o, [], Some ErrShortBytes)
  | x :: rest => (o ++ [x], rest, None)
  end.

(** A request whose body holds two objects. *)
Definition request2 : req.request :=
  req.mkRequest "echo" "10.0.0.9:4312" [x01; x02].

(** * Properties *)

(** ** The codec *)

Lemma u8_range (b : byte) : 0 <= u8 b <= 255.
Proof.
  unfold u8. pose proof (Byte.to_N_bounded b). lia.
Qed.

(** Decides the comparisons of a lead byte with the constants of the
    format that occur in the goal. *)
Ltac lead_cases :=
  repeat match goal with
  | |- context [Z.ltb ?a ?b] => destruct (Z.ltb_spec a b)
  | |- context [Z.leb ?a ?b] => destruct (Z.leb_spec a b)
  | |- context [Z.eqb ?a ?b] => destruct (Z.eqb_spec a b)
  end; simpl.

(** An integer lead byte is never a string lead byte: where
    [ReadIntBytes] reads a value, [ReadStringBytes] fails. *)
Lemma msgp_int_is_not_string (b : list byte) (code : Z) (body : list byte) :
  msgp.ReadIntBytes b = (code, body, None) ->
  exists s o e, msgp.ReadStringBytes b = (s, o, Some e).
Proof.
  destruct b as [|lead rest]; simpl; [discriminate|].
  pose proof (u8_range lead) as Hr.
  unfold msgp.isfixint, msgp.isnfixint, msgp.isfixstr, msgp.mint8,
    msgp.mint16, msgp.mint32, msgp.mint64, msgp.muint8, msgp.muint16,
    msgp.muint32, msgp.muint64, msgp.mstr8, msgp.mstr16, msgp.mstr32.
  destruct (Z.ltb_spec (u8 lead) 0x80) as [Hfix|Hfix].
  { intros _. lead_cases; try lia; eauto. }
  destruct (Z.leb_spec 0xe0 (u8 lead)) as [Hneg|Hneg].
  { intros _. lead_cases; try lia; eauto. }
  destruct (Z.eqb_spec (u8 lead) 0xd0) as [E0|E0].
  { intros _. rewrite E0. simpl. eauto. }
  destruct (Z.eqb_spec (u8 lead) 0xcc) as [U0|U0].
  { intros _. rewrite U0. simpl. eauto. }
  destruct (Z.eqb_spec (u8 lead) 0xd1) as [E1|E1].
  { intros _. rewrite E1. simpl. eauto. }
  destruct (Z.eqb_spec (u8 lead) 0xcd) as [U1|U1].
  { intros _. rewrite U1. simpl. eauto. }
  destruct (Z.eqb_spec (u8 lead) 0xd2) as [E2|E2].
  { intros _. rewrite E2. simpl. eauto. }
  destruct (Z.eqb_spec (u8 lead) 0xce) as [U2|U2].
  { intros _. rewrite U2. simpl. eauto. }
  destruct (Z.eqb_spec (u8 lead) 0xd3) as [E3|E3].
  { intros _. rewrite E3. simpl. eauto. }
  destruct (Z.eqb_spec (u8 lead) 0xcf) as [U3|U3].
  { intros _. rewrite U3. simpl. eauto. }
  discriminate.
Qed.

(** [AppendUint32] appends: what it writes does not depend on the
    buffer. *)
Lemma AppendUint32_app (b : list byte) (u : Z) :
  msgp.AppendUint32 b u = b ++ msgp.AppendUint32 [] u.
Proof.
  unfold msgp.AppendUint32, msgp.AppendUint64.
  repeat case_match; reflexivity.
Qed.

(** A 32-bit value takes between one and five bytes. *)
Lemma length_AppendUint32 (u : Z) :
  u < 2 ^ 32 -> (1 <= length (msgp.AppendUint32 [] u) <= 5)%nat.
Proof.
  intros Hu. unfold msgp.AppendUint32, msgp.AppendUint64.
  repeat case_match; cbn [length app]; lia.
Qed.

Lemma length_AppendUint32_wrap32 (method : Z) :
  (1 <= length (msgp.AppendUint32 [] (wrap32 method)) <= 5)%nat.
Proof.
  apply length_AppendUint32. unfold wrap32.
  apply Z.mod_pos_bound. lia.
Qed.

(** ** Decoding the response body *)

Section read_facts.
Context `{Decls}.
Context {T : Type} (UnmarshalMsg : T -> list byte -> T * list byte * option error).

(** With status OK and [out] supplied, the payload that follows the
    status is unmarshaled into [out] and the result of that unmarshal is
    what [read] returns. *)
Lemma read_ok_unmarshals (w : loc) (x : waiter) (o : T) (body : list byte)
    (σ : World) :
  heap σ !! w = Some x ->
  msgp.ReadIntBytes (in_ x) = (StatusOK, body, None) ->
  read UnmarshalMsg w (Some o) σ
  = (Ret (Some (UnmarshalMsg o body).1.1, (UnmarshalMsg o body).2), σ).
Proof.
  intros Hw Hi. unfold read, in_get, deref, bind, ret. rewrite Hw, Hi.
  rewrite Z.eqb_refl. simpl. destruct (UnmarshalMsg o body) as [[o' r] e].
  reflexivity.
Qed.

(** C1. When the status is not OK, [read] decodes the explanation from
    the whole body [w.in], which starts with the status, and not from the
    payload that follows it: the decode fails and the explanation of the
    [ResponseError] is always the placeholder, whatever the server
    sent. [out] is left as it was. *)
Theorem read_drops_explanation (w : loc) (x : waiter) (out : option T)
    (code : Z) (body : list byte) (σ : World) :
  heap σ !! w = Some x ->
  msgp.ReadIntBytes (in_ x) = (code, body, None) ->
  code <> StatusOK ->
  read UnmarshalMsg w out σ
  = (Ret (out, Some (ResponseError code "<?>")), σ).
Proof.
  intros Hw Hi Hc. unfold read, in_get, deref, bind, ret. rewrite Hw, Hi.
  destruct (Z.eqb_spec code StatusOK) as [|_]; [contradiction|]. simpl.
  destruct (msgp_int_is_not_string _ _ _ Hi) as (s & o & e & Hs).
  rewrite Hs. reflexivity.
Qed.

End read_facts.

(** The payload after the status decodes to "not found", and [read]
    returns the placeholder. *)
Lemma read_drops_explanation_witness :
  (msgp.ReadStringBytes (msgp.ReadIntBytes not_found_body).1.2).1.1
  = "not found"%string /\
  read (H := wire) (fun (o : unit) b => (o, b, None)) 0%nat None world_not_found
  = (Ret (None, Some (ResponseError 2 "<?>")), world_not_found).
Proof.
  split; [reflexivity|].
  apply (read_drops_explanation (H := wire) _ 0%nat
           (mkWaiter 1 false None not_found_body false true) None 2
           (msgp.ReadIntBytes not_found_body).1.2 world_not_found).
  - reflexivity.
  - reflexivity.
  - simpl. lia.
Defined.

(** ** Reasoning about computations *)

(** A computation that returned ran its first part to a return, then its
    second part from the world the first left. *)
Lemma bind_Ret_inv {A B : Type} (m : M A) (k : A -> M B) (σ σ' : World)
    (b : B) :
  bind m k σ = (Ret b, σ') ->
  exists a σ1, m σ = (Ret a, σ1) /\ k a σ1 = (Ret b, σ').
Proof.
  unfold bind. destruct (m σ) as [[a| |s] σ1]; intros E.
  - eauto.
  - discriminate.
  - discriminate.
Qed.

Lemma bind_Ret {A B : Type} (m : M A) (k : A -> M B) (σ σ1 : World) (a : A) :
  m σ = (Ret a, σ1) -> bind m k σ = k a σ1.
Proof.
  unfold bind. intros ->. reflexivity.
Qed.

(** Splits a hypothesis on a sequence that returned into its steps. *)
Ltac inv_bind E :=
  let a := fresh "a" in
  let σ1 := fresh "σ" in
  let E1 := fresh "E" in
  apply bind_Ret_inv in E as (a & σ1 & E1 & E).

Lemma keeps_bind {A B C : Type} (f : World -> C) (m : M A) (k : A -> M B) :
  keeps f m -> (forall a, keeps f (k a)) -> keeps f (bind m k).
Proof.
  intros Hm Hk σ r σ'. unfold bind.
  destruct (m σ) as [[a| |s] σ1] eqn:E; intros E'.
  - rewrite (Hk a _ _ _ E'). eapply Hm, E.
  - inversion E'; subst. eapply Hm, E.
  - inversion E'; subst. eapply Hm, E.
Qed.

Lemma keeps_ret {A B : Type} (f : World -> B) (a : A) : keeps f (ret a).
Proof.
  intros σ r σ' E. inversion E. reflexivity.
Qed.

Lemma keeps_park {A B : Type} (f : World -> B) : keeps f (@park A).
Proof.
  intros σ r σ' E. inversion E. reflexivity.
Qed.

Lemma keeps_modify {B : Type} (f : World -> B) (g : World -> World) :
  (forall σ, f (g σ) = f σ) -> keeps f (modify g).
Proof.
  intros Hg σ r σ' E. inversion E. apply Hg.
Qed.

Lemma keeps_deref {B : Type} (f : World -> B) (w : loc) : keeps f (deref w).
Proof.
  intros σ r σ'. unfold deref. destruct (heap σ !! w); intros E;
    inversion E; reflexivity.
Qed.

(** An update of a waiter changes the store of waiters only. *)
Lemma keeps_update {B : Type} (f : World -> B) (w : loc)
    (g : waiter -> waiter) :
  (forall h σ, f (on_heap h σ) = f σ) -> keeps f (update w g).
Proof.
  intros Hf. unfold update. apply keeps_bind.
  - apply keeps_deref.
  - intros x. apply keeps_modify. intros σ. apply Hf.
Qed.

Lemma keeps_for_each {A B : Type} (f : World -> B) (g : A -> M unit)
    (l : list A) :
  (forall a, keeps f (g a)) -> keeps f (for_each g l).
Proof.
  intros Hg. induction l as [|a l IH]; simpl.
  - apply keeps_ret.
  - apply keeps_bind; [apply Hg | intros _; exact IH].
Qed.

Lemma bind_inv {A B : Type} (m : M A) (k : A -> M B) (σ σ' : World)
    (r : res B) :
  bind m k σ = (r, σ') ->
  (exists a σ1, m σ = (Ret a, σ1) /\ k a σ1 = (r, σ')) \/
  (exists r0, m σ = (r0, σ') /\ forall a, r0 <> Ret a).
Proof.
  unfold bind. destruct (m σ) as [[a| |s] σ1]; intros E.
  - left. eauto.
  - right. inversion E; subst. eexists; split; [reflexivity|discriminate].
  - right. inversion E; subst. eexists; split; [reflexivity|discriminate].
Qed.

Lemma keeps_wg_Add {B : Type} (f : World -> B) (d : Z) :
  (forall g σ, f (on_cl (set_wg g) σ) = f σ) -> keeps f (wg_Add d).
Proof.
  intros Hf σ r σ'. unfold wg_Add.
  destruct (wg (cl σ) + d <? 0); intros E; inversion E; auto.
Qed.

Lemma keeps_send_writing {B : Type} (f : World -> B) (w : loc) :
  (forall g σ, f (on_cl (set_writing g) σ) = f σ) -> keeps f (send_writing w).
Proof.
  intros Hf σ r σ'. unfold send_writing.
  destruct (writing_closed (cl σ)); [intros E; inversion E; auto|].
  destruct (length (writing (cl σ)) <? waiterHWM)%nat;
    intros E; inversion E; auto.
Qed.

Lemma keeps_gets {A B : Type} (f : World -> B) (g : World -> A) :
  keeps f (gets g).
Proof.
  intros σ r σ' E. inversion E. reflexivity.
Qed.

Lemma keeps_panic {A B : Type} (f : World -> B) (msg : string) :
  keeps f (@panic A msg).
Proof.
  intros σ r σ' E. inversion E. reflexivity.
Qed.

(** Proves that a primitive given as a function on worlds leaves a part
    of the world alone. *)
Ltac keeps_raw :=
  let E := fresh "E" in
  intros ? ? ? E; repeat case_match; simplify_eq; reflexivity.

Lemma keeps_wg_Wait {B : Type} (f : World -> B) : keeps f wg_Wait.
Proof.
  unfold wg_Wait. keeps_raw.
Qed.

Lemma keeps_CompareAndSwapUint32_state {B : Type} (f : World -> B)
    (old new : Z) :
  (forall g σ, f (on_cl (set_state g) σ) = f σ) ->
  keeps f (CompareAndSwapUint32_state old new).
Proof.
  intros Hf σ r σ'. unfold CompareAndSwapUint32_state.
  destruct (state (cl σ) =? old); intros E; inversion E; auto.
Qed.

Lemma keeps_pending_remove {B : Type} (f : World -> B) (s : Z) :
  (forall g σ, f (on_cl (fun c => set_pending (g c) c) σ) = f σ) ->
  keeps f (pending_remove s).
Proof.
  intros Hf σ r σ'. unfold pending_remove.
  destruct (pending (cl σ) !! s); intros E; inversion E; subst;
    [apply (Hf (fun c => delete s (pending c))) | reflexivity].
Qed.

(** Proves that a computation built from the primitives leaves a part of
    the world alone. *)
Ltac keeps_tac :=
  repeat first
    [ apply keeps_ret
    | apply keeps_park
    | apply keeps_deref
    | apply keeps_modify; intros; reflexivity
    | apply keeps_update; intros; reflexivity
    | apply keeps_wg_Add; intros; reflexivity
    | apply keeps_send_writing; intros; reflexivity
    | apply keeps_bind; [|intros]
    | match goal with
      | |- keeps _ (if ?c then _ else _) => destruct c
      | |- keeps _ (match ?x with _ => _ end) => destruct x
      end ].

(** *** The primitives on a return *)

Lemma deref_Ret (w : loc) (σ σ' : World) (x : waiter) :
  deref w σ = (Ret x, σ') -> σ' = σ /\ heap σ !! w = Some x.
Proof.
  unfold deref. destruct (heap σ !! w); intros E; inversion E; auto.
Qed.

Lemma update_Ret (w : loc) (g : waiter -> waiter) (σ σ' : World) (u : unit) :
  update w g σ = (Ret u, σ') ->
  exists x, heap σ !! w = Some x /\ σ' = on_heap (<[w := g x]>) σ.
Proof.
  unfold update. intros E. inv_bind E. apply deref_Ret in E0 as [-> Hx].
  inversion E. eauto.
Qed.

Lemma update_ok (w : loc) (g : waiter -> waiter) (σ : World) (x : waiter) :
  heap σ !! w = Some x ->
  update w g σ = (Ret tt, on_heap (<[w := g x]>) σ).
Proof.
  intros Hx. unfold update, bind, deref. rewrite Hx. reflexivity.
Qed.

Lemma wg_Add_Ret (d : Z) (σ σ' : World) (u : unit) :
  wg_Add d σ = (Ret u, σ') -> σ' = on_cl (set_wg (wg (cl σ) + d)) σ.
Proof.
  unfold wg_Add. destruct (wg (cl σ) + d <? 0); intros E; inversion E.
  reflexivity.
Qed.

Lemma ret_Ret {A : Type} (a b : A) (σ σ' : World) :
  ret a σ = (Ret b, σ') -> b = a /\ σ' = σ.
Proof.
  intros E. inversion E. auto.
Qed.

Lemma gets_Ret {A : Type} (f : World -> A) (a : A) (σ σ' : World) :
  gets f σ = (Ret a, σ') -> a = f σ /\ σ' = σ.
Proof.
  intros E. inversion E. auto.
Qed.

Lemma modify_Ret (g : World -> World) (u : unit) (σ σ' : World) :
  modify g σ = (Ret u, σ') -> σ' = g σ.
Proof.
  intros E. inversion E. auto.
Qed.

Lemma AddUint64_csn_Ret (d v : Z) (σ σ' : World) :
  AddUint64_csn d σ = (Ret v, σ') ->
  v = wrap64 (csn (cl σ) + d) /\ σ' = on_cl (set_csn v) σ.
Proof.
  intros E. inversion E. auto.
Qed.

Lemma in_get_Ret (w : loc) (b : list byte) (σ σ' : World) :
  in_get w σ = (Ret b, σ') ->
  exists x, heap σ !! w = Some x /\ b = in_ x /\ σ' = σ.
Proof.
  unfold in_get. intros E. inv_bind E. apply deref_Ret in E0 as [-> Hx].
  apply ret_Ret in E as [-> ->]. eauto.
Qed.

Lemma pending_insert_Ret (w : loc) (u : unit) (σ σ' : World) :
  pending_insert w σ = (Ret u, σ') ->
  exists x, heap σ !! w = Some x /\
    σ' = on_cl (fun c => set_pending (<[seq x := w]> (pending c)) c) σ.
Proof.
  unfold pending_insert. intros E. inv_bind E.
  apply deref_Ret in E0 as [-> Hx]. apply modify_Ret in E as ->. eauto.
Qed.

Lemma send_writing_Ret (w : loc) (u : unit) (σ σ' : World) :
  send_writing w σ = (Ret u, σ') ->
  σ' = on_cl (set_writing (writing (cl σ) ++ [w])) σ.
Proof.
  unfold send_writing. destruct (writing_closed (cl σ)); [discriminate|].
  destruct (length (writing (cl σ)) <? waiterHWM)%nat; [|discriminate].
  intros E. inversion E. reflexivity.
Qed.

Lemma on_heap_insert_insert (w : loc) (a b : waiter) (σ : World) :
  on_heap (<[w := a]>) (on_heap (<[w := b]>) σ) = on_heap (<[w := a]>) σ.
Proof.
  unfold on_heap. cbn. rewrite insert_insert_eq. reflexivity.
Qed.

(** Reduces the projections of worlds, clients and waiters that were
    built by the field updates. *)
Ltac wsimpl :=
  cbn [cl heap brk waiters ErrorLogger events on_cl on_heap set_brk
       set_waiters set_ErrorLogger emit
       svc conn csn writing writing_closed done_closed wg state pending
       set_conn set_csn set_writing set_writing_closed set_done_closed
       set_wg set_state set_pending
       RemoteAddr rd rd_err conn_closed close_result set_rd set_conn_closed
       seq done err in_ reap static set_in set_seq set_reap set_err set_done
       clear fst snd] in *.

(** Inverts a primitive that returned. *)
Ltac prim_inv E :=
  first
    [ apply ret_Ret in E as [? ?]
    | apply gets_Ret in E as [? ?]
    | apply modify_Ret in E
    | apply wg_Add_Ret in E
    | apply AddUint64_csn_Ret in E as [? ?]
    | apply in_get_Ret in E as (? & ? & ? & ?)
    | apply update_Ret in E as (? & ? & ?)
    | apply deref_Ret in E as [? ?]
    | apply pending_insert_Ret in E as (? & ? & ?)
    | apply send_writing_Ret in E ];
  subst; wsimpl;
  rewrite ?on_heap_insert_insert, ?lookup_insert_eq in *; simplify_eq.

(** Takes the first step off a sequence that returned. *)
Ltac step E :=
  let E1 := fresh "E" in
  apply bind_Ret_inv in E as (? & ? & E1 & E); prim_inv E1.

(** ** The write path *)

Section write_facts.
Context `{Decls}.

(** What [write] has done when it returns. *)
Lemma write_Ret (w : loc) (method : Z) (inp : option Marshaler)
    (σ σ' : World) (e : option error) :
  write w method inp σ = (Ret e, σ') ->
  wg (cl σ') = wg (cl σ) + 1 /\ conn (cl σ') = conn (cl σ) /\
  state (cl σ') = state (cl σ) /\ events σ' = events σ /\
  waiters σ' = waiters σ /\ flags_kept w σ σ' /\
  csn (cl σ') = (if state (cl σ) =? clientClosed then csn (cl σ)
                 else wrap64 (csn (cl σ) + 1)) /\
  match e with
  | Some _ =>
    pending (cl σ') = pending (cl σ) /\ writing (cl σ') = writing (cl σ)
  | None =>
    writing (cl σ') = writing (cl σ) ++ [w] /\
    pending (cl σ') = <[csn (cl σ') := w]> (pending (cl σ)) /\
    exists x x', heap σ !! w = Some x /\ heap σ' !! w = Some x' /\
                 seq x' = csn (cl σ') /\ done x' = done x
  end.
Proof.
  unfold write, writebody, in_set, flags_kept. intros E.
  step E. step E.
  destruct (state (cl σ) =? clientClosed) eqn:Hst.
  { prim_inv E. repeat split; eauto. }
  step E. step E. step E. step E. step E.
  apply bind_Ret_inv in E as (e' & σ1 & E1 & E).
  match type of E1 with
  | _ (on_heap (insert w ?y) ?base) = _ =>
    assert (exists x', σ1 = on_heap (<[w := x']>) base /\ done x' = done y /\
                       err x' = err y /\ static x' = static y)
      as (x' & -> & Hd & He & Hs)
  end.
  { destruct inp as [m|]; step E1; step E1; prim_inv E1; eauto. }
  clear E1. destruct e' as [e'|].
  { prim_inv E. repeat split; eauto. intros; simplify_map_eq; eauto. }
  step E.
  match type of E with context [if ?c then _ else _] => destruct c end.
  { prim_inv E. repeat split; eauto. intros; simplify_map_eq; eauto. }
  step E.
  apply bind_Ret_inv in E as (u & σ2 & E1 & E).
  do 3 step E1. prim_inv E1. prim_inv E.
  repeat split; try done.
  - intros; simplify_map_eq; eauto.
  - eexists _, _. split; [eassumption|]. split; [reflexivity|].
    split; [reflexivity | assumption].
Qed.

End write_facts.

Section call_facts.
Context `{Decls}.

(** What [writeCommand] has done when it returns. *)
Lemma writeCommand_Ret (w : loc) (cmd : Z) (msg : list byte)
    (σ σ' : World) (e : option error) :
  writeCommand w cmd msg σ = (Ret e, σ') ->
  wg (cl σ') = wg (cl σ) + 1 /\ conn (cl σ') = conn (cl σ) /\
  state (cl σ') = state (cl σ) /\ events σ' = events σ /\
  waiters σ' = waiters σ /\ flags_kept w σ σ' /\
  csn (cl σ') = (if state (cl σ) =? clientClosed then csn (cl σ)
                 else wrap64 (csn (cl σ) + 1)) /\
  match e with
  | Some _ =>
    pending (cl σ') = pending (cl σ) /\ writing (cl σ') = writing (cl σ)
  | None =>
    writing (cl σ') = writing (cl σ) ++ [w] /\
    pending (cl σ') = <[csn (cl σ') := w]> (pending (cl σ)) /\
    exists x x', heap σ !! w = Some x /\ heap σ' !! w = Some x' /\
                 seq x' = csn (cl σ') /\ done x' = done x
  end.
Proof.
  unfold writeCommand, writebody, in_set, flags_kept. intros E.
  step E. step E.
  destruct (state (cl σ) =? clientClosed) eqn:Hst.
  { prim_inv E. repeat split; eauto. }
  step E.
  match type of E with context [if ?c then _ else _] => destruct c end.
  { prim_inv E. repeat split; eauto. }
  do 8 step E.
  apply bind_Ret_inv in E as (u & σ2 & E1 & E).
  do 3 step E1. prim_inv E1. prim_inv E.
  repeat split; try done.
  - intros; simplify_map_eq; eauto.
  - eexists _, _. split; [eassumption|]. split; [reflexivity|].
    split; reflexivity.
Qed.

Lemma sema_Wait_Ret (w : loc) (u : unit) (σ σ' : World) :
  sema_Wait w σ = (Ret u, σ') ->
  exists x, heap σ !! w = Some x /\ done x = true /\
    σ' = on_heap (<[w := set_done false x]>) σ.
Proof.
  unfold sema_Wait. intros E.
  apply bind_Ret_inv in E as (x & σ1 & E1 & E).
  apply deref_Ret in E1 as [-> Hx].
  destruct (done x) eqn:Hd; [|discriminate].
  prim_inv E. eauto.
Qed.

(** What [pop] has done when it returns [w]: [w] is cleared, and it
    comes off the free list or, when the list is empty, is fresh and not
    static. *)
Lemma waiters_pop_Ret (w : loc) (σ σ' : World) :
  waiters_pop σ = (Ret w, σ') ->
  cl σ' = cl σ /\ events σ' = events σ /\
  (exists x, heap σ' !! w = Some x /\ done x = false /\
     ((waiters σ = w :: waiters σ' /\
       exists x0, heap σ !! w = Some x0 /\ static x = static x0) \/
      (waiters σ = [] /\ waiters σ' = [] /\ static x = false))).
Proof.
  unfold waiters_pop. destruct (waiters σ) as [|w0 rest] eqn:Hws; intros E.
  - inversion E; subst; cbn. rewrite lookup_insert_eq.
    repeat split. eexists; repeat split; eauto.
  - step E. prim_inv E. repeat split.
    eexists; repeat split; eauto 8.
Qed.

Lemma waiters_push_Ret (w : loc) (u : unit) (σ σ' : World) :
  waiters_push w σ = (Ret u, σ') ->
  exists x, heap σ !! w = Some x /\
    σ' = (if static x then set_waiters (w :: waiters σ) σ else σ).
Proof.
  unfold waiters_push. intros E.
  apply bind_Ret_inv in E as (x & σ1 & E1 & E).
  apply deref_Ret in E1 as [-> Hx].
  destruct (static x) eqn:Hs; prim_inv E; exists x; rewrite Hs; eauto.
Qed.

Context {T : Type} (UnmarshalMsg : T -> list byte -> T * list byte * option error).

(** [call] returns without waiting only with an error from [write], and
    then the counter of outstanding operations is back where it was and
    nothing was registered or queued. *)
Lemma call_Ret (w : loc) (method : Z) (inp : option Marshaler)
    (out : option T) (σ σ' : World) (r : option T * option error) :
  call UnmarshalMsg w method inp out σ = (Ret r, σ') ->
  (forall x, heap σ !! w = Some x -> done x = false) ->
  (exists e, r = (out, Some e)) /\
  wg (cl σ') = wg (cl σ) /\ pending (cl σ') = pending (cl σ) /\
  writing (cl σ') = writing (cl σ) /\ conn (cl σ') = conn (cl σ) /\
  state (cl σ') = state (cl σ) /\ events σ' = events σ /\
  waiters σ' = waiters σ /\ flags_kept w σ σ'.
Proof.
  unfold call. intros E Hd.
  apply bind_Ret_inv in E as (e & σ1 & E1 & E).
  apply write_Ret in E1
    as (Hwg & Hconn & Hst & Hev & Hws & Hfl & Hcsn & He).
  destruct e as [e|].
  - destruct He as [Hp Hw]. step E. prim_inv E.
    rewrite Hwg, Hconn, Hst, Hev, Hws, Hp, Hw.
    repeat split; eauto. lia.
  - exfalso. destruct He as (_ & _ & x & x' & Hx & Hx' & _ & Hdx).
    unfold call_resume in E.
    apply bind_Ret_inv in E as (u & σ2 & E2 & E).
    apply sema_Wait_Ret in E2 as (x1 & Hx1 & Hdone & _).
    rewrite Hx' in Hx1. injection Hx1 as <-.
    rewrite Hdx, (Hd x Hx) in Hdone. discriminate.
Qed.

(** [Call] returns without waiting only with an error from [write];
    the counter of outstanding operations is back where it was, nothing
    was registered or queued, and the free list is as before. *)
Lemma Call_Ret (method : Z) (inp : option Marshaler) (out : option T)
    (σ σ' : World) (r : option T * option error) :
  Call UnmarshalMsg method inp out σ = (Ret r, σ') ->
  (exists e, r = (out, Some e)) /\
  wg (cl σ') = wg (cl σ) /\ pending (cl σ') = pending (cl σ) /\
  writing (cl σ') = writing (cl σ) /\ conn (cl σ') = conn (cl σ) /\
  state (cl σ') = state (cl σ) /\ events σ' = events σ /\
  (pool_ok σ -> waiters σ' = waiters σ).
Proof.
  unfold Call. intros E.
  apply bind_Ret_inv in E as (w & σ1 & Epop & E).
  apply bind_Ret_inv in E as (r' & σ2 & Ecall & E).
  apply bind_Ret_inv in E as (u & σ3 & Epush & E).
  apply ret_Ret in E as [-> ->].
  apply waiters_pop_Ret in Epop as (Hcl & Hev & x & Hx & Hdx & Hcase).
  apply call_Ret in Ecall
    as (He & Hwg & Hp & Hw & Hconn & Hst & Hev2 & Hws & Hfl).
  2:{ intros x' Hx'. rewrite Hx in Hx'. injection Hx' as <-. exact Hdx. }
  apply waiters_push_Ret in Epush as (x2 & Hx2 & ->).
  destruct (Hfl x Hx) as (x2' & Hx2' & _ & _ & Hs).
  rewrite Hx2 in Hx2'. injection Hx2' as <-.
  assert (forall (A : Type) (f : World -> A),
            (forall ws, f (set_waiters ws σ2) = f σ2) ->
            f (if static x2 then set_waiters (w :: waiters σ2) σ2 else σ2)
            = f σ2) as Hsame.
  { intros A f Hf. destruct (static x2); [apply Hf | reflexivity]. }
  rewrite (Hsame _ cl), (Hsame _ events) by reflexivity.
  rewrite Hwg, Hp, Hw, Hconn, Hst, Hev2, Hev, Hcl.
  repeat split; try done.
  intros Hpool.
  destruct Hcase as [(Hpopped & x0 & Hx0 & Hs0) | (Hnil & Hnil1 & Hs0)].
  - destruct (Hpool w) as (x0' & Hx0' & Hst0).
    { rewrite Hpopped. left. }
    rewrite Hx0 in Hx0'. injection Hx0' as <-.
    rewrite Hs, Hs0, Hst0. cbn. rewrite Hws. symmetry. exact Hpopped.
  - rewrite Hs, Hs0, Hws, Hnil1, Hnil. reflexivity.
Qed.

(** [sendCommand] returns without waiting only with an error from
    [writeCommand]; the counter of outstanding operations is back where
    it was, nothing was registered or queued, and the waiter that was
    popped is not pushed back. *)
Lemma sendCommand_Ret (cmd : Z) (msg : list byte) (σ σ' : World)
    (e : option error) :
  sendCommand cmd msg σ = (Ret e, σ') ->
  (exists e0, e = Some e0) /\
  wg (cl σ') = wg (cl σ) /\ pending (cl σ') = pending (cl σ) /\
  writing (cl σ') = writing (cl σ) /\ conn (cl σ') = conn (cl σ) /\
  state (cl σ') = state (cl σ) /\ events σ' = events σ /\
  waiters σ' = tail (waiters σ).
Proof.
  unfold sendCommand. intros E.
  apply bind_Ret_inv in E as (w & σ1 & Epop & E).
  apply bind_Ret_inv in E as (e1 & σ2 & Ewr & E).
  apply waiters_pop_Ret in Epop as (Hcl & Hev & x & Hx & Hdx & Hcase).
  apply writeCommand_Ret in Ewr
    as (Hwg & Hconn & Hst & Hev2 & Hws & Hfl & Hcsn & He).
  assert (waiters σ1 = tail (waiters σ)) as Htl.
  { destruct Hcase as [(-> & _) | (-> & -> & _)]; reflexivity. }
  destruct e1 as [e1|].
  - destruct He as [Hp Hw]. step E. prim_inv E.
    rewrite Hwg, Hconn, Hst, Hev2, Hws, Hp, Hw, Hev, Hcl, Htl.
    repeat split; eauto. lia.
  - exfalso. destruct He as (_ & _ & x1 & x' & Hx1 & Hx' & _ & Hdx').
    unfold sendCommand_resume in E.
    apply bind_Ret_inv in E as (u & σ3 & E2 & E).
    apply sema_Wait_Ret in E2 as (x2 & Hx2 & Hdone & _).
    rewrite Hx' in Hx2. injection Hx2 as <-.
    rewrite Hx in Hx1. injection Hx1 as <-.
    rewrite Hdx', Hdx in Hdone. discriminate.
Qed.

End call_facts.

Section forward.
Context `{Decls}.

Lemma wg_Add_ok (d : Z) (σ : World) :
  0 <= wg (cl σ) + d ->
  wg_Add d σ = (Ret tt, on_cl (set_wg (wg (cl σ) + d)) σ).
Proof.
  intros Hd. unfold wg_Add. destruct (Z.ltb_spec (wg (cl σ) + d) 0); [lia|].
  reflexivity.
Qed.

Lemma in_get_ok (w : loc) (x : waiter) (σ : World) :
  heap σ !! w = Some x -> in_get w σ = (Ret (in_ x), σ).
Proof.
  intros Hx. unfold in_get, bind, deref. rewrite Hx. reflexivity.
Qed.

Lemma bind_assoc {A B C : Type} (m : M A) (k : A -> M B) (k' : B -> M C)
    (σ : World) :
  bind (bind m k) k' σ = bind m (fun a => bind (k a) k') σ.
Proof.
  unfold bind. destruct (m σ) as [[a| |s] σ1]; reflexivity.
Qed.

(** Runs the first step of the sequence in the goal. *)
Ltac run_step :=
  first
    [ rewrite bind_assoc
    | erewrite bind_Ret by (apply wg_Add_ok; wsimpl; lia)
    | erewrite bind_Ret
        by (apply in_get_ok; wsimpl; rewrite ?lookup_insert_eq; eauto)
    | erewrite bind_Ret
        by (apply update_ok; wsimpl; rewrite ?lookup_insert_eq; eauto)
    | erewrite bind_Ret by reflexivity ];
  cbv beta; wsimpl; rewrite ?on_heap_insert_insert.

Lemma length_resize (n : nat) (b : list byte) : length (resize n b) = n.
Proof.
  unfold resize. rewrite length_app, length_take, length_replicate. lia.
Qed.

Lemma write_too_large (w : loc) (x : waiter) (method : Z) (m : Marshaler)
    (n : nat) (σ : World) :
  heap σ !! w = Some x ->
  state (cl σ) <> clientClosed ->
  0 <= wg (cl σ) ->
  appends m n ->
  Z.of_nat (length (msgp.AppendUint32 [] (wrap32 method))) + Z.of_nat n
  > maxMessageSize ->
  exists σ', write w method (Some m) σ = (Ret (Some ErrTooLarge), σ').
Proof.
  intros Hx Hst Hwg Hm Hn. unfold write, in_set.
  run_step. run_step.
  destruct (Z.eqb_spec (state (cl σ)) clientClosed) as [|_]; [contradiction|].
  do 7 run_step.
  match goal with
  | |- context [m ?b] => destruct (Hm b) as [Hme Hml]
  end.
  do 3 run_step. rewrite Hme. run_step.
  match goal with
  | |- context [if ?a >? ?b then _ else _] =>
    destruct (Z.gtb_spec a b) as [Hc|Hc]
  end.
  - unfold ret. eauto.
  - exfalso. rewrite Hml, AppendUint32_app in Hc.
    rewrite length_app, length_resize in Hc. lia.
Qed.

Lemma writeCommand_too_large (w : loc) (cmd : Z) (msg : list byte)
    (σ : World) :
  state (cl σ) <> clientClosed ->
  0 <= wg (cl σ) ->
  Z.of_nat (length msg) + 1 > maxMessageSize ->
  exists σ', writeCommand w cmd msg σ = (Ret (Some ErrTooLarge), σ').
Proof.
  intros Hst Hwg Hn. unfold writeCommand.
  run_step. run_step.
  destruct (Z.eqb_spec (state (cl σ)) clientClosed) as [|_]; [contradiction|].
  run_step.
  destruct (Z.gtb_spec (Z.of_nat (length msg) + 1) maxMessageSize); [|lia].
  unfold ret. eauto.
Qed.

Lemma waiters_pop_total (σ : World) :
  pool_ok σ -> exists w σ1, waiters_pop σ = (Ret w, σ1).
Proof.
  intros Hpool. unfold waiters_pop.
  destruct (waiters σ) as [|w rest] eqn:Hws; [eauto|].
  destruct (Hpool w) as (x & Hx & _); [rewrite Hws; left|].
  erewrite bind_Ret by (apply update_ok; wsimpl; eauto).
  unfold ret. eauto.
Qed.

Lemma waiters_push_total (w : loc) (x : waiter) (σ : World) :
  heap σ !! w = Some x -> exists σ', waiters_push w σ = (Ret tt, σ').
Proof.
  intros Hx. unfold waiters_push, bind, deref. rewrite Hx.
  destruct (static x); unfold modify, ret; eauto.
Qed.

Context {T : Type} (UnmarshalMsg : T -> list byte -> T * list byte * option error).

Lemma Call_too_large (method : Z) (m : Marshaler) (n : nat)
    (out : option T) (σ : World) :
  pool_ok σ ->
  state (cl σ) <> clientClosed ->
  0 <= wg (cl σ) ->
  appends m n ->
  Z.of_nat (length (msgp.AppendUint32 [] (wrap32 method))) + Z.of_nat n
  > maxMessageSize ->
  exists σ', Call UnmarshalMsg method (Some m) out σ
             = (Ret (out, Some ErrTooLarge), σ').
Proof.
  intros Hpool Hst Hwg Hm Hn. unfold Call, call.
  destruct (waiters_pop_total σ Hpool) as (w & σ1 & Epop).
  rewrite (bind_Ret _ _ _ _ _ Epop).
  apply waiters_pop_Ret in Epop as (Hcl & _ & x & Hx & _).
  destruct (write_too_large w x method m n σ1) as [σ2 Ew];
    rewrite ?Hcl; auto.
  rewrite bind_assoc, (bind_Ret _ _ _ _ _ Ew).
  apply write_Ret in Ew as (Hwg2 & _ & _ & _ & _ & Hfl & _).
  destruct (Hfl x Hx) as (x2 & Hx2 & _).
  cbv beta. rewrite bind_assoc.
  erewrite bind_Ret by (apply wg_Add_ok; rewrite Hwg2, Hcl; lia).
  erewrite bind_Ret by reflexivity.
  destruct (waiters_push_total w x2
              (on_cl (set_wg (wg (cl σ2) + -1)) σ2)) as [σ3 Epush];
    [exact Hx2|].
  rewrite (bind_Ret _ _ _ _ _ Epush). unfold ret. eauto.
Qed.

Lemma sendCommand_too_large (cmd : Z) (msg : list byte) (σ : World) :
  pool_ok σ ->
  state (cl σ) <> clientClosed ->
  0 <= wg (cl σ) ->
  Z.of_nat (length msg) + 1 > maxMessageSize ->
  exists σ', sendCommand cmd msg σ = (Ret (Some ErrTooLarge), σ').
Proof.
  intros Hpool Hst Hwg Hn. unfold sendCommand.
  destruct (waiters_pop_total σ Hpool) as (w & σ1 & Epop).
  rewrite (bind_Ret _ _ _ _ _ Epop).
  apply waiters_pop_Ret in Epop as (Hcl & _).
  destruct (writeCommand_too_large w cmd msg σ1) as [σ2 Ew];
    rewrite ?Hcl; auto.
  rewrite (bind_Ret _ _ _ _ _ Ew).
  apply writeCommand_Ret in Ew as (Hwg2 & _).
  erewrite bind_Ret by (apply wg_Add_ok; rewrite Hwg2, Hcl; lia).
  unfold ret. eauto.
Qed.

(** C2. On an open client, a call whose encoded body (the method as
    [msgp.AppendUint32] writes it, in one to five bytes, and the
    marshaled argument) exceeds 65,535 bytes, and a command whose body
    (the code and the message) does, return [ErrTooLarge] without
    waiting; the pending map, the writing channel and the connection are
    as they were. *)
Theorem too_large_rejected_before_framing (method : Z) (m : Marshaler)
    (n : nat) (out : option T) (cmd : Z) (msg : list byte) (σ : World) :
  pool_ok σ ->
  state (cl σ) = clientOpen ->
  0 <= wg (cl σ) ->
  appends m n ->
  Z.of_nat (length (msgp.AppendUint32 [] (wrap32 method))) + Z.of_nat n
  > 65535 ->
  Z.of_nat (length msg) + 1 > 65535 ->
  (exists σ', Call UnmarshalMsg method (Some m) out σ
              = (Ret (out, Some ErrTooLarge), σ') /\
     pending (cl σ') = pending (cl σ) /\
     writing (cl σ') = writing (cl σ) /\
     conn (cl σ') = conn (cl σ)) /\
  (exists σ', sendCommand cmd msg σ = (Ret (Some ErrTooLarge), σ') /\
     pending (cl σ') = pending (cl σ) /\
     writing (cl σ') = writing (cl σ) /\
     conn (cl σ') = conn (cl σ)).
Proof.
  intros Hpool Hopen Hwg Hm Hn Hmsg.
  assert (state (cl σ) <> clientClosed) as Hst.
  { rewrite Hopen. discriminate. }
  split.
  - destruct (Call_too_large method m n out σ) as [σ' E]; auto.
    exists σ'. split; [exact E|].
    apply Call_Ret in E as (_ & _ & Hp & Hw & Hc & _). auto.
  - destruct (sendCommand_too_large cmd msg σ) as [σ' E]; auto.
    exists σ'. split; [exact E|].
    apply sendCommand_Ret in E as (_ & _ & Hp & Hw & Hc & _). auto.
Qed.

End forward.

Lemma pool_ok_world0 : pool_ok world0.
Proof.
  intros w Hw. cbn in Hw.
  apply elem_of_cons in Hw as [->|Hw]; [eexists; split; reflexivity|].
  apply elem_of_cons in Hw as [->|Hw]; [eexists; split; reflexivity|].
  inversion Hw.
Defined.

Lemma appends_big : appends big (Z.to_nat 65535).
Proof.
  intros b. split; [reflexivity|]. unfold big. cbn [fst].
  rewrite length_app, length_replicate. reflexivity.
Defined.

Lemma too_large_rejected_before_framing_witness :
  (exists σ', Call (H := wire) (fun (o : unit) b => (o, b, None)) 42
                (Some big) None world0
              = (Ret (None, Some ErrTooLarge), σ') /\
     pending (cl σ') = pending (cl world0) /\
     writing (cl σ') = writing (cl world0) /\
     conn (cl σ') = conn (cl world0)) /\
  (exists σ', sendCommand (H := wire) 2 (replicate (Z.to_nat 65535) x00) world0
              = (Ret (Some ErrTooLarge), σ') /\
     pending (cl σ') = pending (cl world0) /\
     writing (cl σ') = writing (cl world0) /\
     conn (cl σ') = conn (cl world0)).
Proof.
  apply (too_large_rejected_before_framing (H := wire) _ 42 big (Z.to_nat 65535) None 2
           (replicate (Z.to_nat 65535) x00) world0).
  - exact pool_ok_world0.
  - reflexivity.
  - cbn. lia.
  - exact appends_big.
  - vm_compute. reflexivity.
  - rewrite length_replicate. vm_compute. reflexivity.
Defined.

(** ** Returning from a call *)

Section resume_facts.
Context `{Decls}.
Context {T : Type} (UnmarshalMsg : T -> list byte -> T * list byte * option error).

(** [read] changes nothing in the world. *)
Lemma read_Ret (w : loc) (out : option T) (σ σ' : World)
    (r : option T * option error) :
  read UnmarshalMsg w out σ = (Ret r, σ') -> σ' = σ.
Proof.
  unfold read. intros E.
  apply bind_Ret_inv in E as (b & σ1 & E1 & E).
  apply in_get_Ret in E1 as (x & _ & _ & ->).
  destruct (msgp.ReadIntBytes b) as [[code body] [e|]].
  - apply ret_Ret in E as [_ ->]. reflexivity.
  - destruct (negb (code =? StatusOK)).
    + destruct (msgp.ReadStringBytes b) as [[str rest] e].
      apply ret_Ret in E as [_ ->]. reflexivity.
    + destruct out as [o|].
      * destruct (UnmarshalMsg o body) as [[o' rest] e].
        apply ret_Ret in E as [_ ->]. reflexivity.
      * apply ret_Ret in E as [_ ->]. reflexivity.
Qed.

(** What the rest of [call] has done when it returns: the signal was
    set and is consumed, and the counter of outstanding operations is
    decremented. *)
Lemma call_resume_Ret (w : loc) (out : option T) (σ σ' : World)
    (r : option T * option error) :
  call_resume UnmarshalMsg w out σ = (Ret r, σ') ->
  exists x, heap σ !! w = Some x /\ done x = true /\
    σ' = on_cl (set_wg (wg (cl σ) + -1))
           (on_heap (<[w := set_done false x]>) σ) /\
    (forall e, err x = Some e -> r = (out, Some e)).
Proof.
  unfold call_resume. intros E.
  apply bind_Ret_inv in E as (u & σ1 & E1 & E).
  apply sema_Wait_Ret in E1 as (x & Hx & Hd & ->).
  step E.
  apply bind_Ret_inv in E as (x' & σ2 & E1 & E).
  apply deref_Ret in E1 as [-> Hx']. wsimpl.
  rewrite lookup_insert_eq in Hx'. injection Hx' as <-. wsimpl.
  exists x. repeat split; auto.
  - destruct (err x) as [e|].
    + apply ret_Ret in E as [_ ->]. reflexivity.
    + apply read_Ret in E as ->. reflexivity.
  - intros e He. rewrite He in E. apply ret_Ret in E as [-> _]. reflexivity.
Qed.

(** Once woken, [Call] pushes its waiter whatever the result. *)
Lemma Call_resume_Ret (w : loc) (out : option T) (σ σ' : World)
    (r : option T * option error) :
  Call_resume UnmarshalMsg w out σ = (Ret r, σ') ->
  exists x, heap σ !! w = Some x /\ done x = true /\
    wg (cl σ') = wg (cl σ) - 1 /\
    waiters σ' = (if static x then w :: waiters σ else waiters σ).
Proof.
  unfold Call_resume. intros E.
  apply bind_Ret_inv in E as (r' & σ1 & E1 & E).
  apply call_resume_Ret in E1 as (x & Hx & Hd & -> & _).
  apply bind_Ret_inv in E as (u & σ2 & E1 & E).
  apply waiters_push_Ret in E1 as (x' & Hx' & ->). wsimpl.
  rewrite lookup_insert_eq in Hx'. injection Hx' as <-. wsimpl.
  apply ret_Ret in E as [_ ->].
  exists x. repeat split; auto; destruct (static x); reflexivity.
Qed.

(** Once woken, [sendCommand] pushes its waiter only when the waiter
    carries no error. *)
Lemma sendCommand_resume_Ret (w : loc) (σ σ' : World) (e : option error) :
  sendCommand_resume w σ = (Ret e, σ') ->
  exists x, heap σ !! w = Some x /\ done x = true /\
    match err x with
    | Some e0 =>
      e = Some e0 /\ waiters σ' = waiters σ /\ wg (cl σ') = wg (cl σ) - 1
    | None => waiters σ' = (if static x then w :: waiters σ else waiters σ)
    end.
Proof.
  unfold sendCommand_resume. intros E.
  apply bind_Ret_inv in E as (u & σ1 & E1 & E).
  apply sema_Wait_Ret in E1 as (x & Hx & Hd & ->).
  step E.
  apply bind_Ret_inv in E as (x' & σ2 & E1 & E).
  apply deref_Ret in E1 as [-> Hx']. wsimpl.
  rewrite lookup_insert_eq in Hx'. injection Hx' as <-. wsimpl.
  exists x. split; [exact Hx|]. split; [exact Hd|].
  destruct (err x) as [e0|].
  { apply ret_Ret in E as [-> ->]. wsimpl. repeat split; auto. }
  apply bind_Ret_inv in E as (b & σ2 & E1 & E).
  apply in_get_Ret in E1 as (x' & Hx' & _ & ->). wsimpl.
  assert (forall (k : M (option error)) σ0,
            heap σ0 !! w = Some (set_done false x) ->
            bind (waiters_push w) (fun _ => k) σ0 = (Ret e, σ') ->
            exists σ3, k σ3 = (Ret e, σ') /\
              waiters σ3
              = (if static x then w :: waiters σ0 else waiters σ0))
    as Hpush.
  { intros k σ0 Hw Ek. apply bind_Ret_inv in Ek as (u1 & σ3 & Ep & Ek).
    apply waiters_push_Ret in Ep as (y & Hy & ->).
    rewrite Hw in Hy. injection Hy as <-. wsimpl.
    eexists. split; [exact Ek|]. destruct (static x); auto. }
  destruct b as [|b0 rest].
  - apply Hpush in E as (σ3 & E & Hws); [|apply lookup_insert_eq].
    apply ret_Ret in E as [_ ->]. rewrite Hws. reflexivity.
  - destruct ((u8 b0 =? cmdInvalid) || (u8 b0 >=? _maxcommand)).
    + apply Hpush in E as (σ3 & E & Hws); [|apply lookup_insert_eq].
      apply ret_Ret in E as [_ ->]. rewrite Hws. reflexivity.
    + apply bind_Ret_inv in E as (u1 & σ3 & E1 & E).
      apply modify_Ret in E1 as ->.
      apply Hpush in E as (σ3 & E & Hws); [|apply lookup_insert_eq].
      apply ret_Ret in E as [_ ->]. rewrite Hws. reflexivity.
Qed.

(** C3. [write] and [writeCommand] increment the counter of outstanding
    operations before the state check and leave the increment when they
    return an error; [Call] and [sendCommand] then decrement it, so that
    each of them that returns an error before the request is queued
    leaves the counter, the pending map and the writing channel as they
    were. *)
Theorem wg_restored_on_early_return :
  (forall w method inp σ e σ',
     write w method inp σ = (Ret (Some e), σ') ->
     wg (cl σ') = wg (cl σ) + 1 /\ pending (cl σ') = pending (cl σ) /\
     writing (cl σ') = writing (cl σ)) /\
  (forall w cmd msg σ e σ',
     writeCommand w cmd msg σ = (Ret (Some e), σ') ->
     wg (cl σ') = wg (cl σ) + 1 /\ pending (cl σ') = pending (cl σ) /\
     writing (cl σ') = writing (cl σ)) /\
  (forall method inp out σ r σ',
     Call UnmarshalMsg method inp out σ = (Ret r, σ') ->
     (exists e, r = (out, Some e)) /\
     wg (cl σ') = wg (cl σ) /\ pending (cl σ') = pending (cl σ) /\
     writing (cl σ') = writing (cl σ)) /\
  (forall cmd msg σ e σ',
     sendCommand cmd msg σ = (Ret e, σ') ->
     (exists e0, e = Some e0) /\
     wg (cl σ') = wg (cl σ) /\ pending (cl σ') = pending (cl σ) /\
     writing (cl σ') = writing (cl σ)).
Proof.
  split; [|split; [|split]].
  - intros w method inp σ e σ' E. apply write_Ret in E. tauto.
  - intros w cmd msg σ e σ' E. apply writeCommand_Ret in E. tauto.
  - intros method inp out σ r σ' E. apply Call_Ret in E. tauto.
  - intros cmd msg σ e σ' E. apply sendCommand_Ret in E. tauto.
Qed.

(** C10. [Call] pushes its waiter before it returns, when it fails
    before waiting (the free list is as before the call) and once woken,
    whatever the result (a static waiter is on top of the free list
    again). [sendCommand] does not push its waiter when [writeCommand]
    fails (the waiter that was popped stays off the list) nor when the
    waiter carries an error on wake-up (the free list is untouched). *)
Theorem Call_recycles_sendCommand_leaks :
  (forall method inp out σ r σ',
     pool_ok σ ->
     Call UnmarshalMsg method inp out σ = (Ret r, σ') ->
     waiters σ' = waiters σ) /\
  (forall w out σ r σ',
     Call_resume UnmarshalMsg w out σ = (Ret r, σ') ->
     exists x, heap σ !! w = Some x /\
       waiters σ' = (if static x then w :: waiters σ else waiters σ)) /\
  (forall cmd msg σ e σ',
     sendCommand cmd msg σ = (Ret e, σ') ->
     (exists e0, e = Some e0) /\ waiters σ' = tail (waiters σ)) /\
  (forall w σ e σ' x e0,
     sendCommand_resume w σ = (Ret e, σ') ->
     heap σ !! w = Some x ->
     err x = Some e0 ->
     e = Some e0 /\ waiters σ' = waiters σ).
Proof.
  split; [|split; [|split]].
  - intros method inp out σ r σ' Hpool E.
    apply Call_Ret in E. tauto.
  - intros w out σ r σ' E.
    apply Call_resume_Ret in E as (x & Hx & _ & _ & Hws). eauto.
  - intros cmd msg σ e σ' E.
    apply sendCommand_Ret in E. tauto.
  - intros w σ e σ' x e0 E Hx He.
    apply sendCommand_resume_Ret in E as (x' & Hx' & _ & Hcase).
    rewrite Hx in Hx'. injection Hx' as <-. rewrite He in Hcase. tauto.
Qed.

End resume_facts.

Lemma wg_restored_on_early_return_witness :
  (wg (cl (write (H := wire) 0%nat 42 None world_closed).2)
   = wg (cl world_closed) + 1) /\
  (wg (cl (Call (H := wire) discard 42 None None world_closed).2)
   = wg (cl world_closed)) /\
  (wg (cl (sendCommand (H := wire) 1 [] world_closed).2)
   = wg (cl world_closed)).
Proof.
  destruct (wg_restored_on_early_return (H := wire) discard)
    as (Hwrite & _ & HCall & Hsend).
  split; [|split].
  - eapply (Hwrite 0%nat 42 None world_closed ErrClosed).
    vm_compute. reflexivity.
  - eapply (HCall 42 None None world_closed (None, Some ErrClosed)).
    vm_compute. reflexivity.
  - eapply (Hsend 1 [] world_closed (Some ErrClosed)).
    vm_compute. reflexivity.
Defined.

Lemma pool_ok_world_closed : pool_ok world_closed.
Proof.
  exact pool_ok_world0.
Defined.

Lemma Call_recycles_sendCommand_leaks_witness :
  (waiters (Call (H := wire) discard 42 None None world_closed).2
   = [0%nat; 1%nat]) /\
  (waiters world_timed_out = [1%nat] /\
   Call_resume (H := wire) discard 0%nat None world_timed_out
   = (Ret (None, Some ErrTimeout),
      (Call_resume (H := wire) discard 0%nat None world_timed_out).2) /\
   waiters (Call_resume (H := wire) discard 0%nat None world_timed_out).2
   = [0%nat; 1%nat]) /\
  (waiters (sendCommand (H := wire) 1 [] world_closed).2 = [1%nat]) /\
  (waiters world_ping_timed_out = [1%nat] /\
   (sendCommand_resume (H := wire) 0%nat world_ping_timed_out).1
   = Ret (Some ErrTimeout) /\
   waiters (sendCommand_resume (H := wire) 0%nat world_ping_timed_out).2
   = [1%nat]).
Proof.
  destruct (Call_recycles_sendCommand_leaks (H := wire) discard)
    as (HCall & Hresume & Hsend & Hsend_resume).
  split; [|split; [|split]].
  - apply (HCall 42 None None world_closed (None, Some ErrClosed)).
    + exact pool_ok_world_closed.
    + vm_compute. reflexivity.
  - split; [reflexivity|]. split; [vm_compute; reflexivity|].
    destruct (Hresume 0%nat None world_timed_out (None, Some ErrTimeout)
                (Call_resume (H := wire) discard 0%nat None
                   world_timed_out).2) as (x & Hx & Hws).
    { vm_compute. reflexivity. }
    rewrite Hws. vm_compute in Hx. injection Hx as <-. reflexivity.
  - apply (Hsend 1 [] world_closed (Some ErrClosed)).
    vm_compute. reflexivity.
  - split; [reflexivity|]. split; [vm_compute; reflexivity|].
    eapply (Hsend_resume 0%nat world_ping_timed_out (Some ErrTimeout)).
    + vm_compute. reflexivity.
    + vm_compute. reflexivity.
    + reflexivity.
Defined.

(** ** Sequence numbers *)

Section seq_facts.
Context `{Decls}.

(** An invocation of [write] leaves the counter as it was or adds one to
    it, whatever its outcome. *)
Lemma write_csn (w : loc) (method : Z) (inp : option Marshaler)
    (σ σ' : World) (r : res (option error)) :
  write w method inp σ = (r, σ') ->
  csn (cl σ') = csn (cl σ) \/ csn (cl σ') = wrap64 (csn (cl σ) + 1).
Proof.
  unfold write. intros E.
  apply bind_inv in E as [(u & σ1 & E1 & E) | (r0 & E1 & _)].
  2:{ left. revert E1. apply (keeps_wg_Add (fun σ => csn (cl σ))). auto. }
  apply wg_Add_Ret in E1 as ->.
  apply bind_inv in E as [(st & σ1 & E1 & E) | (r0 & E1 & Hr0)].
  2:{ inversion E1; subst. destruct (Hr0 _ eq_refl). }
  apply gets_Ret in E1 as [-> ->]. wsimpl.
  destruct (state (cl σ) =? clientClosed).
  { inversion E. auto. }
  apply bind_inv in E as [(sn & σ1 & E1 & E) | (r0 & E1 & Hr0)].
  2:{ inversion E1; subst. destruct (Hr0 _ eq_refl). }
  apply AddUint64_csn_Ret in E1 as [-> ->]. right.
  match type of E with
  | ?prog _ = _ => assert (keeps (fun σ => csn (cl σ)) prog) as Hk
  end.
  { unfold in_get, in_set, writebody, pending_insert. keeps_tac. }
  apply Hk in E. exact E.
Qed.

(** The same for [writeCommand]. *)
Lemma writeCommand_csn (w : loc) (cmd : Z) (msg : list byte)
    (σ σ' : World) (r : res (option error)) :
  writeCommand w cmd msg σ = (r, σ') ->
  csn (cl σ') = csn (cl σ) \/ csn (cl σ') = wrap64 (csn (cl σ) + 1).
Proof.
  unfold writeCommand. intros E.
  apply bind_inv in E as [(u & σ1 & E1 & E) | (r0 & E1 & _)].
  2:{ left. revert E1. apply (keeps_wg_Add (fun σ => csn (cl σ))). auto. }
  apply wg_Add_Ret in E1 as ->.
  apply bind_inv in E as [(st & σ1 & E1 & E) | (r0 & E1 & Hr0)].
  2:{ inversion E1; subst. destruct (Hr0 _ eq_refl). }
  apply gets_Ret in E1 as [-> ->]. wsimpl.
  destruct (state (cl σ) =? clientClosed).
  { inversion E. auto. }
  apply bind_inv in E as [(sn & σ1 & E1 & E) | (r0 & E1 & Hr0)].
  2:{ inversion E1; subst. destruct (Hr0 _ eq_refl). }
  apply AddUint64_csn_Ret in E1 as [-> ->]. right.
  match type of E with
  | ?prog _ = _ => assert (keeps (fun σ => csn (cl σ)) prog) as Hk
  end.
  { unfold in_get, in_set, writebody, pending_insert. keeps_tac. }
  apply Hk in E. exact E.
Qed.

Lemma exec_csn (o : op) (σ : World) :
  csn (cl (exec o σ).2) = csn (cl σ) \/
  csn (cl (exec o σ).2) = wrap64 (csn (cl σ) + 1).
Proof.
  destruct (exec o σ) as [r σ'] eqn:E. destruct o; simpl in E.
  - eapply write_csn, E.
  - eapply writeCommand_csn, E.
Qed.

(** The numbers a run obtains lie above the counter it starts from and
    increase, as long as the counter does not wrap. *)
Lemma run_increasing (ops : list op) (σ : World) :
  0 <= csn (cl σ) ->
  csn (cl σ) + Z.of_nat (length ops) < 2 ^ 64 ->
  StronglySorted Z.lt (run ops σ) /\
  Forall (fun s => csn (cl σ) < s <= csn (cl σ) + Z.of_nat (length ops))
    (run ops σ).
Proof.
  revert σ. induction ops as [|o ops IH]; intros σ H0 Hlt; simpl.
  { split; constructor. }
  cbn [length] in *. rewrite Nat2Z.inj_succ in *.
  assert (csn (cl (exec o σ).2) = csn (cl σ) /\
            obtained σ (exec o σ).2 = [] \/
          csn (cl (exec o σ).2) = csn (cl σ) + 1 /\
            obtained σ (exec o σ).2 = [csn (cl σ) + 1]) as Hstep.
  { unfold obtained.
    destruct (exec_csn o σ) as [E|E]; rewrite E.
    - left. rewrite Z.eqb_refl. auto.
    - right. unfold wrap64. rewrite Z.mod_small by lia.
      destruct (Z.eqb_spec (csn (cl σ) + 1) (csn (cl σ))); [lia|auto]. }
  destruct Hstep as [[Hc Ho] | [Hc Ho]]; rewrite Ho;
    destruct (IH (exec o σ).2) as [Hs Hf]; try (rewrite Hc; lia);
    rewrite Hc in Hf.
  - simpl. split; [exact Hs|].
    eapply Forall_impl; [exact Hf|]. simpl. intros s. lia.
  - simpl. split.
    + constructor; [exact Hs|].
      eapply Forall_impl; [exact Hf|]. simpl. intros s. lia.
    + constructor; [lia|].
      eapply Forall_impl; [exact Hf|]. simpl. intros s. lia.
Qed.

(** The numbers a run obtains are the successors of the counter it
    starts from, one after the other, modulo [2^64]: as many of them as
    invocations drew a number. *)
Lemma run_successors (ops : list op) :
  forall σ : World,
  0 <= csn (cl σ) < 2 ^ 64 ->
  exists k : nat,
    (k <= length ops)%nat /\
    run ops σ
    = (fun i : nat => wrap64 (csn (cl σ) + Z.of_nat i)) <$> List.seq 1 k.
Proof.
  induction ops as [|o ops IH]; intros σ Hc.
  { exists 0%nat. split; [lia | reflexivity]. }
  cbn [run length].
  assert (0 <= wrap64 (csn (cl σ) + 1) < 2 ^ 64) as Hw.
  { unfold wrap64. apply Z.mod_pos_bound. lia. }
  assert (wrap64 (csn (cl σ) + 1) <> csn (cl σ)) as Hne.
  { unfold wrap64.
    destruct (Z.eq_dec (csn (cl σ)) (2 ^ 64 - 1)) as [E|E].
    - rewrite E. replace (2 ^ 64 - 1 + 1) with (2 ^ 64) by lia.
      rewrite Z.mod_same by lia. lia.
    - rewrite Z.mod_small by lia. lia. }
  unfold obtained.
  destruct (exec_csn o σ) as [E|E]; rewrite E.
  - rewrite Z.eqb_refl. cbn [app].
    destruct (IH (exec o σ).2) as (k & Hk & Hrun); [rewrite E; exact Hc|].
    exists k. split; [lia|]. rewrite Hrun, E. reflexivity.
  - destruct (Z.eqb_spec (wrap64 (csn (cl σ) + 1)) (csn (cl σ)));
      [contradiction|].
    destruct (IH (exec o σ).2) as (k & Hk & Hrun); [rewrite E; exact Hw|].
    exists (S k). split; [lia|]. rewrite Hrun, E.
    cbn [app List.seq fmap list_fmap]. f_equal.
    rewrite <- (fmap_S_seq 1 k), <- list_fmap_compose.
    apply list_fmap_ext. intros _ i _. cbn [compose].
    unfold wrap64. rewrite Zplus_mod_idemp_l. f_equal. lia.
Qed.

(** Up to [2^64] successors of a counter are pairwise distinct modulo
    [2^64]. *)
Lemma successors_NoDup (c : Z) (k : nat) :
  Z.of_nat k <= 2 ^ 64 ->
  NoDup ((fun i : nat => wrap64 (c + Z.of_nat i)) <$> List.seq 1 k).
Proof.
  intros Hk. apply NoDup_fmap_2_strong; [|apply NoDup_seq].
  intros i j Hi Hj Heq.
  apply elem_of_seq in Hi. apply elem_of_seq in Hj.
  unfold wrap64 in Heq.
  pose proof (Z.div_mod (c + Z.of_nat i) (2 ^ 64) ltac:(lia)) as Di.
  pose proof (Z.div_mod (c + Z.of_nat j) (2 ^ 64) ltac:(lia)) as Dj.
  rewrite Heq in Di.
  assert ((c + Z.of_nat i) / 2 ^ 64 = (c + Z.of_nat j) / 2 ^ 64) as Hq
    by lia.
  lia.
Qed.

(** C5, as amended. The sequence numbers that the invocations of
    [write] and [writeCommand] on one client obtain are pairwise distinct
    as long as no more than [2^64] invocations are made, also across the
    wrap of the 64-bit counter; they are strictly increasing as long as
    the counter does not wrap around: for a run that starts at counter
    value [c] and makes fewer than [2^64 - c] invocations. *)
Theorem seq_increasing_until_wrap (ops : list op) (σ : World) :
  0 <= csn (cl σ) < 2 ^ 64 ->
  Z.of_nat (length ops) <= 2 ^ 64 ->
  NoDup (run ops σ) /\
  (csn (cl σ) + Z.of_nat (length ops) < 2 ^ 64 ->
   StronglySorted Z.lt (run ops σ)).
Proof.
  intros Hc Hlen. split.
  - destruct (run_successors ops σ Hc) as (k & Hk & ->).
    apply successors_NoDup. lia.
  - intros Hlt. apply (run_increasing ops σ); [lia | exact Hlt].
Qed.

End seq_facts.

(** At the maximum of the counter the next number is 0: the second of two
    invocations obtains a smaller number than the first. *)
Lemma seq_wraps_around :
  exists s1 s2,
    run (H := wire) two_pings world_wrap = [s1; s2] /\ s2 < s1.
Proof.
  exists (2 ^ 64 - 1), 0. split; [vm_compute; reflexivity | reflexivity].
Qed.

Lemma seq_increasing_until_wrap_witness :
  NoDup (run (H := wire) two_pings world_wrap) /\
  StronglySorted Z.lt (run (H := wire) two_pings world0).
Proof.
  split.
  - apply (seq_increasing_until_wrap (H := wire) two_pings world_wrap).
    + cbn. lia.
    + cbn. lia.
  - apply (seq_increasing_until_wrap (H := wire) two_pings world0).
    + cbn. lia.
    + cbn. lia.
    + cbn. lia.
Defined.

(** ** Shutdown *)

Lemma keeps_state_Close_resume :
  keeps (fun σ => state (cl σ)) Close_resume.
Proof.
  intros σ r σ'.
  unfold Close_resume, wg_Wait, close_done, close_writing, conn_Close, bind.
  repeat case_match; simplify_eq; intros E; inversion E; reflexivity.
Qed.

(** C4. [Close] on a client that is not open returns [ErrClosed] and
    changes nothing. On an open client it closes the state, then waits
    while a caller is outstanding and cancels none (the pending map and
    the waiters stay as they are); once none is, it closes the [done]
    channel, the [writing] channel and the connection, in this order, and
    returns what the connection returns. After [Close] has been called
    the client is not open, so that a further [Close] returns
    [ErrClosed]. *)
Theorem Close_exactly_once (σ : World) :
  (state (cl σ) <> clientOpen -> Close σ = (Ret (Some ErrClosed), σ)) /\
  (state (cl σ) = clientOpen -> wg (cl σ) <> 0 ->
   Close σ = (Park, on_cl (set_state clientClosed) σ)) /\
  (wg (cl σ) <> 0 -> Close_resume σ = (Park, σ)) /\
  (wg (cl σ) = 0 ->
   done_closed (cl σ) = false -> writing_closed (cl σ) = false ->
   exists σ',
     Close_resume σ = (Ret (close_result (conn (cl σ))), σ') /\
     events σ' = events σ ++ [EvCloseDone; EvCloseWriting; EvConnClose] /\
     done_closed (cl σ') = true /\ writing_closed (cl σ') = true /\
     conn_closed (conn (cl σ')) = true /\
     pending (cl σ') = pending (cl σ) /\ heap σ' = heap σ) /\
  (state (cl σ) = clientOpen -> wg (cl σ) = 0 ->
   done_closed (cl σ) = false -> writing_closed (cl σ) = false ->
   exists σ',
     Close σ = (Ret (close_result (conn (cl σ))), σ') /\
     state (cl σ') = clientClosed /\
     events σ' = events σ ++ [EvCloseDone; EvCloseWriting; EvConnClose] /\
     conn_closed (conn (cl σ')) = true /\
     pending (cl σ') = pending (cl σ) /\ heap σ' = heap σ) /\
  (forall r σ', Close σ = (r, σ') ->
   state (cl σ') <> clientOpen /\ Close σ' = (Ret (Some ErrClosed), σ')).
Proof.
  assert (forall σ0, state (cl σ0) <> clientOpen ->
                Close σ0 = (Ret (Some ErrClosed), σ0)) as Hclosed.
  { intros σ0 Hst. unfold Close, bind, CompareAndSwapUint32_state.
    destruct (Z.eqb_spec (state (cl σ0)) clientOpen); [contradiction|].
    reflexivity. }
  assert (forall σ0, wg (cl σ0) = 0 ->
            done_closed (cl σ0) = false -> writing_closed (cl σ0) = false ->
            exists σ',
              Close_resume σ0 = (Ret (close_result (conn (cl σ0))), σ') /\
              events σ' = events σ0 ++ [EvCloseDone; EvCloseWriting; EvConnClose] /\
              done_closed (cl σ') = true /\ writing_closed (cl σ') = true /\
              conn_closed (conn (cl σ')) = true /\
              pending (cl σ') = pending (cl σ0) /\ heap σ' = heap σ0 /\
              state (cl σ') = state (cl σ0)) as Hresume.
  { intros σ0 Hwg Hd Hw.
    unfold Close_resume, wg_Wait, close_done, close_writing, conn_Close, bind.
    rewrite Hwg. cbn. rewrite Hd. cbn. rewrite Hw. cbn.
    eexists. split; [reflexivity|]. cbn. rewrite <- !app_assoc.
    repeat split. }
  split; [exact (Hclosed σ)|].
  split.
  { intros Hst Hwg. unfold Close, bind, CompareAndSwapUint32_state.
    rewrite Hst. cbn. unfold Close_resume, bind, wg_Wait. cbn.
    destruct (Z.eqb_spec (wg (cl σ)) 0); [contradiction|]. reflexivity. }
  split.
  { intros Hwg. unfold Close_resume, bind, wg_Wait.
    destruct (Z.eqb_spec (wg (cl σ)) 0); [contradiction|]. reflexivity. }
  split.
  { intros Hwg Hd Hw.
    destruct (Hresume σ Hwg Hd Hw) as (σ' & E & F). exists σ'. tauto. }
  split.
  { intros Hst Hwg Hd Hw.
    destruct (Hresume (on_cl (set_state clientClosed) σ) Hwg Hd Hw)
      as (σ' & E & Hev & _ & _ & Hcc & Hp & Hh & Hs).
    exists σ'. unfold Close, bind, CompareAndSwapUint32_state.
    rewrite Hst. cbn. rewrite E. auto 10. }
  intros r σ' E.
  assert (state (cl σ') <> clientOpen) as Hst'.
  { unfold Close, bind, CompareAndSwapUint32_state in E.
    destruct (Z.eqb_spec (state (cl σ)) clientOpen) as [Hst|Hst]; cbn in E.
    - apply keeps_state_Close_resume in E. rewrite E. cbn. discriminate.
    - inversion E; subst. exact Hst. }
  split; [exact Hst'|]. apply Hclosed, Hst'.
Qed.

Lemma Close_exactly_once_witness :
  (exists σ',
     Close world0 = (Ret None, σ') /\
     state (cl σ') = clientClosed /\
     events σ' = [EvCloseDone; EvCloseWriting; EvConnClose] /\
     conn_closed (conn (cl σ')) = true /\
     pending (cl σ') = pending (cl world0) /\ heap σ' = heap world0) /\
  Close world_closed = (Ret (Some ErrClosed), world_closed) /\
  Close world_timed_out
  = (Park, on_cl (set_state clientClosed) world_timed_out).
Proof.
  split; [|split].
  - apply (Close_exactly_once world0); reflexivity.
  - apply (Close_exactly_once world_closed). discriminate.
  - apply (Close_exactly_once world_timed_out); [reflexivity|].
    vm_compute. discriminate.
Defined.

(** ** The reader *)

Lemma ReadFull_ok (n : nat) (bs rest : list byte) (σ : World) :
  conn_closed (conn (cl σ)) = false ->
  rd (conn (cl σ)) = bs ++ rest ->
  length bs = n ->
  ReadFull n σ
  = (Ret (bs, None), on_cl (set_conn (set_rd rest (conn (cl σ)))) σ).
Proof.
  intros Hc Hrd Hn. unfold ReadFull. rewrite Hc, Hrd.
  destruct (Nat.leb_spec n (length (bs ++ rest))) as [_|Hlt].
  - subst n. rewrite take_app_length, drop_app_length. reflexivity.
  - rewrite length_app in Hlt. lia.
Qed.

Lemma Skip_ok (n : nat) (bs rest : list byte) (σ : World) :
  conn_closed (conn (cl σ)) = false ->
  rd (conn (cl σ)) = bs ++ rest ->
  length bs = n ->
  Skip n σ = (Ret (n, None), on_cl (set_conn (set_rd rest (conn (cl σ)))) σ).
Proof.
  intros Hc Hrd Hn. unfold Skip.
  erewrite bind_Ret by (apply ReadFull_ok; eauto).
  cbn. rewrite Hn. reflexivity.
Qed.

Lemma copy_at_full (src dst : list byte) :
  length dst = length src -> copy_at 0 src dst = src.
Proof.
  intros Hl. unfold copy_at. rewrite Hl. cbn.
  rewrite Nat.sub_0_r, firstn_all, <- Hl, drop_all, app_nil_r. reflexivity.
Qed.

(** [ReadFull] never gives bytes back, and a read without error took the
    [n] bytes it was asked for. *)
Lemma ReadFull_Ret (n : nat) (r : list byte * option error) (σ σ' : World) :
  ReadFull n σ = (Ret r, σ') ->
  (length (rd (conn (cl σ'))) <= length (rd (conn (cl σ))))%nat /\
  (r.2 = None ->
   (length (rd (conn (cl σ'))) + n = length (rd (conn (cl σ))))%nat).
Proof.
  unfold ReadFull. destruct (conn_closed (conn (cl σ))).
  { intros E. inversion E; subst. split; [lia | discriminate]. }
  destruct (Nat.leb_spec n (length (rd (conn (cl σ))))) as [Hle|Hlt].
  { intros E. inversion E; subst. cbn. rewrite length_drop. lia. }
  destruct (rd_err (conn (cl σ))); intros E; inversion E; subst; cbn.
  split; [lia | discriminate].
Qed.

Lemma nonincr_keeps {A : Type} (m : M A) :
  keeps (fun σ => rd (conn (cl σ))) m -> nonincr m.
Proof.
  intros Hk σ r σ' E. rewrite (Hk σ r σ' E). lia.
Qed.

Lemma nonincr_bind {A B : Type} (m : M A) (k : A -> M B) :
  nonincr m -> (forall a, nonincr (k a)) -> nonincr (bind m k).
Proof.
  intros Hm Hk σ r σ' E.
  apply bind_inv in E as [(a & σ1 & E1 & E) | (r0 & E1 & _)].
  - apply Hm in E1. apply Hk in E. lia.
  - apply Hm in E1. exact E1.
Qed.

Lemma nonincr_ReadFull (n : nat) : nonincr (ReadFull n).
Proof.
  intros σ [r| |msg] σ' E.
  - apply ReadFull_Ret in E. tauto.
  - unfold ReadFull in E. repeat case_match; inversion E; subst; lia.
  - unfold ReadFull in E. repeat case_match; inversion E.
Qed.

Lemma keeps_pending_flush {B : Type} (f : World -> B) (e : error) :
  (forall g σ, f (on_cl (set_pending g) σ) = f σ) ->
  (forall h σ, f (on_heap h σ) = f σ) ->
  (forall ev σ, f (emit ev σ) = f σ) ->
  keeps f (pending_flush e).
Proof.
  intros Hp Hh He. unfold pending_flush, sema_Wake.
  apply keeps_bind; [apply keeps_gets|]. intros ws.
  apply keeps_bind; [apply keeps_modify; intros; apply Hp|]. intros _.
  apply keeps_for_each. intros w.
  repeat first
    [ apply keeps_update; exact Hh
    | apply keeps_modify; intros; apply He
    | apply keeps_bind; [|intros] ].
Qed.

(** A flush leaves the pending map empty. *)
Lemma pending_flush_empties (e : error) (u : unit) (σ σ' : World) :
  pending_flush e σ = (Ret u, σ') -> pending (cl σ') = ∅.
Proof.
  unfold pending_flush. intros E.
  apply bind_Ret_inv in E as (ws & σ1 & E1 & E).
  apply gets_Ret in E1 as [_ ->].
  apply bind_Ret_inv in E as (u1 & σ1 & E1 & E).
  apply modify_Ret in E1 as ->.
  assert (keeps (fun σ => pending (cl σ))
            (for_each (fun w => update w (set_err (Some e)) ;; sema_Wake w)
               ws)) as Hk.
  { apply keeps_for_each. intros w. unfold sema_Wake. keeps_tac. }
  apply Hk in E. exact E.
Qed.

(** On an empty pending map the loop of [closeError] makes no pass, with
    any fuel: it never runs out. *)
Lemma flush_loop_empty (fuel : nat) (e : error) (σ : World) :
  pending (cl σ) = ∅ -> flush_loop fuel e σ = (Ret tt, σ).
Proof.
  intros Hp. destruct fuel; cbn; unfold bind, pending_length, gets;
    rewrite Hp, map_size_empty; reflexivity.
Qed.

(** In [closeError] the loop follows a flush: it makes no pass. *)
Lemma flush_loop_after_flush (fuel : nat) (e : error) (u : unit)
    (σ σ' : World) :
  pending_flush e σ = (Ret u, σ') -> flush_loop fuel e σ' = (Ret tt, σ').
Proof.
  intros E. apply flush_loop_empty. eapply pending_flush_empties, E.
Qed.

Lemma keeps_flush_loop {B : Type} (f : World -> B) (fuel : nat) (e : error) :
  (forall g σ, f (on_cl (set_pending g) σ) = f σ) ->
  (forall h σ, f (on_heap h σ) = f σ) ->
  (forall ev σ, f (emit ev σ) = f σ) ->
  keeps f (flush_loop fuel e).
Proof.
  intros Hp Hh He.
  induction fuel as [|fuel IH]; cbn [flush_loop];
    (apply keeps_bind; [apply keeps_gets|]); intros n;
    destruct (0 <? n)%nat; try apply keeps_ret.
  - apply keeps_panic.
  - apply keeps_bind; [apply keeps_pending_flush; assumption|].
    intros _. exact IH.
Qed.

Lemma keeps_rd_closeError (e : error) :
  keeps (fun σ => rd (conn (cl σ))) (closeError e).
Proof.
  unfold closeError, closeError_resume.
  apply keeps_bind;
    [apply keeps_CompareAndSwapUint32_state; intros; reflexivity|].
  intros swapped. destruct (negb swapped); [apply keeps_ret|].
  apply keeps_bind;
    [apply keeps_pending_flush; intros; reflexivity|]. intros _.
  apply keeps_bind;
    [apply keeps_flush_loop; intros; reflexivity|]. intros _.
  unfold wg_Wait, close_done, close_writing, conn_Close, bind, ret.
  keeps_raw.
Qed.

Section reader_facts.
Context `{Decls}.

Lemma nonincr_do_ (e : option error) : nonincr (do_ e).
Proof.
  apply nonincr_keeps. unfold do_. destruct e as [e|]; [|apply keeps_ret].
  apply keeps_bind; [apply keeps_rd_closeError | intros; apply keeps_ret].
Qed.

(** A pass that lets the loop go on has read at least the lead. *)
Lemma readLoop_iter_consumes (σ σ' : World) :
  readLoop_iter σ = (Ret true, σ') ->
  (length (rd (conn (cl σ'))) + leadSize
   <= length (rd (conn (cl σ))))%nat.
Proof.
  unfold readLoop_iter. intros E.
  apply bind_Ret_inv in E as (r & σ1 & E1 & E).
  apply ReadFull_Ret in E1 as [_ Hlead].
  destruct r as [lead [e|]]; cbn [fst snd do_] in E.
  { apply bind_Ret_inv in E as (ok & σ2 & E1 & E).
    apply bind_Ret_inv in E1 as (u & σ3 & _ & E1).
    apply ret_Ret in E1 as [-> ->]. inversion E. }
  specialize (Hlead eq_refl).
  apply bind_Ret_inv in E as (ok & σ2 & E1 & E).
  apply ret_Ret in E1 as [-> ->]. cbn [negb] in E.
  assert (forall (prog : M bool), nonincr prog ->
            prog σ1 = (Ret true, σ') ->
            (length (rd (conn (cl σ'))) + leadSize
             <= length (rd (conn (cl σ))))%nat) as Hrest.
  { intros prog Hprog Eprog. apply Hprog in Eprog. lia. }
  eapply Hrest; [|exact E].
  assert (forall n, nonincr (Skip n)) as HSkip.
  { intros n. unfold Skip. apply nonincr_bind; [apply nonincr_ReadFull|].
    intros a. apply nonincr_keeps, keeps_ret. }
  destruct (readFrame lead) as [[s k] sz].
  destruct (negb (bool_decide (k = fCMD)) && negb (bool_decide (k = fRES))).
  - apply nonincr_bind; [apply nonincr_keeps, keeps_gets|]. intros addr.
    apply nonincr_bind.
    { apply nonincr_keeps, keeps_modify. intros σ0. unfold println.
      destruct (ErrorLogger σ0); reflexivity. }
    intros _. apply nonincr_bind; [apply HSkip|]. intros r.
    apply nonincr_do_.
  - apply nonincr_bind.
    { apply nonincr_keeps, keeps_pending_remove. reflexivity. }
    intros [w|].
    + unfold in_get, in_set, sema_Wake.
      repeat first
        [ apply nonincr_ReadFull
        | apply nonincr_do_
        | apply nonincr_bind; [|intros]
        | match goal with
          | |- nonincr (if ?c then _ else _) => destruct c
          end
        | apply nonincr_keeps; keeps_tac ].
    + apply nonincr_bind; [apply HSkip|]. intros r. apply nonincr_do_.
Qed.

(** With a lead of at least one byte, [readLoop] ends within as many
    passes as bytes have arrived, plus one: it returns (on a transport
    error), parks (waiting for bytes or for the callers) or panics, and
    does not run out of fuel. *)
Lemma readLoop_ends (fuel : nat) (σ : World) :
  (0 < leadSize)%nat ->
  (length (rd (conn (cl σ))) < fuel)%nat ->
  is_Some (readLoop fuel σ).
Proof.
  intros Hlead. revert σ.
  induction fuel as [|fuel IH]; intros σ Hfuel; [lia|]. cbn.
  destruct (readLoop_iter σ) as [[[|]| |msg] σ'] eqn:E; eauto.
  apply IH. apply readLoop_iter_consumes in E. lia.
Qed.

Lemma routed_kind (k : fType) :
  k = fCMD \/ k = fRES ->
  negb (bool_decide (k = fCMD)) && negb (bool_decide (k = fRES)) = false.
Proof.
  intros [->| ->].
  - rewrite bool_decide_eq_true_2 by reflexivity. reflexivity.
  - rewrite (bool_decide_eq_true_2 (fRES = fRES)) by reflexivity.
    apply andb_false_r.
Qed.

(** C6. One pass of the reader over a frame whose lead and body have
    arrived. A frame of kind [fRES] or [fCMD] goes, whichever of the two
    it is, to the waiter registered under its sequence number: the
    waiter leaves the pending map, its buffer holds the body, its error is
    cleared and it is woken. A frame of any other kind is reported to
    [errorf] and its body skipped; a frame for which no waiter is
    registered has its body skipped. In both skip cases the pending map
    and the waiters are untouched and nothing is woken. *)
Theorem readLoop_routes_RES_and_CMD (σ : World) (lead body rest : list byte)
    (s : Z) (k : fType) (sz : Z) :
  conn_closed (conn (cl σ)) = false ->
  rd (conn (cl σ)) = lead ++ body ++ rest ->
  length lead = leadSize ->
  readFrame lead = (s, k, sz) ->
  length body = Z.to_nat sz ->
  (k <> fCMD -> k <> fRES ->
   exists σ',
     readLoop_iter σ = (Ret true, σ') /\
     rd (conn (cl σ')) = rest /\
     ErrorLogger σ'
     = ((fun lines =>
           lines ++ [("server at addr " ++ RemoteAddr (conn (cl σ))
                      ++ " sent a bad frame")%string])
          <$> ErrorLogger σ) /\
     pending (cl σ') = pending (cl σ) /\ heap σ' = heap σ /\
     events σ' = events σ) /\
  (k = fCMD \/ k = fRES -> pending (cl σ) !! s = None ->
   exists σ',
     readLoop_iter σ = (Ret true, σ') /\
     rd (conn (cl σ')) = rest /\
     ErrorLogger σ' = ErrorLogger σ /\
     pending (cl σ') = pending (cl σ) /\ heap σ' = heap σ /\
     events σ' = events σ) /\
  (k = fCMD \/ k = fRES ->
   forall w x, pending (cl σ) !! s = Some w -> heap σ !! w = Some x ->
   exists σ',
     readLoop_iter σ = (Ret true, σ') /\
     rd (conn (cl σ')) = rest /\
     ErrorLogger σ' = ErrorLogger σ /\
     pending (cl σ') = delete s (pending (cl σ)) /\
     heap σ'
     = <[w := mkWaiter (seq x) true None body (reap x) (static x)]> (heap σ) /\
     events σ' = events σ ++ [EvWake w]).
Proof.
  intros Hc Hrd Hlead Hframe Hbody.
  unfold readLoop_iter.
  erewrite bind_Ret by (apply (ReadFull_ok _ lead (body ++ rest)); eauto).
  cbn [fst snd do_]. erewrite bind_Ret by reflexivity.
  cbn [negb]. rewrite Hframe.
  split; [|split].
  - intros Hcmd Hres.
    rewrite !bool_decide_eq_false_2 by assumption. cbn [negb andb].
    unfold errorf.
    erewrite bind_Ret by reflexivity.
    erewrite bind_Ret by reflexivity.
    unfold println. wsimpl.
    destruct (ErrorLogger σ) as [lines|] eqn:Hlog; wsimpl;
      (erewrite bind_Ret
         by (apply (Skip_ok _ body rest); wsimpl;
             [exact Hc | reflexivity | exact Hbody]));
      cbn [snd do_]; (eexists; split; [reflexivity|]); wsimpl;
      rewrite ?Hlog; auto 10.
  - intros Hk Hnone.
    rewrite (routed_kind k Hk).
    unfold pending_remove at 1. unfold bind at 1. wsimpl. rewrite Hnone.
    erewrite bind_Ret
      by (apply (Skip_ok _ body rest); [exact Hc | reflexivity | exact Hbody]).
    cbn [snd do_]. eexists. split; [reflexivity|]. wsimpl. auto 10.
  - intros Hk w x Hsome Hx.
    rewrite (routed_kind k Hk).
    unfold pending_remove at 1. unfold bind at 1. wsimpl. rewrite Hsome.
    unfold in_set.
    erewrite bind_Ret by (apply in_get_ok; wsimpl; eauto).
    erewrite bind_Ret by (apply update_ok; wsimpl; eauto).
    erewrite bind_Ret
      by (apply (ReadFull_ok _ body rest); wsimpl;
          [exact Hc | reflexivity | exact Hbody]).
    wsimpl.
    erewrite bind_Ret
      by (apply in_get_ok; wsimpl; rewrite lookup_insert_eq; eauto).
    erewrite bind_Ret
      by (apply update_ok; wsimpl; rewrite lookup_insert_eq; eauto).
    wsimpl. cbn [do_].
    erewrite bind_Ret by reflexivity. cbn [negb].
    erewrite bind_Ret
      by (apply update_ok; wsimpl; rewrite lookup_insert_eq; eauto).
    unfold sema_Wake. rewrite bind_assoc.
    erewrite bind_Ret
      by (apply update_ok; wsimpl; rewrite lookup_insert_eq; eauto).
    erewrite bind_Ret by reflexivity.
    eexists. split; [reflexivity|]. wsimpl.
    rewrite !insert_insert_eq.
    rewrite copy_at_full by (rewrite length_resize; auto).
    auto 10.
Qed.

End reader_facts.

Lemma readLoop_routes_RES_and_CMD_witness :
  (exists σ',
     readLoop_iter (H := wire) (world_rx (frame 1 1 ok_body))
     = (Ret true, σ') /\
     pending (cl σ') = ∅ /\
     (in_ <$> heap σ' !! 0%nat) = Some ok_body /\
     events σ' = [EvWake 0%nat]) /\
  (exists σ',
     readLoop_iter (H := wire) (world_rx (frame 1 2 ok_body))
     = (Ret true, σ') /\
     pending (cl σ') = ∅ /\
     (in_ <$> heap σ' !! 0%nat) = Some ok_body /\
     events σ' = [EvWake 0%nat]) /\
  (exists σ',
     readLoop_iter (H := wire) (world_rx (frame 1 0 ok_body))
     = (Ret true, σ') /\
     ErrorLogger σ'
     = Some ["server at addr 10.0.0.1:7000 sent a bad frame"%string] /\
     pending (cl σ') = pending (cl (world_rx [])) /\
     heap σ' = heap (world_rx []) /\ events σ' = []) /\
  (exists σ',
     readLoop_iter (H := wire) (world_rx (frame 7 1 ok_body))
     = (Ret true, σ') /\
     pending (cl σ') = pending (cl (world_rx [])) /\
     heap σ' = heap (world_rx []) /\ events σ' = []).
Proof.
  split; [|split; [|split]].
  - destruct (readLoop_routes_RES_and_CMD (H := wire)
                (world_rx (frame 1 1 ok_body))
                (take 12 (frame 1 1 ok_body)) ok_body [] 1 1 2)
      as (_ & _ & Hrouted); try reflexivity.
    edestruct (Hrouted (or_intror eq_refl))
      as (σ' & E & _ & _ & Hp & Hh & Hev); [reflexivity | reflexivity |].
    exists σ'. split; [exact E|]. rewrite Hp, Hh, Hev.
    split; [vm_compute; reflexivity|]. split; reflexivity.
  - destruct (readLoop_routes_RES_and_CMD (H := wire)
                (world_rx (frame 1 2 ok_body))
                (take 12 (frame 1 2 ok_body)) ok_body [] 1 2 2)
      as (_ & _ & Hrouted); try reflexivity.
    edestruct (Hrouted (or_introl eq_refl))
      as (σ' & E & _ & _ & Hp & Hh & Hev); [reflexivity | reflexivity |].
    exists σ'. split; [exact E|]. rewrite Hp, Hh, Hev.
    split; [vm_compute; reflexivity|]. split; reflexivity.
  - destruct (readLoop_routes_RES_and_CMD (H := wire)
                (world_rx (frame 1 0 ok_body))
                (take 12 (frame 1 0 ok_body)) ok_body [] 1 0 2)
      as (Hbad & _ & _); try reflexivity.
    destruct Hbad as (σ' & E & _ & Hlog & Hp & Hh & Hev);
      try (simpl; discriminate).
    exists σ'. split; [exact E|]. rewrite Hlog, Hp, Hh, Hev.
    repeat split.
  - destruct (readLoop_routes_RES_and_CMD (H := wire)
                (world_rx (frame 7 1 ok_body))
                (take 12 (frame 7 1 ok_body)) ok_body [] 7 1 2)
      as (_ & Hnone & _); try reflexivity.
    destruct Hnone as (σ' & E & _ & _ & Hp & Hh & Hev);
      [right; reflexivity | vm_compute; reflexivity |].
    exists σ'. split; [exact E|]. rewrite Hp, Hh, Hev.
    repeat split.
Defined.

(** ** The cluster client *)

Section pool_facts.

Variable net_Dial : string -> string -> Conn + error.
Variable ping : Conn -> option error.

Local Abbreviation attempt := (pool.attempt net_Dial ping).
Local Abbreviation dial_step := (pool.dial_step net_Dial ping).
Local Abbreviation cluster_tick := pool.cluster_tick.

Lemma NewClient_tick (cn : Conn) (t : Z) (cl : pool.Client) :
  pool.NewClient ping cn t = inl cl -> pool.tick cl = t.
Proof.
  unfold pool.NewClient. destruct (ping cn); [discriminate|].
  intros E. injection E as <-. reflexivity.
Qed.

Lemma cluster_tick_1000 (cn : Conn) (cl : pool.Client) :
  pool.NewClient ping cn 1000 = inl cl -> cluster_tick cl.
Proof.
  intros E. apply NewClient_tick in E. unfold pool.cluster_tick. rewrite E.
  split; [reflexivity | discriminate].
Qed.

(** What one goroutine of [dialAll] does. *)
Lemma dialAll_go_spec (i : nat) (addr : string) (c : pool.ClusterClient)
    (errs : list (option error)) :
  let s' := pool.dialAll_go net_Dial ping i addr (c, errs) in
  pool.nwk s'.1 = pool.nwk c /\
  s'.2 = match attempt (pool.nwk c) addr with
         | Some e => <[i := Some e]> errs
         | None => errs
         end /\
  (exists new, pool.clients s'.1 = pool.clients c ++ new /\
     Forall cluster_tick new /\
     (attempt (pool.nwk c) addr = None -> new <> [])).
Proof.
  unfold pool.dialAll_go, pool.attempt. cbn zeta.
  destruct (net_Dial (pool.nwk c) addr) as [cn|e]; cbn.
  - destruct (pool.NewClient ping cn 1000) as [cl|e] eqn:E; cbn.
    + repeat split. exists [cl]. repeat split; [|discriminate].
      constructor; [|constructor]. eapply cluster_tick_1000, E.
    + repeat split. exists []. rewrite app_nil_r.
      repeat split; [constructor | discriminate].
  - repeat split. exists []. rewrite app_nil_r.
    repeat split; [constructor | discriminate].
Qed.

(** What the goroutines of [dialAll] have done once all of [sched] have
    taken effect. *)
Lemma dial_steps_spec (addrs : list string) (sched : list nat) :
  NoDup sched ->
  forall (c : pool.ClusterClient) (errs : list (option error)),
  let s' := foldl (dial_step addrs) (c, errs) sched in
  pool.nwk s'.1 = pool.nwk c /\
  length s'.2 = length errs /\
  (forall j, j ∉ sched -> s'.2 !! j = errs !! j) /\
  (forall j a, j ∈ sched -> addrs !! j = Some a -> errs !! j = Some None ->
     s'.2 !! j = Some (attempt (pool.nwk c) a)) /\
  (exists new, pool.clients s'.1 = pool.clients c ++ new /\
     Forall cluster_tick new /\
     ((exists j a, j ∈ sched /\ addrs !! j = Some a /\
                   attempt (pool.nwk c) a = None) -> new <> [])).
Proof.
  induction 1 as [|i sched Hi Hnd IH]; intros c errs; cbn.
  { repeat split; try done.
    - intros j a Hj. inversion Hj.
    - exists []. rewrite app_nil_r. repeat split; [constructor|].
      intros (j & a & Hj & _). inversion Hj. }
  destruct (dial_step addrs (c, errs) i) as [c1 errs1] eqn:Estep.
  assert (pool.nwk c1 = pool.nwk c /\
          (forall a, addrs !! i = Some a ->
             errs1 = match attempt (pool.nwk c) a with
                     | Some e => <[i := Some e]> errs
                     | None => errs
                     end) /\
          (addrs !! i = None -> errs1 = errs) /\
          (exists new, pool.clients c1 = pool.clients c ++ new /\
             Forall cluster_tick new /\
             (forall a, addrs !! i = Some a ->
                attempt (pool.nwk c) a = None -> new <> [])))
    as (Hn1 & He1 & He1' & new1 & Hc1 & Ht1 & Hne1).
  { unfold pool.dial_step in Estep. destruct (addrs !! i) as [a|] eqn:Ha.
    - pose proof (dialAll_go_spec i a c errs) as Hgo. rewrite Estep in Hgo.
      cbn in Hgo. destruct Hgo as (Hn & He & new & Hc & Ht & Hne).
      repeat split; auto.
      + intros a' Ha'. injection Ha' as <-. exact He.
      + discriminate.
      + exists new. repeat split; auto.
        intros a' Ha'. injection Ha' as <-. exact Hne.
    - injection Estep as <- <-. repeat split; auto.
      + discriminate.
      + exists []. rewrite app_nil_r. repeat split; [constructor|].
        discriminate. }
  assert (length errs1 = length errs) as Hlen1.
  { destruct (addrs !! i) as [a|] eqn:Ha.
    - rewrite (He1 a eq_refl). destruct (attempt (pool.nwk c) a);
        [apply length_insert | reflexivity].
    - rewrite He1'; auto. }
  assert (forall j, j <> i -> errs1 !! j = errs !! j) as Hother.
  { intros j Hj. destruct (addrs !! i) as [a|] eqn:Ha.
    - rewrite (He1 a eq_refl). destruct (attempt (pool.nwk c) a);
        [apply list_lookup_insert_ne; auto | reflexivity].
    - rewrite He1'; auto. }
  specialize (IH c1 errs1). cbn in IH.
  destruct IH as (Hn & Hl & Hout & Hin & new & Hc & Ht & Hne).
  rewrite Hn, Hl, Hn1, Hlen1. repeat split.
  - intros j Hj. apply not_elem_of_cons in Hj as [Hji Hj].
    rewrite Hout by exact Hj. apply Hother, Hji.
  - intros j a Hj Ha Hnil. apply elem_of_cons in Hj as [->|Hj].
    + rewrite Hout by exact Hi. rewrite (He1 a Ha).
      destruct (attempt (pool.nwk c) a) as [e|]; [|exact Hnil].
      apply list_lookup_insert_eq. eapply lookup_lt_Some, Hnil.
    + rewrite <- Hn1. apply Hin; auto. rewrite Hother; [exact Hnil|].
      intros ->. contradiction.
  - exists (new1 ++ new). rewrite Hc, Hc1, app_assoc.
    repeat split; [apply Forall_app; auto|].
    intros (j & a & Hj & Ha & Hatt). apply elem_of_cons in Hj as [->|Hj].
    + intros Heq. apply app_eq_nil in Heq as [Heq _].
      exact (Hne1 a Ha Hatt Heq).
    + intros Heq. apply app_eq_nil in Heq as [_ Heq].
      apply Hne; [|exact Heq]. exists j, a. rewrite Hn1. auto.
Qed.

(** The loop over [errs]: [any] becomes true exactly when some entry is
    nil. *)
Lemma scan_any (errs : list (option error)) (i : Z) (any : bool) (first : Z) :
  (pool.scan errs i any first).1
  = any || existsb (fun e => bool_decide (e = None)) errs.
Proof.
  revert i any first. induction errs as [|e errs IH]; intros i any first; cbn.
  { rewrite orb_false_r. reflexivity. }
  destruct (bool_decide (e = None)), any; cbn;
    try destruct (first =? -1); cbn; rewrite IH; cbn;
    rewrite ?orb_true_r; reflexivity.
Qed.

(** The loop over [errs] when no entry is nil: [first] is the index of
    the first entry. *)
Lemma scan_all_failed (errs : list (option error)) (i : Z) (first : Z) :
  Forall (fun e => e <> None) errs ->
  0 <= i ->
  pool.scan errs i false first
  = (false, if first =? -1 then match errs with [] => -1 | _ => i end
            else first).
Proof.
  intros Hall. revert i first.
  induction Hall as [|e errs He Hall IH]; intros i first Hi; cbn.
  { destruct (first =? -1) eqn:E; [|reflexivity].
    apply Z.eqb_eq in E. rewrite E. reflexivity. }
  rewrite bool_decide_eq_false_2 by exact He. cbn.
  destruct (first =? -1) eqn:E; cbn; rewrite IH by lia.
  - destruct (Z.eqb_spec i (-1)); [lia|reflexivity].
  - rewrite E. reflexivity.
Qed.

Lemma dialAll_unfold (sched : list nat) (c : pool.ClusterClient) :
  pool.clients c = [] ->
  pool.remotes c <> [] ->
  pool.dialAll net_Dial ping sched c
  = let '(c', errs) :=
      foldl (dial_step (pool.remotes c))
        (c, replicate (length (pool.remotes c)) None) sched in
    let '(any, first) := pool.scan errs 0 false (-1) in
    if negb any then
      if first <? 0 then Panic "index out of range"
      else match errs !! Z.to_nat first with
           | Some e => Ret (c', e)
           | None => Panic "index out of range"
           end
    else Ret (c', None).
Proof.
  intros Hnil Hrem. unfold pool.dialAll. rewrite Hnil.
  destruct (pool.remotes c); [contradiction|]. reflexivity.
Qed.

(** [dialAll] on a cluster without clients, once every goroutine has
    taken effect: it fails exactly when every address fails, then with the
    error of the first address; the clients it adds run with the
    cluster's timeout. *)
Lemma dialAll_spec (sched : list nat) (c : pool.ClusterClient) :
  sched ≡ₚ List.seq 0 (length (pool.remotes c)) ->
  pool.clients c = [] ->
  pool.remotes c <> [] ->
  exists c',
    pool.dialAll net_Dial ping sched c
    = Ret (c', if forallb (fun a => bool_decide (attempt (pool.nwk c) a <> None))
                    (pool.remotes c)
               then attempt (pool.nwk c) (hd EmptyString (pool.remotes c))
               else None) /\
    Forall cluster_tick (pool.clients c') /\
    (forallb (fun a => bool_decide (attempt (pool.nwk c) a <> None))
       (pool.remotes c) = false -> pool.clients c' <> []).
Proof.
  intros Hperm Hnil Hrem. rewrite dialAll_unfold by assumption.
  destruct (pool.remotes c) as [|a0 rest] eqn:Haddrs; [contradiction|].
  set (addrs := a0 :: rest) in *.
  set (errs0 := replicate (length addrs) (@None error)).
  assert (NoDup sched) as Hnd.
  { rewrite Hperm. apply NoDup_ListNoDup, List.seq_NoDup. }
  destruct (dial_steps_spec addrs sched Hnd c errs0)
    as (Hn & Hl & _ & Hin & new & Hc & Ht & Hne).
  destruct (foldl (dial_step addrs) (c, errs0) sched) as [c' errs] eqn:Efold.
  cbn [fst snd] in Hn, Hl, Hin, Hc, Hne.
  assert (errs = attempt (pool.nwk c) <$> addrs) as ->.
  { apply list_eq. intros j. rewrite list_lookup_fmap.
    destruct (addrs !! j) as [a|] eqn:Ha; cbn.
    - apply Hin; auto.
      + rewrite Hperm. apply list_elem_of_In, in_seq.
        apply lookup_lt_Some in Ha. fold addrs. lia.
      + unfold errs0. apply lookup_replicate_2.
        eapply lookup_lt_Some, Ha.
    - apply lookup_ge_None. apply lookup_ge_None in Ha.
      unfold errs0 in Hl. rewrite length_replicate in Hl. lia. }
  destruct (pool.scan (attempt (pool.nwk c) <$> addrs) 0 false (-1))
    as [any first] eqn:Escan.
  pose proof (scan_any (attempt (pool.nwk c) <$> addrs) 0 false (-1)) as Hany.
  rewrite Escan in Hany. cbn [fst orb] in Hany.
  destruct (forallb (fun a => bool_decide (attempt (pool.nwk c) a <> None))
              addrs) eqn:Hall.
  - assert (Forall (fun e => e <> None) (attempt (pool.nwk c) <$> addrs))
      as Hall'.
    { apply Forall_fmap, Forall_forall. intros a Ha.
      rewrite forallb_forall in Hall.
      apply list_elem_of_In, Hall, bool_decide_eq_true in Ha. exact Ha. }
    rewrite scan_all_failed in Escan by (auto; lia).
    injection Escan as <- <-. cbn.
    exists c'. split; [reflexivity|]. split.
    + rewrite Hc, Hnil. exact Ht.
    + discriminate.
  - assert (any = true) as ->.
    { rewrite Hany. apply not_false_iff_true. intros Hex.
      apply not_true_iff_false in Hall. apply Hall.
      apply forallb_forall. intros a Ha. apply bool_decide_eq_true.
      intros Hatt.
      assert (existsb (fun e => bool_decide (e = None))
                (attempt (pool.nwk c) <$> addrs) = true) as Hex'.
      { apply existsb_exists. exists None. split; [|reflexivity].
        apply list_elem_of_In, list_elem_of_fmap. exists a.
        split; [auto | apply list_elem_of_In, Ha]. }
      rewrite Hex' in Hex. discriminate. }
    cbn. exists c'. split; [reflexivity|]. split.
    + rewrite Hc, Hnil. exact Ht.
    + intros _. rewrite Hc, Hnil. cbn. apply Hne.
      apply not_true_iff_false in Hall.
      destruct (decide (Forall (fun a => attempt (pool.nwk c) a <> None) addrs))
        as [HF|HF].
      { exfalso. apply Hall, forallb_forall. intros a Ha.
        apply bool_decide_eq_true. rewrite Forall_forall in HF.
        apply HF, list_elem_of_In, Ha. }
      apply not_Forall_Exists in HF; [|intros a; apply _].
      apply Exists_exists in HF as (a & Ha & Hatt).
      apply list_elem_of_lookup in Ha as [j Hj].
      exists j, a. repeat split; auto.
      * rewrite Hperm. apply list_elem_of_In, in_seq.
        apply lookup_lt_Some in Hj. fold addrs. lia.
      * destruct (attempt (pool.nwk c) a) eqn:E; [|reflexivity].
        exfalso. apply Hatt. rewrite E. discriminate.
Qed.


(** The goroutines of [dialAll] add only clients that run with the
    cluster's timeout, whatever the schedule. *)
Lemma dial_steps_ticks (addrs : list string) (sched : list nat) :
  forall s : pool.ClusterClient * list (option error),
  Forall cluster_tick (pool.clients s.1) ->
  Forall cluster_tick (pool.clients (foldl (dial_step addrs) s sched).1).
Proof.
  induction sched as [|i sched IH]; intros s Hs; cbn; [exact Hs|].
  apply IH. unfold pool.dial_step. destruct (addrs !! i) as [a|]; [|exact Hs].
  destruct s as [c errs].
  destruct (dialAll_go_spec i a c errs) as (_ & _ & new & -> & Ht & _).
  apply Forall_app. auto.
Qed.

(** C9. Every client that the cluster creates, in [dialAll] (and so in
    [DialCluster]) and in [dial] (and so in [Add]), is built by
    [NewClient] with the literal 1000 as its timeout: whatever the caller
    passes, its timeout loop ticks every 1000 nanoseconds, which is not
    1000 milliseconds. *)
Theorem cluster_clients_tick_1000ns :
  (forall sched c c' e,
     Forall cluster_tick (pool.clients c) ->
     pool.dialAll net_Dial ping sched c = Ret (c', e) ->
     Forall cluster_tick (pool.clients c')) /\
  (forall inet addr exists_ c c' e,
     Forall cluster_tick (pool.clients c) ->
     pool.dial net_Dial ping inet addr exists_ c = (c', e) ->
     Forall cluster_tick (pool.clients c')) /\
  (forall sched network addrs c e,
     pool.DialCluster net_Dial ping sched network addrs = Ret (Some c, e) ->
     Forall cluster_tick (pool.clients c)) /\
  (forall addr c c' e,
     Forall cluster_tick (pool.clients c) ->
     pool.Add net_Dial ping addr c = (c', e) ->
     Forall cluster_tick (pool.clients c')).
Proof.
  assert (forall sched c c' e,
            Forall cluster_tick (pool.clients c) ->
            pool.dialAll net_Dial ping sched c = Ret (c', e) ->
            Forall cluster_tick (pool.clients c')) as HdialAll.
  { intros sched c c' e Hc. unfold pool.dialAll.
    destruct (0 <? length (pool.clients c))%nat.
    { intros E. injection E as <- _. exact Hc. }
    destruct (length (pool.remotes c) =? 0)%nat.
    { intros E. injection E as <- _. exact Hc. }
    pose proof (dial_steps_ticks (pool.remotes c) sched
                  (c, replicate (length (pool.remotes c)) None) Hc) as Hfold.
    unfold pool.dial_step in Hfold.
    destruct (foldl _ _ sched) as [c1 errs].
    destruct (pool.scan errs 0 false (-1)) as [any first].
    destruct (negb any).
    - destruct (first <? 0); [discriminate|].
      destruct (errs !! Z.to_nat first); [|discriminate].
      intros E. injection E as <- _. exact Hfold.
    - intros E. injection E as <- _. exact Hfold. }
  assert (forall inet addr exists_ c c' e,
            Forall cluster_tick (pool.clients c) ->
            pool.dial net_Dial ping inet addr exists_ c = (c', e) ->
            Forall cluster_tick (pool.clients c')) as Hdial.
  { intros inet addr exists_ c c' e Hc. unfold pool.dial.
    destruct (net_Dial inet addr) as [cn|e1].
    2:{ intros E. injection E as <- _. exact Hc. }
    set (c1 := if negb exists_ then _ else c).
    assert (pool.clients c1 = pool.clients c) as Hc1.
    { unfold c1. destruct (negb exists_); [|reflexivity].
      destruct (negb _); reflexivity. }
    destruct (pool.NewClient ping cn 1000) as [cl|e1] eqn:Enew.
    - intros E. injection E as <- _. unfold pool.add. cbn.
      rewrite Hc1. apply Forall_app. split; [exact Hc|].
      constructor; [|constructor]. eapply cluster_tick_1000, Enew.
    - intros E. injection E as <- _. rewrite Hc1. exact Hc. }
  split; [exact HdialAll|]. split; [exact Hdial|]. split.
  - intros sched network addrs c e. unfold pool.DialCluster.
    destruct (length addrs <? 1)%nat; [discriminate|].
    destruct (pool.dialAll net_Dial ping sched _) as [[c1 [e1|]]| |] eqn:E;
      try discriminate.
    intros E'. injection E' as <- _.
    eapply HdialAll; [|exact E]. constructor.
  - intros addr c c' e Hc. unfold pool.Add.
    destruct (negb (pool.cstate c =? 2)).
    + intros E. injection E as <- _. exact Hc.
    + apply Hdial, Hc.
Qed.

End pool_facts.

(** *** Status *)

Lemma dialed_true (rem : string) (connected : list string) :
  pool.dialed rem connected = true <-> rem ∈ connected.
Proof.
  induction connected as [|cn connected IH]; cbn.
  - split; [discriminate | intros Hin; inversion Hin].
  - destruct (String.eqb_spec rem cn) as [->|Hne].
    + split; [intros _; left | reflexivity].
    + rewrite IH, elem_of_cons. split; [auto | intros [?|?]; [contradiction|auto]].
Qed.

(** The outer loop of [Status] keeps the remotes that are not among the
    connected, in their order. *)
Lemma disconnected_filter (rems connected : list string) :
  pool.disconnected rems connected = filter (fun r => r ∉ connected) rems.
Proof.
  induction rems as [|rem rems IH]; [reflexivity|].
  cbn [pool.disconnected]. rewrite filter_cons.
  destruct (pool.dialed rem connected) eqn:Hd; cbn [negb].
  - apply dialed_true in Hd. rewrite decide_False by auto. exact IH.
  - rewrite decide_True; [rewrite IH; reflexivity|].
    intros Hin. apply dialed_true in Hin. rewrite Hin in Hd. discriminate.
Qed.

(** C8, as amended. [Connected] is the list of the remote addresses of
    the live clients and [Disconnected] the stored remotes that match no
    connected address. Their lengths add up to the number of remotes when
    the stored remotes are pairwise distinct, the connected addresses are
    pairwise distinct and each of them is a stored remote. *)
Theorem Status_partitions_remotes (c : pool.ClusterClient) :
  pool.Connected (pool.Status c)
  = map (fun cl => RemoteAddr (pool.conn cl)) (pool.clients c) /\
  (forall r, r ∈ pool.Disconnected (pool.Status c) <->
             r ∈ pool.remotes c /\ r ∉ pool.Connected (pool.Status c)) /\
  (NoDup (pool.remotes c) ->
   NoDup (pool.Connected (pool.Status c)) ->
   (forall r, r ∈ pool.Connected (pool.Status c) -> r ∈ pool.remotes c) ->
   (length (pool.Connected (pool.Status c))
    + length (pool.Disconnected (pool.Status c))
    = length (pool.remotes c))%nat).
Proof.
  unfold pool.Status. cbn.
  set (connected := map _ (pool.clients c)).
  rewrite disconnected_filter.
  split; [reflexivity|]. split.
  - intros r. rewrite list_elem_of_filter. tauto.
  - intros Hrem Hconn Hsub.
    pose proof (filter_app_complement (fun r => r ∉ connected)
                  (pool.remotes c)) as Hsplit.
    apply Permutation_length in Hsplit. rewrite length_app in Hsplit.
    assert (filter (fun r : string => ¬ (r ∉ connected)) (pool.remotes c)
            ≡ₚ connected)
      as Hperm.
    { apply NoDup_Permutation; [apply NoDup_filter, Hrem | exact Hconn |].
      intros r. rewrite list_elem_of_filter. split.
      - intros [Hnn _]. destruct (decide (r ∈ connected)); [auto|].
        contradiction.
      - intros Hin. split; [auto | apply Hsub, Hin]. }
    apply Permutation_length in Hperm. lia.
Qed.

(** A second connection to a remote that is already connected: [Status]
    lists the address twice among the connected, and none disconnected,
    for one remote. *)
Lemma Status_counts_a_remote_twice :
  exists c1 c2,
    pool.DialCluster net_up ping_ok [0%nat] "tcp" ["10.0.0.1:7000"%string]
    = Ret (Some c1, None) /\
    pool.Add net_up ping_ok "10.0.0.1:7000" c1 = (c2, None) /\
    length (pool.Connected (pool.Status c2)) = 2%nat /\
    length (pool.Disconnected (pool.Status c2)) = 0%nat /\
    length (pool.remotes c2) = 1%nat.
Proof.
  eexists _, _. split; [reflexivity|]. split; [reflexivity|].
  repeat split.
Qed.

Lemma Status_partitions_remotes_witness :
  exists c,
    pool.DialCluster net_one ping_ok [1%nat; 0%nat] "tcp" two_addrs
    = Ret (Some c, None) /\
    pool.Connected (pool.Status c) = ["10.0.0.1:7000"%string] /\
    pool.Disconnected (pool.Status c) = ["10.0.0.2:7000"%string] /\
    (length (pool.Connected (pool.Status c))
     + length (pool.Disconnected (pool.Status c))
     = length (pool.remotes c))%nat.
Proof.
  eexists. split; [reflexivity|]. split; [reflexivity|].
  split; [reflexivity|].
  apply Status_partitions_remotes.
  - cbn. apply NoDup_cons. split; [|apply NoDup_singleton].
    intros Hin. apply list_elem_of_singleton in Hin. discriminate.
  - cbn. apply NoDup_singleton.
  - cbn. intros r Hin. apply list_elem_of_singleton in Hin as ->.
    right. left.
Defined.

Lemma two_addrs_schedule : [1%nat; 0%nat] ≡ₚ List.seq 0 (length two_addrs).
Proof.
  apply perm_swap.
Defined.


Lemma cluster_clients_tick_1000ns_witness :
  exists c,
    pool.DialCluster net_up ping_ok [1%nat; 0%nat] "tcp" two_addrs
    = Ret (Some c, None) /\
    Forall pool.cluster_tick (pool.clients c) /\
    Forall pool.cluster_tick (pool.clients (pool.Add net_up ping_ok "10.0.0.3:7000" c).1).
Proof.
  eexists. split; [reflexivity|].
  destruct (cluster_clients_tick_1000ns net_up ping_ok)
    as (_ & _ & HDial & HAdd).
  assert (Forall pool.cluster_tick
            (pool.clients
               (pool.mkCluster 0 2
                  [pool.mkClient (mkConn "10.0.0.1:7000" [] None false None)
                     clientOpen 1000;
                   pool.mkClient (mkConn "10.0.0.2:7000" [] None false None)
                     clientOpen 1000]
                  "tcp" two_addrs false))) as Hc.
  { eapply (HDial [1%nat; 0%nat] "tcp"%string two_addrs _ None).
    reflexivity. }
  split; [exact Hc|].
  eapply HAdd; [exact Hc | reflexivity].
Defined.

(** * Balancing in the cluster, the loops and the handshake *)

(** ** Round robin, removal and re-dial *)

Lemma next_spec (c : pool.ClusterClient) :
  0 <= pool.idx c -> pool.idx c + 1 < 2 ^ 64 ->
  pool.clients c <> [] ->
  pool.next c
  = (pool.set_idx (pool.idx c + 1) c,
     pool.clients c
       !! Z.to_nat ((pool.idx c + 1) mod Z.of_nat (length (pool.clients c)))).
Proof.
  intros H0 H1 Hne. unfold pool.next, wrap64.
  rewrite Z.mod_small by lia. cbn.
  destruct (pool.clients c) as [|v cls]; [contradiction|]. reflexivity.
Qed.

Lemma rounds_lookup (n : nat) :
  forall (c : pool.ClusterClient) (k : nat),
  0 <= pool.idx c -> pool.idx c + Z.of_nat n < 2 ^ 64 ->
  pool.clients c <> [] ->
  (k < n)%nat ->
  rounds n c !! k
  = Some (pool.clients c
            !! Z.to_nat ((pool.idx c + 1 + Z.of_nat k)
                         mod Z.of_nat (length (pool.clients c)))).
Proof.
  induction n as [|n IH]; intros c k H0 Hn Hne Hk; [lia|].
  cbn [rounds]. rewrite next_spec by (auto; lia).
  destruct k as [|k]; cbn.
  - rewrite Z.add_0_r. reflexivity.
  - rewrite IH; cbn [pool.idx pool.set_idx pool.clients]; auto; try lia.
    replace (pool.idx c + 1 + Z.of_nat (S k))
      with (pool.idx c + 1 + 1 + Z.of_nat k) by lia.
    reflexivity.
Qed.

Lemma length_rounds (n : nat) :
  forall c, length (rounds n c) = n.
Proof.
  induction n as [|n IH]; intros c; cbn; [reflexivity|].
  destruct (pool.next c) as [c' v]. cbn. rewrite IH. reflexivity.
Qed.

(** X1. [next] is a round robin. As long as the counter does not wrap,
    as many successive calls of [next] as the cluster has clients return
    the clients in the order of the list, started behind the position of
    the counter: every client exactly once. *)
Theorem next_round_robin (c : pool.ClusterClient) :
  0 <= pool.idx c ->
  pool.idx c + Z.of_nat (length (pool.clients c)) < 2 ^ 64 ->
  rounds (length (pool.clients c)) c
  = Some <$> rotate (Z.to_nat (pool.idx c + 1)) (pool.clients c) /\
  rounds (length (pool.clients c)) c ≡ₚ Some <$> pool.clients c.
Proof.
  intros H0 Hn.
  assert (rounds (length (pool.clients c)) c
          = Some <$> rotate (Z.to_nat (pool.idx c + 1)) (pool.clients c))
    as Heq.
  { destruct (pool.clients c) as [|v cls] eqn:Hcls.
    { unfold rotate. rewrite drop_nil, take_nil. reflexivity. }
    rewrite <- Hcls in *.
    assert (pool.clients c <> []) as Hne by (rewrite Hcls; discriminate).
    apply list_eq. intros k. rewrite list_lookup_fmap.
    destruct (decide (k < length (pool.clients c))%nat) as [Hk|Hk].
    - rewrite rounds_lookup by auto. rewrite lookup_rotate_r by exact Hk.
      unfold rotate_nat_add. rewrite Z2Nat.id by lia.
      destruct (lookup_lt_is_Some_2 (pool.clients c)
                  (Z.to_nat ((pool.idx c + 1 + Z.of_nat k)
                             `mod` Z.of_nat (length (pool.clients c)))))
        as [v' Hv'].
      { pose proof (Z.mod_pos_bound (pool.idx c + 1 + Z.of_nat k)
                      (Z.of_nat (length (pool.clients c)))).
        lia. }
      rewrite Hv'. reflexivity.
    - rewrite !lookup_ge_None_2; [reflexivity| |].
      + rewrite length_rotate. lia.
      + rewrite length_rounds. lia. }
  split; [exact Heq|]. rewrite Heq. apply fmap_Permutation.
  unfold rotate.
  rewrite <- (take_drop (Z.to_nat (pool.idx c + 1) `mod` length (pool.clients c))
                (pool.clients c)) at 5.
  apply Permutation_app_comm.
Qed.

Section balance_facts.

Variable net_Dial : string -> string -> Conn + error.
Variable ping : Conn -> option error.
Variable same : pool.Client -> pool.Client -> bool.
Variable addr_Network : Conn -> string.

(** The loop of [remove] from the index of [rest] in [pre ++ rest]. *)
Lemma remove_from_spec (n : pool.Client) (rest : list pool.Client) :
  forall pre : list pool.Client,
  let r := pool.remove_from same n (pre ++ rest) rest (length pre) in
  r.2 = existsb (fun v => same v n) rest /\
  (r.2 = false -> r.1 = pre ++ rest) /\
  (r.2 = true ->
   exists mid v post,
     rest = mid ++ v :: post /\
     Forall (fun u => same u n = false) mid /\ same v n = true /\
     r.1 ≡ₚ pre ++ mid ++ post).
Proof.
  induction rest as [|v rest IH]; intros pre; cbn.
  { split; [reflexivity|]. split; [reflexivity | discriminate]. }
  destruct (same v n) eqn:Hv; cbn.
  - rewrite length_app. cbn [length].
    replace (length pre + S (length rest) - 1)%nat
      with (length pre + length rest)%nat by lia.
    destruct ((pre ++ v :: rest) !! (length pre + length rest)%nat)
      as [last|] eqn:Hlast.
    2:{ apply lookup_ge_None in Hlast. rewrite length_app in Hlast.
        cbn in Hlast. lia. }
    cbn. split; [reflexivity|]. split; [discriminate|]. intros _.
    exists [], v, rest. split; [reflexivity|]. split; [constructor|].
    split; [exact Hv|]. cbn.
    rewrite insert_app_r_alt, Nat.sub_diag by lia. cbn.
    destruct rest as [|x rest' _] using rev_ind.
    + rewrite Nat.add_0_r, take_app_length. rewrite app_nil_r. reflexivity.
    + rewrite length_app in *. cbn [length] in *.
      assert ((pre ++ v :: rest' ++ [x])
                !! (length pre + (length rest' + 1))%nat = Some x) as Hx.
      { change (pre ++ v :: rest' ++ [x]) with (pre ++ (v :: rest') ++ [x]).
        rewrite app_assoc. apply list_lookup_middle.
        rewrite length_app. cbn. lia. }
      rewrite Hx in Hlast.
      injection Hlast as <-.
      replace (length pre + (length rest' + 1))%nat
        with (length pre + S (length rest'))%nat by lia.
      rewrite take_app_add. cbn. rewrite take_app_length.
      apply Permutation_app_head, Permutation_cons_append.
  - specialize (IH (pre ++ [v])). rewrite <- app_assoc in IH. cbn in IH.
    rewrite length_app in IH. cbn in IH. rewrite Nat.add_1_r in IH.
    destruct IH as (Hfound & Hnot & Hyes).
    split; [exact Hfound|]. split; [exact Hnot|]. intros Ht.
    destruct (Hyes Ht) as (mid & u & post & -> & Hmid & Hu & Hperm).
    exists (v :: mid), u, post. split; [reflexivity|].
    split; [constructor; auto|]. split; [exact Hu|].
    rewrite Hperm, <- app_assoc. reflexivity.
Qed.

Lemma remove_cases (n : pool.Client)
    (c : pool.ClusterClient) :
  (pool.remove same n c).2 = existsb (fun v => same v n) (pool.clients c) /\
  pool.remotes (pool.remove same n c).1 = pool.remotes c /\
  ((pool.remove same n c).2 = false -> (pool.remove same n c).1 = c) /\
  ((pool.remove same n c).2 = true ->
   exists mid v post,
     pool.clients c = mid ++ v :: post /\
     Forall (fun u => same u n = false) mid /\ same v n = true /\
     pool.clients (pool.remove same n c).1 ≡ₚ mid ++ post).
Proof.
  unfold pool.remove.
  pose proof (remove_from_spec n (pool.clients c) []) as Hspec.
  cbn in Hspec.
  destruct (pool.remove_from same n (pool.clients c) (pool.clients c) 0)
    as [cls found].
  cbn in *. destruct Hspec as (Hfound & Hnot & Hyes).
  split; [exact Hfound|]. split; [reflexivity|]. split.
  - intros Hf. rewrite (Hnot Hf). destruct c; reflexivity.
  - exact Hyes.
Qed.

(** X2. [remove] reports whether some client of the list is [n]. When
    none is, the cluster is left as it is. When one is, the first such
    client leaves the list and every other client stays (the order is not
    kept: the last client takes the free place). The remotes are never
    touched. *)
Theorem remove_takes_first_match_out (n : pool.Client)
    (c : pool.ClusterClient) :
  (pool.remove same n c).2 = existsb (fun v => same v n) (pool.clients c) /\
  pool.remotes (pool.remove same n c).1 = pool.remotes c /\
  ((pool.remove same n c).2 = false -> (pool.remove same n c).1 = c) /\
  ((pool.remove same n c).2 = true ->
   exists mid v post,
     pool.clients c = mid ++ v :: post /\
     Forall (fun u => same u n = false) mid /\ same v n = true /\
     pool.clients (pool.remove same n c).1 ≡ₚ mid ++ post).
Proof.
  exact (remove_cases n c).
Qed.

(** [dial] of an address that is known to be among the remotes. *)
Lemma dial_exists (inet addr : string) (c : pool.ClusterClient) :
  pool.dial net_Dial ping inet addr true c
  = (pool.set_clients
       (pool.clients c ++
        match net_Dial inet addr with
        | inl cn =>
          match ping cn with
          | None => [pool.mkClient cn clientOpen 1000]
          | Some _ => []
          end
        | inr _ => []
        end) c,
     pool.attempt net_Dial ping inet addr).
Proof.
  unfold pool.dial, pool.attempt, pool.NewClient, pool.add. cbn [negb].
  destruct (net_Dial inet addr) as [cn|e].
  - destruct (ping cn) as [e|]; [|reflexivity].
    rewrite app_nil_r. destruct c; reflexivity.
  - rewrite app_nil_r. destruct c; reflexivity.
Qed.

(** X3. [redial] never touches the remotes. When no client of the list
    is [n] (another caller removed it first) it does nothing. When one is,
    that client leaves the list and the address [n] was connected to is
    dialed: the list gets a new client on that connection when the dial
    and the handshake succeed, and stays one client short when they
    fail. *)
Theorem redial_replaces_the_removed_client (n : pool.Client)
    (c : pool.ClusterClient) :
  let c' := pool.redial net_Dial ping same addr_Network n c in
  let inet := addr_Network (pool.conn n) in
  let addr := RemoteAddr (pool.conn n) in
  pool.remotes c' = pool.remotes c /\
  (existsb (fun v => same v n) (pool.clients c) = false -> c' = c) /\
  (existsb (fun v => same v n) (pool.clients c) = true ->
   exists mid v post,
     pool.clients c = mid ++ v :: post /\
     Forall (fun u => same u n = false) mid /\ same v n = true /\
     (forall cn, net_Dial inet addr = inl cn -> ping cn = None ->
        pool.clients c'
        ≡ₚ mid ++ post ++ [pool.mkClient cn clientOpen 1000]) /\
     (pool.attempt net_Dial ping inet addr <> None ->
        pool.clients c' ≡ₚ mid ++ post)).
Proof.
  cbn zeta. unfold pool.redial.
  destruct (remove_cases n c) as (Hfound & Hrem & Hnot & Hyes).
  destruct (pool.remove same n c) as [c1 removed]. cbn [fst snd] in *.
  rewrite <- Hfound. destruct removed.
  - rewrite dial_exists. cbn [fst pool.remotes pool.set_clients].
    split; [exact Hrem|]. split; [discriminate|]. intros _.
    destruct (Hyes eq_refl) as (mid & v & post & Hc & Hmid & Hv & Hperm).
    exists mid, v, post. repeat split; auto.
    + intros cn Hcn Hping. rewrite Hcn, Hping. cbn [pool.clients pool.set_clients].
      rewrite Hperm, <- app_assoc. reflexivity.
    + intros Hatt. unfold pool.attempt, pool.NewClient in Hatt.
      destruct (net_Dial _ _) as [cn|e]; cbn [pool.clients pool.set_clients].
      * destruct (ping cn); [|contradiction].
        rewrite app_nil_r. exact Hperm.
      * rewrite app_nil_r. exact Hperm.
  - split; [exact Hrem|]. split; [intros _; apply Hnot; reflexivity|].
    discriminate.
Qed.

(** X4. [addAnother] without remotes returns [ErrNoClients] and leaves
    the cluster as it is. With remotes it never indexes out of range: it
    dials the remote at the incremented counter modulo the number of
    remotes, whatever the state of the cluster (the state is not looked
    at), appends one client when the dial and the handshake succeed and
    none when they fail, and never touches the remotes. *)
Theorem addAnother_dials_a_stored_remote (c : pool.ClusterClient) :
  (pool.remotes c = [] ->
   pool.addAnother net_Dial ping c = Ret (c, Some ErrNoClients)) /\
  (pool.remotes c <> [] ->
   exists addr c',
     pool.remotes c
       !! Z.to_nat (wrap64 (pool.idx c + 1)
                    mod Z.of_nat (length (pool.remotes c))) = Some addr /\
     pool.addAnother net_Dial ping c
     = Ret (c', pool.attempt net_Dial ping (pool.nwk c) addr) /\
     pool.remotes c' = pool.remotes c /\
     pool.cstate c' = pool.cstate c /\
     pool.idx c' = wrap64 (pool.idx c + 1) /\
     pool.clients c'
     = pool.clients c ++
       match net_Dial (pool.nwk c) addr with
       | inl cn =>
         match ping cn with
         | None => [pool.mkClient cn clientOpen 1000]
         | Some _ => []
         end
       | inr _ => []
       end).
Proof.
  unfold pool.addAnother. split.
  - intros ->. reflexivity.
  - intros Hne.
    destruct (Nat.eqb_spec (length (pool.remotes c)) 0) as [Hl|Hl].
    { destruct (pool.remotes c); [contradiction | discriminate]. }
    cbn [pool.remotes pool.set_idx pool.nwk].
    destruct (lookup_lt_is_Some_2 (pool.remotes c)
                (Z.to_nat (wrap64 (pool.idx c + 1)
                           `mod` Z.of_nat (length (pool.remotes c)))))
      as [addr Haddr].
    { pose proof (Z.mod_pos_bound (wrap64 (pool.idx c + 1))
                    (Z.of_nat (length (pool.remotes c)))).
      lia. }
    rewrite Haddr, dial_exists. eexists _, _.
    split; [reflexivity|]. split; [reflexivity|]. repeat split.
Qed.

End balance_facts.

Section cluster_call_facts.

Variable net_Dial : string -> string -> Conn + error.
Variable ping : Conn -> option error.
Variable call_on : pool.Client -> option error.
Variable handleErr :
  pool.Client -> error -> pool.ClusterClient -> pool.ClusterClient.

Local Abbreviation attempt := (pool.attempt net_Dial ping).
Local Abbreviation Call := (pool.Call net_Dial ping call_on handleErr).

(** [next] on a cluster without clients. *)
Lemma next_empty (c : pool.ClusterClient) :
  pool.clients c = [] ->
  pool.next c = (pool.set_idx (wrap64 (pool.idx c + 1)) c, None).
Proof.
  intros Hnil. unfold pool.next. cbn. rewrite Hnil. reflexivity.
Qed.

(** [next] on a cluster with clients returns one of them. *)
Lemma next_some (c : pool.ClusterClient) :
  pool.clients c <> [] ->
  exists v,
    pool.next c = (pool.set_idx (wrap64 (pool.idx c + 1)) c, Some v) /\
    v ∈ pool.clients c.
Proof.
  intros Hne. unfold pool.next. cbn.
  destruct (Nat.eqb_spec (length (pool.clients c)) 0) as [Hl|Hl].
  { destruct (pool.clients c); [contradiction | discriminate]. }
  destruct (lookup_lt_is_Some_2 (pool.clients c)
              (Z.to_nat (wrap64 (pool.idx c + 1)
                         `mod` Z.of_nat (length (pool.clients c)))))
    as [v Hv].
  { pose proof (Z.mod_pos_bound (wrap64 (pool.idx c + 1))
                  (Z.of_nat (length (pool.clients c)))).
    lia. }
  exists v. rewrite Hv. split; [reflexivity|].
  eapply list_elem_of_lookup_2, Hv.
Qed.

(** X5. [Call] on a cluster that holds no client. A cluster that is not
    open returns [ErrClosed] and dials nothing. An open one dials all its
    remotes again: without remotes the call fails with [ErrNoClients];
    when every remote fails it fails with the error of the first remote
    and no request is made; as soon as one remote connects, the second
    pass finds a client, one of those just dialed, and the request is made
    on it. Two passes are always enough. *)
Theorem Call_redials_an_empty_cluster (fuel : nat) (sched : list nat)
    (c : pool.ClusterClient) :
  sched ≡ₚ List.seq 0 (length (pool.remotes c)) ->
  pool.clients c = [] ->
  let c0 := pool.set_idx (wrap64 (pool.idx c + 1)) c in
  (pool.cstate c <> 2 ->
   Call (S fuel) sched c = Some (Ret (c0, Some ErrClosed))) /\
  (pool.cstate c = 2 -> pool.remotes c = [] ->
   Call (S fuel) sched c = Some (Ret (c0, Some ErrNoClients))) /\
  (pool.cstate c = 2 ->
   forall a0 rest e0,
     pool.remotes c = a0 :: rest ->
     (forall a, a ∈ pool.remotes c -> attempt (pool.nwk c) a <> None) ->
     attempt (pool.nwk c) a0 = Some e0 ->
     exists c', Call (S fuel) sched c = Some (Ret (c', Some e0))) /\
  (pool.cstate c = 2 ->
   (exists a, a ∈ pool.remotes c /\ attempt (pool.nwk c) a = None) ->
   exists c1 v,
     v ∈ pool.clients c1 /\ pool.cluster_tick v /\
     Call (S (S fuel)) sched c
     = Some (Ret match call_on v with
                 | Some e => (handleErr v e c1, Some e)
                 | None => (c1, None)
                 end)).
Proof.
  intros Hperm Hnil c0.
  assert (pool.clients c0 = []) as Hnil0 by exact Hnil.
  assert (forall f, Call (S f) sched c
          = if negb (pool.cstate c =? 2) then Some (Ret (c0, Some ErrClosed))
            else match pool.dialAll net_Dial ping sched c0 with
                 | Ret (c, Some e) => Some (Ret (c, Some e))
                 | Ret (c, None) => Call f sched c
                 | Park => Some Park
                 | Panic msg => Some (Panic msg)
                 end) as Hfirst.
  { intros f. cbn [pool.Call]. rewrite next_empty by exact Hnil.
    reflexivity. }
  assert (pool.remotes c <> [] ->
          exists c',
            pool.dialAll net_Dial ping sched c0
            = Ret (c', if forallb
                            (fun a => bool_decide
                                        (attempt (pool.nwk c) a <> None))
                            (pool.remotes c)
                       then attempt (pool.nwk c)
                              (hd EmptyString (pool.remotes c))
                       else None) /\
            Forall pool.cluster_tick (pool.clients c') /\
            (forallb (fun a => bool_decide (attempt (pool.nwk c) a <> None))
               (pool.remotes c) = false -> pool.clients c' <> [])) as Hdial.
  { intros Hne. apply (dialAll_spec net_Dial ping sched c0); auto. }
  split; [|split; [|split]].
  - intros Hst. rewrite Hfirst.
    destruct (Z.eqb_spec (pool.cstate c) 2); [contradiction | reflexivity].
  - intros Hst Hrem. rewrite Hfirst, Hst. cbn [Z.eqb Pos.eqb negb].
    unfold pool.dialAll. rewrite Hnil0. cbn [length Nat.ltb Nat.leb].
    unfold c0 at 1. cbn [pool.remotes pool.set_idx]. rewrite Hrem.
    reflexivity.
  - intros Hst a0 rest e0 Hrem Hfail Hfirst0.
    destruct Hdial as (c' & E & _); [rewrite Hrem; discriminate|].
    assert (forallb (fun a => bool_decide (attempt (pool.nwk c) a <> None))
              (pool.remotes c) = true) as Hall.
    { apply forallb_forall. intros a Ha. apply bool_decide_eq_true.
      apply Hfail, list_elem_of_In, Ha. }
    rewrite Hall, Hrem in E. cbn [hd] in E. rewrite Hfirst0 in E.
    exists c'. rewrite Hfirst, Hst, E. reflexivity.
  - intros Hst (a & Ha & Hatt).
    assert (pool.remotes c <> []) as Hne.
    { intros Hrem. rewrite Hrem in Ha. inversion Ha. }
    destruct (Hdial Hne) as (c' & E & Htick & Hcl).
    assert (forallb (fun a => bool_decide (attempt (pool.nwk c) a <> None))
              (pool.remotes c) = false) as Hall.
    { apply not_true_iff_false. intros Hall. rewrite forallb_forall in Hall.
      apply list_elem_of_In, Hall, bool_decide_eq_true in Ha.
      contradiction. }
    rewrite Hall in E. specialize (Hcl Hall).
    destruct (next_some c' Hcl) as (v & Hnext & Hv).
    exists (pool.set_idx (wrap64 (pool.idx c' + 1)) c'), v.
    split; [exact Hv|]. split.
    { rewrite Forall_forall in Htick. apply Htick, Hv. }
    rewrite Hfirst, Hst, E. cbn [Z.eqb Pos.eqb negb pool.Call].
    rewrite Hnext. destruct (call_on v); reflexivity.
Qed.

End cluster_call_facts.

Section remotes_facts.

Variable net_Dial : string -> string -> Conn + error.
Variable ping : Conn -> option error.

Local Abbreviation dial_step := (pool.dial_step net_Dial ping).

Lemma found_true (addr : string) (rems : list string) :
  pool.found addr rems = true <-> addr ∈ rems.
Proof.
  induction rems as [|rem rems IH]; cbn.
  - split; [discriminate | intros Hin; inversion Hin].
  - destruct (String.eqb_spec rem addr) as [->|Hne].
    + split; [intros _; left | reflexivity].
    + rewrite IH, elem_of_cons.
      split; [auto | intros [?|?]; [congruence | auto]].
Qed.

Lemma NewClient_conn (cn : Conn) (t : Z) (cl : pool.Client) :
  pool.NewClient ping cn t = inl cl -> pool.conn cl = cn.
Proof.
  unfold pool.NewClient. destruct (ping cn); [discriminate|].
  intros E. injection E as <-. reflexivity.
Qed.

(** The goroutines of [dialAll], in any order and however often they
    run: every client they add is on the connection that the dial of some
    address gave, and the remote at the index of that address is the
    remote address of the connection. *)
Lemma dial_steps_known (network : string) (addrs : list string)
    (sched : list nat) :
  forall s : pool.ClusterClient * list (option error),
  let J := fun c : pool.ClusterClient =>
    pool.nwk c = network /\
    length (pool.remotes c) = length addrs /\
    forall cl, cl ∈ pool.clients c ->
      exists k a, addrs !! k = Some a /\
        net_Dial network a = inl (pool.conn cl) /\
        pool.remotes c !! k = Some (RemoteAddr (pool.conn cl)) in
  J s.1 -> J (foldl (dial_step addrs) s sched).1.
Proof.
  cbn zeta. induction sched as [|i sched IH]; intros s HJ; cbn; [exact HJ|].
  apply IH. clear IH. destruct s as [c errs]. cbn [fst] in *.
  destruct HJ as (Hn & Hl & Hcl).
  unfold pool.dial_step. destruct (addrs !! i) as [a|] eqn:Ha; [|auto].
  unfold pool.dialAll_go. rewrite Hn.
  destruct (net_Dial network a) as [cn|e] eqn:Hdial; cbn [fst]; [|auto].
  assert (i < length (pool.remotes c))%nat as Hi.
  { rewrite Hl. eapply lookup_lt_Some, Ha. }
  assert (forall cl, cl ∈ pool.clients c ->
            exists k a0, addrs !! k = Some a0 /\
              net_Dial network a0 = inl (pool.conn cl) /\
              <[i := RemoteAddr cn]> (pool.remotes c) !! k
              = Some (RemoteAddr (pool.conn cl))) as Hold.
  { intros cl Hin. destruct (Hcl cl Hin) as (k & a0 & Hk & Hd & Hr).
    exists k, a0. split; [exact Hk|]. split; [exact Hd|].
    destruct (decide (k = i)) as [->|Hki].
    - rewrite Ha in Hk. injection Hk as <-.
      rewrite Hdial in Hd. injection Hd as ->.
      apply list_lookup_insert_eq. exact Hi.
    - rewrite list_lookup_insert_ne by auto. exact Hr. }
  destruct (pool.NewClient ping cn 1000) as [cl|e] eqn:Enew; cbn.
  - split; [exact Hn|]. split; [rewrite length_insert; exact Hl|].
    intros cl' Hin. apply elem_of_app in Hin as [Hin|Hin]; [auto|].
    apply list_elem_of_singleton in Hin as ->.
    apply NewClient_conn in Enew. rewrite Enew.
    exists i, a. split; [exact Ha|]. split; [exact Hdial|].
    apply list_lookup_insert_eq. exact Hi.
  - split; [exact Hn|]. split; [rewrite length_insert; exact Hl|]. exact Hold.
Qed.

(** X6. In a cluster that [DialCluster] returns, in whatever order the
    dials took effect, the remote address of every client is one of the
    stored remotes: [Status] lists no connected address that is not a
    remote. *)
Theorem DialCluster_connected_are_remotes (sched : list nat)
    (network : string) (addrs : list string) (c : pool.ClusterClient)
    (e : option error) :
  pool.DialCluster net_Dial ping sched network addrs = Ret (Some c, e) ->
  known c /\
  (forall r, r ∈ pool.Connected (pool.Status c) -> r ∈ pool.remotes c).
Proof.
  intros E.
  assert (known c) as Hk.
  { unfold pool.DialCluster in E.
    destruct (length addrs <? 1)%nat; [discriminate|].
    destruct (pool.dialAll net_Dial ping sched _) as [[c1 [e1|]]| |] eqn:Ed;
      try discriminate.
    injection E as <- <-.
    unfold pool.dialAll in Ed. cbn [pool.clients pool.remotes length] in Ed.
    cbn [Nat.ltb Nat.leb] in Ed.
    destruct (length addrs =? 0)%nat; [discriminate|].
    pose proof (dial_steps_known network addrs sched
                  (pool.mkCluster 0 2 [] network addrs false,
                   replicate (length addrs) None)) as HJ.
    cbn zeta in HJ. unfold pool.dial_step in HJ.
    destruct (foldl _ _ sched) as [c2 errs].
    destruct HJ as (_ & _ & Hcl).
    { cbn. repeat split. intros cl Hin. inversion Hin. }
    assert (c1 = c2) as ->.
    { destruct (pool.scan errs 0 false (-1)) as [any first].
      destruct (negb any).
      - destruct (first <? 0); [discriminate|].
        destruct (errs !! Z.to_nat first); [|discriminate].
        injection Ed as <- _. reflexivity.
      - injection Ed as <-. reflexivity. }
    intros cl Hin. destruct (Hcl cl Hin) as (k & a & _ & _ & Hr).
    eapply list_elem_of_lookup_2, Hr. }
  split; [exact Hk|].
  intros r Hr. unfold pool.Status in Hr. cbn in Hr.
  apply list_elem_of_fmap in Hr as (cl & -> & Hin). apply Hk, Hin.
Qed.

(** X7. [Add] only ever appends to the remotes, and only an address that
    is not yet among them: remotes without duplicates stay so. A
    connection that was established has its remote address among the
    remotes afterwards even when the handshake on it fails, and if every
    connected address was a stored remote before, this still holds. *)
Theorem Add_keeps_remotes_consistent (addr : string)
    (c : pool.ClusterClient) :
  let c' := (pool.Add net_Dial ping addr c).1 in
  (exists new, pool.remotes c' = pool.remotes c ++ new) /\
  (NoDup (pool.remotes c) -> NoDup (pool.remotes c')) /\
  (known c -> known c') /\
  (forall cn, pool.cstate c = 2 ->
     net_Dial (pool.nwk c) addr = inl cn ->
     RemoteAddr cn ∈ pool.remotes c').
Proof.
  cbn zeta. unfold pool.Add.
  destruct (Z.eqb_spec (pool.cstate c) 2) as [Hst|Hst]; cbn [negb fst].
  2:{ split; [exists []; rewrite app_nil_r; reflexivity|].
      split; [auto|]. split; [auto|]. intros cn Hc. contradiction. }
  unfold pool.dial. destruct (net_Dial (pool.nwk c) addr) as [cn|e] eqn:Hdial.
  2:{ cbn. split; [exists []; rewrite app_nil_r; reflexivity|].
      split; [auto|]. split; [auto|]. discriminate. }
  cbn [negb].
  set (c1 := if negb (pool.found (RemoteAddr cn) (pool.remotes c))
             then pool.set_remotes (pool.remotes c ++ [RemoteAddr cn]) c
             else c).
  assert (pool.clients c1 = pool.clients c) as Hcl1.
  { unfold c1. destruct (negb _); reflexivity. }
  assert ((exists new, pool.remotes c1 = pool.remotes c ++ new) /\
          (NoDup (pool.remotes c) -> NoDup (pool.remotes c1)) /\
          RemoteAddr cn ∈ pool.remotes c1) as (Hpre & Hnd & Hin).
  { unfold c1.
    destruct (pool.found (RemoteAddr cn) (pool.remotes c)) eqn:Hf; cbn.
    - apply found_true in Hf.
      split; [exists []; rewrite app_nil_r; reflexivity|]. auto.
    - split; [eauto|]. split.
      + intros Hnd. apply NoDup_app. split; [exact Hnd|].
        split; [|apply NoDup_singleton].
        intros x Hx Hx'. apply list_elem_of_singleton in Hx' as ->.
        apply found_true in Hx. rewrite Hx in Hf. discriminate.
      + apply elem_of_app. right. left. }
  assert (known c -> known c1) as Hk1.
  { intros Hk cl Hcl. rewrite Hcl1 in Hcl. destruct Hpre as [new ->].
    apply elem_of_app. left. apply Hk, Hcl. }
  destruct (pool.NewClient ping cn 1000) as [cl|e] eqn:Enew; cbn [fst].
  - unfold pool.add. cbn [pool.remotes pool.set_clients].
    split; [exact Hpre|]. split; [exact Hnd|]. split.
    + intros Hk cl' Hcl'. cbn in Hcl'.
      apply elem_of_app in Hcl' as [Hcl'|Hcl'].
      * apply (Hk1 Hk). exact Hcl'.
      * apply list_elem_of_singleton in Hcl' as ->.
        apply NewClient_conn in Enew. rewrite Enew. exact Hin.
    + intros cn' _ Hcn'. injection Hcn' as <-. exact Hin.
  - split; [exact Hpre|]. split; [exact Hnd|]. split; [exact Hk1|].
    intros cn' _ Hcn'. injection Hcn' as <-. exact Hin.
Qed.

End remotes_facts.

(** [Status] of a cluster without clients lists every remote as
    disconnected. *)
Lemma disconnected_nil (rems : list string) : pool.disconnected rems [] = rems.
Proof.
  induction rems as [|rem rems IH]; cbn; [reflexivity|].
  rewrite IH. reflexivity.
Qed.

Section closed_facts.

Variable net_Dial : string -> string -> Conn + error.
Variable ping : Conn -> option error.
Variable call_on : pool.Client -> option error.
Variable handleErr :
  pool.Client -> error -> pool.ClusterClient -> pool.ClusterClient.

(** X8. [Close] of an open cluster succeeds, and the cluster it leaves
    refuses what follows: a second [Close], [Add] and [Call] return
    [ErrClosed] (and [Close] and [Add] change nothing); [Status] lists no
    connected address and every remote as disconnected. *)
Theorem closed_cluster_refuses (c : pool.ClusterClient) (addr : string)
    (fuel : nat) (sched : list nat) :
  pool.cstate c = 2 ->
  let c' := (pool.Close c).1 in
  (pool.Close c).2 = None /\
  pool.Close c' = (c', Some ErrClosed) /\
  pool.Add net_Dial ping addr c' = (c', Some ErrClosed) /\
  pool.Call net_Dial ping call_on handleErr (S fuel) sched c'
  = Some (Ret (pool.set_idx (wrap64 (pool.idx c + 1)) c', Some ErrClosed)) /\
  pool.Status c' = pool.mkStatus (pool.nwk c) [] (pool.remotes c).
Proof.
  intros Hst. cbn zeta. unfold pool.Close. rewrite Hst. cbn.
  repeat split. unfold pool.Status. cbn. rewrite disconnected_nil.
  reflexivity.
Qed.

End closed_facts.

(** ** Running the write path forward *)

Lemma sema_Wait_ok (w : loc) (x : waiter) (σ : World) :
  heap σ !! w = Some x -> done x = true ->
  sema_Wait w σ = (Ret tt, on_heap (<[w := set_done false x]>) σ).
Proof.
  intros Hx Hd. unfold sema_Wait, bind, deref. rewrite Hx, Hd.
  unfold update, bind, deref. rewrite Hx. reflexivity.
Qed.

Lemma sema_Wait_parks (w : loc) (x : waiter) (σ : World) :
  heap σ !! w = Some x -> done x = false -> sema_Wait w σ = (Park, σ).
Proof.
  intros Hx Hd. unfold sema_Wait, bind, deref. rewrite Hx, Hd. reflexivity.
Qed.

Lemma waiters_push_ok (w : loc) (x : waiter) (σ : World) :
  heap σ !! w = Some x ->
  waiters_push w σ
  = (Ret tt, if static x then set_waiters (w :: waiters σ) σ else σ).
Proof.
  intros Hx. unfold waiters_push, bind, deref. rewrite Hx.
  destruct (static x); reflexivity.
Qed.

Lemma send_writing_ok (w : loc) (σ : World) :
  writing_closed (cl σ) = false ->
  (length (writing (cl σ)) < waiterHWM)%nat ->
  send_writing w σ
  = (Ret tt, on_cl (set_writing (writing (cl σ) ++ [w])) σ).
Proof.
  intros Hc Hl. unfold send_writing. rewrite Hc.
  destruct (Nat.ltb_spec (length (writing (cl σ))) waiterHWM); [|lia].
  reflexivity.
Qed.

Lemma pending_insert_ok (w : loc) (x : waiter) (σ : World) :
  heap σ !! w = Some x ->
  pending_insert w σ
  = (Ret tt, on_cl (fun c => set_pending (<[seq x := w]> (pending c)) c) σ).
Proof.
  intros Hx. unfold pending_insert, bind, deref. rewrite Hx. reflexivity.
Qed.

(** Runs the first step of the sequence in the goal. *)
Ltac fwd_step :=
  first
    [ rewrite bind_assoc
    | erewrite bind_Ret by (apply wg_Add_ok; wsimpl; lia)
    | erewrite bind_Ret
        by (apply in_get_ok; wsimpl; rewrite ?lookup_insert_eq; eauto)
    | erewrite bind_Ret
        by (apply update_ok; wsimpl; rewrite ?lookup_insert_eq; eauto)
    | erewrite bind_Ret
        by (apply pending_insert_ok; wsimpl; rewrite ?lookup_insert_eq; eauto)
    | erewrite bind_Ret by reflexivity ];
  cbv beta; wsimpl; rewrite ?on_heap_insert_insert.

Section forward_facts.
Context `{Decls}.

Lemma writebody_ok (w : loc) (x : waiter) (sn : Z) (σ : World) :
  heap σ !! w = Some x ->
  writing_closed (cl σ) = false ->
  (length (writing (cl σ)) < waiterHWM)%nat ->
  writebody w sn σ
  = (Ret tt,
     on_cl (set_writing (writing (cl σ) ++ [w]))
       (on_cl (fun c => set_pending (<[sn := w]> (pending c)) c)
          (on_heap (<[w := set_reap false (set_seq sn x)]>) σ))).
Proof.
  intros Hx Hc Hl. unfold writebody.
  do 3 fwd_step.
  rewrite send_writing_ok by (wsimpl; auto). reflexivity.
Qed.

(** [write] on an open client whose queue has room: the request is
    framed, registered and queued. *)
Lemma write_ok (w : loc) (x : waiter) (method : Z) (inp : option Marshaler)
    (σ : World) :
  let sn := wrap64 (csn (cl σ) + 1) in
  let b0 := msgp.AppendUint32 (resize leadSize (in_ x)) (wrap32 method) in
  heap σ !! w = Some x ->
  state (cl σ) <> clientClosed ->
  0 <= wg (cl σ) ->
  writing_closed (cl σ) = false ->
  (length (writing (cl σ)) < waiterHWM)%nat ->
  (marshal inp b0).2 = None ->
  Z.of_nat (length (marshal inp b0).1) - Z.of_nat leadSize <= maxMessageSize ->
  write w method inp σ
  = (Ret None,
     queued w x sn
       (putFrame (marshal inp b0).1 sn fREQ
          (Z.of_nat (length (marshal inp b0).1) - Z.of_nat leadSize)) σ).
Proof.
  intros sn b0 Hx Hst Hwg Hc Hl Hm Hsz. unfold write, in_set.
  fwd_step. fwd_step.
  destruct (Z.eqb_spec (state (cl σ)) clientClosed) as [|_]; [contradiction|].
  do 5 fwd_step.
  fold b0. fold sn.
  assert (forall (k : option error -> M (option error)) σ0,
            heap σ0 !! w = Some (set_in b0 x) ->
            bind (match inp with
                  | Some m =>
                    b <- in_get w ;; update w (set_in (m b).1) ;; ret (m b).2
                  | None =>
                    b <- in_get w ;;
                    update w (set_in (msgp.AppendMapHeader b 0)) ;; ret None
                  end) k σ0
            = k None (on_heap (<[w := set_in (marshal inp b0).1 x]>) σ0))
    as Hbody.
  { intros k σ0 H0. unfold marshal in *. destruct inp as [m|].
    - rewrite bind_assoc. erewrite bind_Ret by (apply in_get_ok; eauto).
      cbn [in_ set_in]. rewrite bind_assoc.
      erewrite bind_Ret by (apply update_ok; eauto).
      erewrite bind_Ret by reflexivity. rewrite Hm. reflexivity.
    - rewrite bind_assoc. erewrite bind_Ret by (apply in_get_ok; eauto).
      cbn [in_ set_in]. rewrite bind_assoc.
      erewrite bind_Ret by (apply update_ok; eauto).
      erewrite bind_Ret by reflexivity. reflexivity. }
  rewrite Hbody by (wsimpl; apply lookup_insert_eq).
  wsimpl. rewrite ?on_heap_insert_insert.
  fwd_step.
  match goal with
  | |- context [if ?a >? ?b then _ else _] =>
    destruct (Z.gtb_spec a b) as [Hgt|_]; [lia|]
  end.
  fwd_step.
  erewrite bind_Ret
    by (apply writebody_ok; wsimpl; rewrite ?lookup_insert_eq; eauto).
  unfold ret, queued. wsimpl. rewrite ?on_heap_insert_insert.
  unfold on_heap, on_cl. wsimpl. rewrite ?insert_insert_eq. reflexivity.
Qed.

(** [writeCommand] on an open client whose queue has room. *)
Lemma writeCommand_ok (w : loc) (x : waiter) (cmd : Z) (msg : list byte)
    (σ : World) :
  let sn := wrap64 (csn (cl σ) + 1) in
  let cmdlen := Z.of_nat (length msg) + 1 in
  let need := (leadSize + Z.to_nat cmdlen)%nat in
  heap σ !! w = Some x ->
  state (cl σ) <> clientClosed ->
  0 <= wg (cl σ) ->
  writing_closed (cl σ) = false ->
  (length (writing (cl σ)) < waiterHWM)%nat ->
  cmdlen <= maxMessageSize ->
  writeCommand w cmd msg σ
  = (Ret None,
     queued w x sn
       (copy_at (leadSize + 1) msg
          (<[leadSize := byte_of_Z cmd]>
             (putFrame (resize need (in_ x)) sn fCMD cmdlen))) σ).
Proof.
  intros sn cmdlen need Hx Hst Hwg Hc Hl Hsz. unfold writeCommand, in_set.
  fwd_step. fwd_step.
  destruct (Z.eqb_spec (state (cl σ)) clientClosed) as [|_]; [contradiction|].
  fwd_step. fold sn. fold cmdlen.
  destruct (Z.gtb_spec cmdlen maxMessageSize) as [Hgt|_]; [lia|].
  do 8 fwd_step. fold need.
  erewrite bind_Ret
    by (apply writebody_ok; wsimpl; rewrite ?lookup_insert_eq; eauto).
  unfold ret, queued. wsimpl. rewrite ?on_heap_insert_insert.
  unfold on_heap, on_cl. wsimpl. rewrite ?insert_insert_eq. reflexivity.
Qed.

End forward_facts.

(** ** The frames of the write path *)

Lemma u8_byte_of_Z (z : Z) : u8 (byte_of_Z z) = z mod 256.
Proof.
  unfold u8, byte_of_Z.
  pose proof (Z.mod_pos_bound z 256 ltac:(lia)) as Hr.
  destruct (Byte.of_N (Z.to_N (z mod 256))) as [b|] eqn:E.
  - apply Byte.to_of_N in E. rewrite E. lia.
  - apply Byte.of_N_None_iff in E. lia.
Qed.

Lemma be_from (bs : list byte) (acc : Z) :
  fold_left (fun acc b => acc * 256 + u8 b) bs acc
  = acc * 256 ^ Z.of_nat (length bs) + be bs.
Proof.
  unfold be. revert acc. induction bs as [|b bs IH]; intros acc.
  - cbn. lia.
  - cbn [fold_left length]. rewrite IH, (IH (0 * 256 + u8 b)).
    rewrite Nat2Z.inj_succ, Z.pow_succ_r by lia. lia.
Qed.

Lemma be_bytes_S (n : nat) (z : Z) :
  be_bytes (S n) z = byte_of_Z (z / 2 ^ (8 * Z.of_nat n)) :: be_bytes n z.
Proof.
  unfold be_bytes. rewrite seq_S, rev_app_distr. reflexivity.
Qed.

Lemma length_be_bytes (n : nat) (z : Z) : length (be_bytes n z) = n.
Proof.
  unfold be_bytes. rewrite length_map, length_rev, length_seq. reflexivity.
Qed.

(** The big-endian bytes of a number read back as the number. *)
Lemma be_be_bytes (n : nat) (z : Z) :
  0 <= z -> be (be_bytes n z) = z mod 256 ^ Z.of_nat n.
Proof.
  intros Hz. induction n as [|n IH].
  - cbn. rewrite Z.mod_1_r. reflexivity.
  - rewrite be_bytes_S. unfold be. cbn [fold_left].
    rewrite be_from, length_be_bytes, IH, u8_byte_of_Z.
    rewrite Nat2Z.inj_succ, Z.pow_succ_r by lia.
    replace (2 ^ (8 * Z.of_nat n)) with (256 ^ Z.of_nat n).
    2:{ change 256 with (2 ^ 8). rewrite <- Z.pow_mul_r by lia. reflexivity. }
    rewrite (Z.mul_comm 256), Z.rem_mul_r by lia. lia.
Qed.

(** The codec of the specification frames as required. *)
Lemma wire_framing : framing (H := wire).
Proof.
  intros b s k n Hb Hs Hn Hk. cbn [leadSize wire] in *.
  cbn [putFrame wire fREQ fRES fCMD readFrame] in *.
  assert (length (be_bytes 8 s ++ [byte_of_Z k] ++ be_bytes 2 n) = 11%nat)
    as Hl11.
  { rewrite !length_app, !length_be_bytes. reflexivity. }
  rewrite !app_assoc. rewrite <- (app_assoc (be_bytes 8 s)).
  set (l11 := be_bytes 8 s ++ [byte_of_Z k] ++ be_bytes 2 n) in *.
  split; [|split].
  - rewrite length_app, Hl11, length_drop. lia.
  - rewrite drop_app_ge by lia. rewrite Hl11, drop_drop. reflexivity.
  - rewrite take_app_ge by lia. rewrite Hl11. cbn [Nat.sub].
    unfold l11.
    assert (take 8 ((be_bytes 8 s ++ [byte_of_Z k] ++ be_bytes 2 n)
                    ++ take 1 (drop 11 b)) = be_bytes 8 s) as ->.
    { rewrite <- app_assoc.
      apply take_app_length'. rewrite length_be_bytes. reflexivity. }
    assert (drop 8 ((be_bytes 8 s ++ [byte_of_Z k] ++ be_bytes 2 n)
                    ++ take 1 (drop 11 b))
            = byte_of_Z k :: be_bytes 2 n ++ take 1 (drop 11 b)) as Hd8.
    { rewrite <- !app_assoc.
      apply drop_app_length'. rewrite length_be_bytes. reflexivity. }
    rewrite Hd8. cbn [take]. rewrite take_0.
    assert (drop 9 ((be_bytes 8 s ++ [byte_of_Z k] ++ be_bytes 2 n)
                    ++ take 1 (drop 11 b))
            = be_bytes 2 n ++ take 1 (drop 11 b)) as ->.
    { rewrite <- !app_assoc. rewrite (app_assoc (be_bytes 8 s)).
      apply drop_app_length'. rewrite length_app, length_be_bytes.
      reflexivity. }
    rewrite (take_app_length' (be_bytes 2 n))
      by (rewrite length_be_bytes; reflexivity).
    rewrite !be_be_bytes by lia.
    unfold be. cbn [fold_left]. rewrite u8_byte_of_Z.
    unfold maxMessageSize in Hn.
    rewrite !Z.mod_small; [reflexivity | | | lia].
    + change (256 ^ Z.of_nat 2) with 65536. lia.
    + destruct Hk as [->| [->| ->]]; lia.
Qed.

Lemma wrap64_range (z : Z) : 0 <= wrap64 z < 2 ^ 64.
Proof.
  unfold wrap64. apply Z.mod_pos_bound. lia.
Qed.

(** The buffer of a command once the code and the message are copied in
    behind the lead. *)
Lemma command_buffer (n : nat) (p msg : list byte) (c : byte) :
  length p = (n + 1 + length msg)%nat ->
  copy_at (n + 1) msg (<[n := c]> p) = take n p ++ c :: msg.
Proof.
  intros Hl. rewrite <- (take_drop n p) at 1.
  assert (length (take n p) = n) as Hn by (rewrite length_take; lia).
  destruct (drop n p) as [|d tl] eqn:Hd.
  { apply (f_equal length) in Hd. rewrite length_drop in Hd. cbn in Hd. lia. }
  assert (length tl = length msg) as Htl.
  { apply (f_equal length) in Hd. rewrite length_drop in Hd. cbn in Hd. lia. }
  rewrite insert_app_r_alt by lia. rewrite Hn, Nat.sub_diag. cbn [insert].
  cbn. unfold copy_at.
  rewrite length_app, Hn. cbn [length].
  replace (n + S (length tl) - (n + 1))%nat with (length msg) by lia.
  rewrite firstn_all.
  rewrite (take_app_add' (take n p) (c :: tl) n 1) by auto.
  cbn [take]. rewrite take_0.
  rewrite drop_ge by (rewrite length_app; cbn; lia).
  rewrite app_nil_r, <- app_assoc. reflexivity.
Qed.

Section frame_facts.
Context `{Decls}.

(** X9. On an open client whose queue has room, [writeCommand] leaves
    in the buffer of the waiter a lead, the code of the command and the
    message, in this order. The lead decodes to the sequence number that
    was drawn, the kind [fCMD] and the length of code and message; under
    this sequence number the waiter is registered, and it is the last of
    the queue. *)
Theorem writeCommand_frames_the_command (w : loc) (x : waiter) (cmd : Z)
    (msg : list byte) (σ : World) :
  framing ->
  heap σ !! w = Some x ->
  state (cl σ) = clientOpen ->
  0 <= wg (cl σ) ->
  writing_closed (cl σ) = false ->
  (length (writing (cl σ)) < waiterHWM)%nat ->
  Z.of_nat (length msg) + 1 <= 65535 ->
  let sn := wrap64 (csn (cl σ) + 1) in
  exists σ' lead,
    writeCommand w cmd msg σ = (Ret None, σ') /\
    in_ <$> heap σ' !! w = Some (lead ++ byte_of_Z cmd :: msg) /\
    length lead = leadSize /\
    readFrame lead = (sn, fCMD, Z.of_nat (length msg) + 1) /\
    seq <$> heap σ' !! w = Some sn /\
    pending (cl σ') !! sn = Some w /\
    writing (cl σ') = writing (cl σ) ++ [w].
Proof.
  intros Hframing Hx Hopen Hwg Hc Hl Hsz sn.
  assert (state (cl σ) <> clientClosed) as Hst.
  { rewrite Hopen. discriminate. }
  rewrite (writeCommand_ok w x cmd msg σ) by auto.
  fold sn.
  set (need := (leadSize + Z.to_nat (Z.of_nat (length msg) + 1))%nat).
  destruct (Hframing (resize need (in_ x)) sn fCMD
              (Z.of_nat (length msg) + 1))
    as (Hlen & _ & Hread); auto.
  { rewrite length_resize. unfold need. lia. }
  { apply wrap64_range. }
  { unfold maxMessageSize. lia. }
  rewrite length_resize in Hlen.
  eexists _, _. split; [reflexivity|].
  unfold queued. cbn [heap cl pending writing].
  rewrite !lookup_insert_eq. cbn [fmap option_fmap option_map in_ seq].
  replace (leadSize + 1)%nat with (leadSize + 1)%nat by reflexivity.
  rewrite command_buffer by (rewrite Hlen; unfold need; lia).
  split; [reflexivity|]. split.
  { rewrite length_take, Hlen. unfold need. lia. }
  split; [exact Hread|]. auto.
Qed.

(** X10. On an open client whose queue has room, [write] leaves in the
    buffer of the waiter a lead, the method as [msgp.AppendUint32] writes
    it (the shortest form that holds it, one to five bytes) and the
    encoding of the argument, the empty map when there is no argument.
    The lead decodes to the sequence number that was drawn, the kind
    [fREQ] and the length of what follows it; under this sequence number
    the waiter is registered, and it is the last of the queue. *)
Theorem write_frames_the_request (w : loc) (x : waiter) (method : Z)
    (inp : option Marshaler) (body : list byte) (σ : World) :
  let enc := msgp.AppendUint32 [] (wrap32 method) ++ body in
  framing ->
  heap σ !! w = Some x ->
  state (cl σ) = clientOpen ->
  0 <= wg (cl σ) ->
  writing_closed (cl σ) = false ->
  (length (writing (cl σ)) < waiterHWM)%nat ->
  encodes inp body ->
  Z.of_nat (length enc) <= 65535 ->
  let sn := wrap64 (csn (cl σ) + 1) in
  exists σ' lead,
    write w method inp σ = (Ret None, σ') /\
    in_ <$> heap σ' !! w = Some (lead ++ enc) /\
    length lead = leadSize /\
    readFrame lead = (sn, fREQ, Z.of_nat (length enc)) /\
    (1 + length body <= length enc <= 5 + length body)%nat /\
    seq <$> heap σ' !! w = Some sn /\
    pending (cl σ') !! sn = Some w /\
    writing (cl σ') = writing (cl σ) ++ [w].
Proof.
  intros enc Hframing Hx Hopen Hwg Hc Hl Henc Hsz sn.
  assert (state (cl σ) <> clientClosed) as Hst.
  { rewrite Hopen. discriminate. }
  set (b0 := msgp.AppendUint32 (resize leadSize (in_ x)) (wrap32 method)).
  assert (marshal inp b0 = (b0 ++ body, None)) as Hm.
  { unfold marshal, encodes in *. destruct inp as [m|]; [apply Henc|].
    rewrite Henc. reflexivity. }
  assert (b0 ++ body = resize leadSize (in_ x) ++ enc) as Hb0.
  { unfold b0, enc. rewrite AppendUint32_app, <- app_assoc. reflexivity. }
  assert (length (b0 ++ body) = (leadSize + length enc)%nat) as Hlb.
  { rewrite Hb0, length_app, length_resize. reflexivity. }
  rewrite (write_ok w x method inp σ); auto; fold b0; rewrite Hm; cbn [fst snd];
    [|reflexivity | rewrite Hlb; unfold maxMessageSize; lia].
  fold sn. rewrite Hlb.
  replace (Z.of_nat (leadSize + length enc) - Z.of_nat leadSize)
    with (Z.of_nat (length enc)) by lia.
  destruct (Hframing (b0 ++ body) sn fREQ (Z.of_nat (length enc)))
    as (Hlen & Hdrop & Hread); auto.
  { rewrite Hlb. lia. }
  { apply wrap64_range. }
  { unfold maxMessageSize. lia. }
  assert (drop leadSize (b0 ++ body) = enc) as Hdrop0.
  { rewrite Hb0. apply drop_app_length'. rewrite length_resize.
    reflexivity. }
  eexists _, _. split; [reflexivity|].
  unfold queued. cbn [heap cl pending writing].
  rewrite !lookup_insert_eq. cbn [fmap option_fmap option_map in_ seq].
  split.
  { f_equal.
    rewrite <- (take_drop leadSize (putFrame _ _ _ _)) at 1.
    rewrite Hdrop, Hdrop0. reflexivity. }
  split; [rewrite length_take, Hlen, Hlb; lia|].
  split; [exact Hread|].
  split; [|auto].
  unfold enc. rewrite length_app.
  pose proof (length_AppendUint32_wrap32 method). lia.
Qed.

End frame_facts.

(** [pop] on a sound free list: the waiter it returns is cleared; it
    comes off the list and is static, or the list is empty and it is
    fresh. *)
Lemma waiters_pop_ok (σ : World) :
  pool_ok σ ->
  exists w x σp,
    waiters_pop σ = (Ret w, σp) /\
    heap σp !! w = Some x /\
    done x = false /\
    cl σp = cl σ /\ events σp = events σ /\
    (static x = true /\ waiters σ = w :: waiters σp \/
     static x = false /\ waiters σ = [] /\ waiters σp = []).
Proof.
  intros Hpool. unfold waiters_pop.
  destruct (waiters σ) as [|w rest] eqn:Hws.
  - eexists _, _, _. split; [reflexivity|]. cbn.
    rewrite lookup_insert_eq. repeat split. right. auto.
  - destruct (Hpool w) as (x & Hx & Hs); [rewrite Hws; left|].
    erewrite bind_Ret by (apply update_ok; cbn; eauto).
    eexists _, _, _. split; [reflexivity|]. cbn.
    rewrite lookup_insert_eq. repeat split. left. auto.
Qed.

Section trip_facts.
Context `{Decls}.

(** One pass of the reader over a frame of kind [fRES] or [fCMD] for
    which a waiter is registered: the world it leaves. *)
Lemma readLoop_iter_routed (σ : World) (lead body rest : list byte)
    (s : Z) (k : fType) (sz : Z) (w : loc) (x : waiter) :
  conn_closed (conn (cl σ)) = false ->
  rd (conn (cl σ)) = lead ++ body ++ rest ->
  length lead = leadSize ->
  readFrame lead = (s, k, sz) ->
  length body = Z.to_nat sz ->
  k = fCMD \/ k = fRES ->
  pending (cl σ) !! s = Some w ->
  heap σ !! w = Some x ->
  readLoop_iter σ
  = (Ret true,
     mkWorld
       (set_pending (delete s (pending (cl σ)))
          (set_conn (set_rd rest (conn (cl σ))) (cl σ)))
       (<[w := mkWaiter (seq x) true None body (reap x) (static x)]> (heap σ))
       (brk σ) (waiters σ) (ErrorLogger σ) (events σ ++ [EvWake w])).
Proof.
  intros Hc Hrd Hlead Hframe Hbody Hk Hsome Hx.
  unfold readLoop_iter.
  erewrite bind_Ret by (apply (ReadFull_ok _ lead (body ++ rest)); eauto).
  cbn [fst snd do_]. erewrite bind_Ret by reflexivity.
  cbn [negb]. rewrite Hframe.
  rewrite (routed_kind k Hk).
  unfold pending_remove at 1. unfold bind at 1. wsimpl. rewrite Hsome.
  unfold in_set.
  erewrite bind_Ret by (apply in_get_ok; wsimpl; eauto).
  erewrite bind_Ret by (apply update_ok; wsimpl; eauto).
  erewrite bind_Ret
    by (apply (ReadFull_ok _ body rest); wsimpl;
        [exact Hc | reflexivity | exact Hbody]).
  wsimpl.
  erewrite bind_Ret
    by (apply in_get_ok; wsimpl; rewrite lookup_insert_eq; eauto).
  erewrite bind_Ret
    by (apply update_ok; wsimpl; rewrite lookup_insert_eq; eauto).
  wsimpl. cbn [do_].
  erewrite bind_Ret by reflexivity. cbn [negb].
  erewrite bind_Ret
    by (apply update_ok; wsimpl; rewrite lookup_insert_eq; eauto).
  unfold sema_Wake. rewrite bind_assoc.
  erewrite bind_Ret
    by (apply update_ok; wsimpl; rewrite lookup_insert_eq; eauto).
  erewrite bind_Ret by reflexivity.
  unfold ret, modify, on_heap, on_cl, emit. wsimpl.
  rewrite !insert_insert_eq.
  rewrite copy_at_full by (rewrite length_resize; auto).
  reflexivity.
Qed.

Context {T : Type}.
Variable UnmarshalMsg : T -> list byte -> T * list byte * option error.

(** [Call] on an open client whose queue has room: the request is
    queued on a waiter from the free list and the caller parks. *)
Lemma Call_parks (method : Z) (inp : option Marshaler) (out : option T)
    (body : list byte) (σ : World) :
  pool_ok σ ->
  state (cl σ) = clientOpen ->
  0 <= wg (cl σ) ->
  writing_closed (cl σ) = false ->
  (length (writing (cl σ)) < waiterHWM)%nat ->
  encodes inp body ->
  5 + Z.of_nat (length body) <= maxMessageSize ->
  exists w x σp buf,
    waiters_pop σ = (Ret w, σp) /\
    heap σp !! w = Some x /\ done x = false /\
    cl σp = cl σ /\ events σp = events σ /\
    (static x = true /\ waiters σ = w :: waiters σp \/
     static x = false /\ waiters σ = [] /\ waiters σp = []) /\
    Call UnmarshalMsg method inp out σ
    = (Park, queued w x (wrap64 (csn (cl σ) + 1)) buf σp).
Proof.
  intros Hpool Hopen Hwg Hc Hl Henc Hsz.
  destruct (waiters_pop_ok σ Hpool)
    as (w & x & σp & Epop & Hx & Hd & Hcl & Hev & Hcase).
  set (b0 := msgp.AppendUint32 (resize leadSize (in_ x)) (wrap32 method)).
  assert (marshal inp b0 = (b0 ++ body, None)) as Hm.
  { unfold marshal, encodes in *. destruct inp as [m|]; [apply Henc|].
    rewrite Henc. reflexivity. }
  assert (length (b0 ++ body) <= leadSize + (5 + length body))%nat as Hlb.
  { unfold b0. rewrite AppendUint32_app, !length_app, length_resize.
    pose proof (length_AppendUint32_wrap32 method). lia. }
  exists w, x, σp. eexists.
  split; [exact Epop|]. split; [exact Hx|]. split; [exact Hd|].
  split; [exact Hcl|]. split; [exact Hev|]. split; [exact Hcase|].
  unfold Call. rewrite (bind_Ret _ _ _ _ _ Epop).
  unfold call. rewrite bind_assoc.
  erewrite bind_Ret.
  2:{ apply (write_ok w x method inp σp); rewrite ?Hcl; auto.
      - rewrite Hopen. discriminate.
      - fold b0. rewrite Hm. reflexivity.
      - fold b0. rewrite Hm. cbn [fst]. lia. }
  cbv beta iota. unfold call_resume. rewrite !bind_assoc.
  rewrite Hcl.
  unfold bind at 1.
  erewrite sema_Wait_parks;
    [reflexivity | unfold queued; cbn [heap]; apply lookup_insert_eq | exact Hd].
Qed.

(** X11. A call and its response. On an open client whose queue has
    room, [Call] queues the request and parks. When the frame of the
    response is what the connection delivers next (it carries the
    sequence number of the call and the kind [fRES] or [fCMD]) and its
    body starts with the status OK, one pass of the reader hands the body
    to the caller, and the caller, once woken, returns what
    [UnmarshalMsg] makes of the payload that follows the status. After
    that the counter of outstanding operations and the free list are as
    before the call, and nothing is pending under the sequence number of
    the call. *)
Theorem Call_returns_the_decoded_response (method : Z)
    (inp : option Marshaler) (reqbody : list byte) (o : T) (σ : World)
    (lead body payload rest : list byte) (k : fType) :
  pool_ok σ ->
  state (cl σ) = clientOpen ->
  0 <= wg (cl σ) ->
  writing_closed (cl σ) = false ->
  (length (writing (cl σ)) < waiterHWM)%nat ->
  encodes inp reqbody ->
  5 + Z.of_nat (length reqbody) <= 65535 ->
  conn_closed (conn (cl σ)) = false ->
  rd (conn (cl σ)) = lead ++ body ++ rest ->
  length lead = leadSize ->
  readFrame lead
  = (wrap64 (csn (cl σ) + 1), k, Z.of_nat (length body)) ->
  k = fCMD \/ k = fRES ->
  msgp.ReadIntBytes body = (StatusOK, payload, None) ->
  exists w σ1 σ2 σ3,
    Call UnmarshalMsg method inp (Some o) σ = (Park, σ1) /\
    readLoop_iter σ1 = (Ret true, σ2) /\
    Call_resume UnmarshalMsg w (Some o) σ2
    = (Ret (Some (UnmarshalMsg o payload).1.1, (UnmarshalMsg o payload).2),
       σ3) /\
    wg (cl σ3) = wg (cl σ) /\
    waiters σ3 = waiters σ /\
    pending (cl σ3) = delete (wrap64 (csn (cl σ) + 1)) (pending (cl σ)) /\
    rd (conn (cl σ3)) = rest.
Proof.
  intros Hpool Hopen Hwg Hc Hl Henc Hsz Hcc Hrd Hlead Hframe Hk Hint.
  destruct (Call_parks method inp (Some o) reqbody σ)
    as (w & x & σp & buf & Epop & Hx & Hd & Hcl & Hev & Hcase & ECall); auto.
  set (sn := wrap64 (csn (cl σ) + 1)) in *.
  set (σ1 := queued w x sn buf σp) in *.
  assert (heap σ1 !! w = Some (mkWaiter sn false (err x) buf false (static x)))
    as Hx1.
  { unfold σ1, queued. cbn [heap]. rewrite lookup_insert_eq, Hd.
    reflexivity. }
  pose proof (readLoop_iter_routed σ1 lead body rest sn k
                (Z.of_nat (length body)) w
                (mkWaiter sn false (err x) buf false (static x))) as Eread.
  rewrite Nat2Z.id in Eread.
  specialize (Eread ltac:(unfold σ1, queued; cbn; rewrite Hcl; exact Hcc)
                    ltac:(unfold σ1, queued; cbn; rewrite Hcl; exact Hrd)
                    Hlead Hframe eq_refl Hk
                    ltac:(unfold σ1, queued; cbn; apply lookup_insert_eq)
                    Hx1).
  cbn [seq reap static] in Eread.
  match type of Eread with _ = (_, ?s) => set (σ2 := s) in * end.
  assert (heap σ2 !! w = Some (mkWaiter sn true None body false (static x)))
    as Hx2.
  { unfold σ2. cbn [heap]. apply lookup_insert_eq. }
  assert (wg (cl σ2) = wg (cl σ) + 1) as Hwg2.
  { unfold σ2, σ1, queued. cbn. rewrite Hcl. reflexivity. }
  exists w, σ1, σ2. eexists.
  split; [exact ECall|]. split; [exact Eread|].
  unfold Call_resume, call_resume. rewrite !bind_assoc.
  erewrite bind_Ret by (apply sema_Wait_ok; [exact Hx2 | reflexivity]).
  cbn [set_done seq err in_ reap static].
  rewrite bind_assoc.
  erewrite bind_Ret by (apply wg_Add_ok; wsimpl; rewrite Hwg2; lia).
  rewrite bind_assoc.
  erewrite bind_Ret
    by (unfold deref; wsimpl; rewrite lookup_insert_eq; reflexivity).
  cbn [err].
  erewrite bind_Ret.
  2:{ apply (read_ok_unmarshals UnmarshalMsg w
               (mkWaiter sn false None body false (static x)) o payload).
      - wsimpl. apply lookup_insert_eq.
      - exact Hint. }
  erewrite bind_Ret
    by (apply waiters_push_ok; wsimpl; apply lookup_insert_eq).
  cbn [static]. unfold ret. split; [reflexivity|].
  assert (forall (A : Type) (f : World -> A) (b : bool) ws σ0,
            (forall ws, f (set_waiters ws σ0) = f σ0) ->
            f (if b then set_waiters ws σ0 else σ0) = f σ0) as Hsame.
  { intros A f b ws σ0 Hf. destruct b; [apply Hf | reflexivity]. }
  split; [|split; [|split]].
  - rewrite (Hsame _ (fun σ => wg (cl σ))) by reflexivity.
    wsimpl. rewrite Hwg2. lia.
  - destruct Hcase as [(Hs & Hws) | (Hs & Hws & Hwsp)]; rewrite Hs.
    + wsimpl. unfold σ2, σ1, queued. cbn [waiters]. symmetry. exact Hws.
    + wsimpl. unfold σ2, σ1, queued. cbn [waiters]. rewrite Hws, Hwsp.
      reflexivity.
  - rewrite (Hsame _ (fun σ => pending (cl σ))) by reflexivity.
    wsimpl. unfold σ2, σ1, queued. cbn. rewrite Hcl.
    apply delete_insert_eq.
  - rewrite (Hsame _ (fun σ => rd (conn (cl σ)))) by reflexivity.
    wsimpl. unfold σ2. reflexivity.
Qed.

End trip_facts.

(** ** Fatal errors *)

(** The loop of [flush] over the waiters [ws]: each of them gets the
    error and is woken, and nothing else changes. *)
Lemma flush_each (e : error) (ws : list loc) :
  forall σ : World,
  (forall w, w ∈ ws -> is_Some (heap σ !! w)) ->
  exists σ',
    for_each (fun w => update w (set_err (Some e)) ;; sema_Wake w) ws σ
    = (Ret tt, σ') /\
    cl σ' = cl σ /\ waiters σ' = waiters σ /\
    events σ' = events σ ++ (EvWake <$> ws) /\
    (forall w x, w ∈ ws -> heap σ !! w = Some x ->
       heap σ' !! w = Some (set_done true (set_err (Some e) x))) /\
    (forall w, w ∉ ws -> heap σ' !! w = heap σ !! w).
Proof.
  induction ws as [|w0 ws IH]; intros σ Hin.
  { exists σ. cbn. rewrite app_nil_r. repeat split.
    intros w x Hw. inversion Hw. }
  destruct (Hin w0) as [x0 Hx0]; [left|].
  cbn [for_each]. unfold sema_Wake. rewrite !bind_assoc.
  erewrite bind_Ret by (apply update_ok; eauto).
  rewrite bind_assoc.
  erewrite bind_Ret by (apply update_ok; wsimpl; apply lookup_insert_eq).
  wsimpl. rewrite on_heap_insert_insert.
  erewrite bind_Ret by reflexivity.
  set (σ1 := emit (EvWake w0)
               (on_heap (<[w0 := set_done true (set_err (Some e) x0)]>) σ)).
  destruct (IH σ1) as (σ' & E & Hcl & Hws & Hev & Hset & Hkeep).
  { intros w Hw. unfold σ1. wsimpl.
    destruct (decide (w = w0)) as [->|Hne].
    - rewrite lookup_insert_eq. eauto.
    - rewrite lookup_insert_ne by auto. apply Hin. right. exact Hw. }
  exists σ'. split; [exact E|]. split; [rewrite Hcl; reflexivity|].
  split; [rewrite Hws; reflexivity|]. split.
  { rewrite Hev. unfold σ1. wsimpl. rewrite <- app_assoc. reflexivity. }
  split.
  - intros w x Hw Hx. destruct (decide (w ∈ ws)) as [Hws'|Hws'].
    + destruct (decide (w = w0)) as [->|Hne].
      * rewrite Hx0 in Hx. injection Hx as <-.
        erewrite Hset; [|exact Hws' | unfold σ1; wsimpl; apply lookup_insert_eq].
        reflexivity.
      * apply Hset; [exact Hws'|]. unfold σ1. wsimpl.
        rewrite lookup_insert_ne by auto. exact Hx.
    + apply elem_of_cons in Hw as [->|Hw]; [|contradiction].
      rewrite Hkeep by exact Hws'. unfold σ1. wsimpl.
      rewrite lookup_insert_eq. rewrite Hx0 in Hx. injection Hx as <-.
      reflexivity.
  - intros w Hw. apply not_elem_of_cons in Hw as [Hne Hw].
    rewrite Hkeep by exact Hw. unfold σ1. wsimpl.
    apply lookup_insert_ne. auto.
Qed.

(** [flush] on a pending map whose waiters are in the store. *)
Lemma pending_flush_ok (e : error) (σ : World) :
  (forall s w, pending (cl σ) !! s = Some w -> is_Some (heap σ !! w)) ->
  exists σ',
    pending_flush e σ = (Ret tt, σ') /\
    cl σ' = set_pending ∅ (cl σ) /\ waiters σ' = waiters σ /\
    (forall s w x, pending (cl σ) !! s = Some w -> heap σ !! w = Some x ->
       heap σ' !! w = Some (set_done true (set_err (Some e) x))) /\
    (forall w, (forall s, pending (cl σ) !! s <> Some w) ->
       heap σ' !! w = heap σ !! w).
Proof.
  intros Hin. unfold pending_flush.
  erewrite bind_Ret by reflexivity. erewrite bind_Ret by reflexivity.
  set (ws := (map_to_list (pending (cl σ))).*2).
  assert (forall w, w ∈ ws <-> exists s, pending (cl σ) !! s = Some w) as Hws.
  { intros w. unfold ws. rewrite list_elem_of_fmap. split.
    - intros ([s w'] & -> & Hsw). apply elem_of_map_to_list in Hsw. eauto.
    - intros [s Hs]. exists (s, w). split; [reflexivity|].
      apply elem_of_map_to_list. exact Hs. }
  destruct (flush_each e ws (on_cl (set_pending ∅) σ))
    as (σ' & E & Hcl & Hwt & _ & Hset & Hkeep).
  { intros w Hw. apply Hws in Hw as [s Hs]. wsimpl. eapply Hin, Hs. }
  exists σ'. split; [exact E|]. split; [exact Hcl|]. split; [exact Hwt|].
  split.
  - intros s w x Hs Hx. apply Hset; [|exact Hx]. apply Hws. eauto.
  - intros w Hw. apply Hkeep. intros Hin'. apply Hws in Hin' as [s Hs].
    exact (Hw s Hs).
Qed.

Section fatal_facts.
Context `{Decls}.

(** [closeError] on an open client whose pending waiters are in the
    store. *)
Lemma closeError_open (e : error) (σ : World) :
  state (cl σ) = clientOpen ->
  (forall s w, pending (cl σ) !! s = Some w -> is_Some (heap σ !! w)) ->
  exists r σ',
    closeError e σ = (r, σ') /\
    state (cl σ') = clientClosed /\ pending (cl σ') = ∅ /\
    wg (cl σ') = wg (cl σ) /\ waiters σ' = waiters σ /\
    (forall s w x, pending (cl σ) !! s = Some w -> heap σ !! w = Some x ->
       heap σ' !! w
       = Some (set_done true
                 (set_err (Some (Errorf "synapse: fatal error: %s" e)) x))) /\
    (forall w, (forall s, pending (cl σ) !! s <> Some w) ->
       heap σ' !! w = heap σ !! w) /\
    (wg (cl σ) <> 0 ->
     r = Park /\ cl σ' = set_pending ∅ (set_state clientClosed (cl σ))) /\
    (wg (cl σ) = 0 ->
     done_closed (cl σ) = false -> writing_closed (cl σ) = false ->
     r = Ret tt /\ conn_closed (conn (cl σ')) = true /\
     done_closed (cl σ') = true /\ writing_closed (cl σ') = true).
Proof.
  intros Hst Hin. unfold closeError.
  erewrite bind_Ret.
  2:{ unfold CompareAndSwapUint32_state. rewrite Hst, Z.eqb_refl.
      reflexivity. }
  cbn [negb].
  set (e' := Errorf "synapse: fatal error: %s" e).
  set (σ0 := on_cl (set_state clientClosed) σ).
  destruct (pending_flush_ok e' σ0)
    as (σf & E & Hcl & Hwt & Hset & Hkeep); [exact Hin|].
  rewrite (bind_Ret _ _ _ _ _ E).
  erewrite bind_Ret by (apply flush_loop_empty; rewrite Hcl; reflexivity).
  unfold closeError_resume, wg_Wait. unfold bind at 1.
  rewrite Hcl. cbn [wg set_pending σ0 on_cl cl set_state].
  destruct (Z.eqb_spec (wg (cl σ)) 0) as [Hwg|Hwg].
  + unfold close_done, close_writing, conn_Close, bind, ret.
    rewrite Hcl. cbn.
    destruct (done_closed (cl σ)) eqn:Hdc.
    { eexists _, _. split; [reflexivity|]. rewrite Hcl. cbn.
      repeat split; auto; try contradiction; discriminate. }
    cbn. rewrite Hcl. cbn.
    destruct (writing_closed (cl σ)) eqn:Hwc.
    { eexists _, _. split; [reflexivity|]. cbn. rewrite Hcl. cbn.
      repeat split; auto; try contradiction; discriminate. }
    eexists _, _. split; [reflexivity|]. cbn. rewrite Hcl. cbn.
    repeat split; auto; contradiction.
  + eexists _, _. split; [reflexivity|]. rewrite Hcl. cbn.
    repeat split; auto; contradiction.
Qed.

(** X12. [closeError] on a client that is not open does nothing. On an
    open client it closes the state and empties the pending map; every
    waiter that was pending carries the fatal error and is woken, and no
    other waiter is touched. It then waits for the callers: it parks
    while some are outstanding, and with none it closes both channels and
    the connection. *)
Theorem closeError_fails_every_pending_call (e : error) (σ : World) :
  (state (cl σ) <> clientOpen -> closeError e σ = (Ret tt, σ)) /\
  (state (cl σ) = clientOpen ->
   (forall s w, pending (cl σ) !! s = Some w -> is_Some (heap σ !! w)) ->
   exists r σ',
     closeError e σ = (r, σ') /\
     state (cl σ') = clientClosed /\ pending (cl σ') = ∅ /\
     wg (cl σ') = wg (cl σ) /\
     (forall s w x, pending (cl σ) !! s = Some w -> heap σ !! w = Some x ->
        heap σ' !! w
        = Some (set_done true
                  (set_err (Some (Errorf "synapse: fatal error: %s" e)) x))) /\
     (forall w, (forall s, pending (cl σ) !! s <> Some w) ->
        heap σ' !! w = heap σ !! w) /\
     (wg (cl σ) <> 0 -> r = Park /\ conn (cl σ') = conn (cl σ)) /\
     (wg (cl σ) = 0 ->
      done_closed (cl σ) = false -> writing_closed (cl σ) = false ->
      r = Ret tt /\ conn_closed (conn (cl σ')) = true /\
      done_closed (cl σ') = true /\ writing_closed (cl σ') = true)).
Proof.
  split.
  - intros Hst. unfold closeError, bind, CompareAndSwapUint32_state.
    destruct (Z.eqb_spec (state (cl σ)) clientOpen) as [|_]; [contradiction|].
    reflexivity.
  - intros Hst Hin.
    destruct (closeError_open e σ Hst Hin)
      as (r & σ' & E & Hs & Hp & Hwg & _ & Hset & Hkeep & Hpark & Hret).
    exists r, σ'. repeat split; auto.
    + apply Hpark. assumption.
    + destruct (Hpark ltac:(assumption)) as [_ ->]. reflexivity.
    + apply Hret; assumption.
    + apply Hret; assumption.
    + apply Hret; assumption.
    + apply Hret; assumption.
Qed.

End fatal_facts.

Section broken_facts.
Context `{Decls}.

(** The rest of [closeError] once no caller is outstanding. *)
Lemma closeError_resume_ok (σ : World) :
  wg (cl σ) = 0 ->
  done_closed (cl σ) = false ->
  writing_closed (cl σ) = false ->
  exists σ',
    closeError_resume σ = (Ret tt, σ') /\
    conn_closed (conn (cl σ')) = true /\
    done_closed (cl σ') = true /\ writing_closed (cl σ') = true /\
    events σ' = events σ ++ [EvCloseDone; EvCloseWriting; EvConnClose].
Proof.
  intros Hwg Hdc Hwc.
  unfold closeError_resume, wg_Wait, close_done, close_writing, conn_Close,
    bind, ret.
  rewrite Hwg. cbn. rewrite Hdc. cbn. rewrite Hwc. cbn.
  eexists. split; [reflexivity|]. cbn. rewrite <- !app_assoc. auto.
Qed.
Context {T : Type}.
Variable UnmarshalMsg : T -> list byte -> T * list byte * option error.

(** X13. A call whose connection fails. On an open client without
    outstanding operations, [Call] queues the request and parks. When the
    transport fails before a whole lead has arrived, the pass of the
    reader ends in [closeError], which closes the state, wakes the caller
    with the fatal error and waits for it. The caller returns that error
    and leaves its argument [out] alone, and the counter of outstanding
    operations and the free list are as before the call. The rest of
    [closeError] then closes the connection. *)
Theorem Call_fails_when_the_connection_fails (method : Z)
    (inp : option Marshaler) (reqbody : list byte) (out : option T)
    (σ : World) (e : error) :
  pool_ok σ ->
  state (cl σ) = clientOpen ->
  wg (cl σ) = 0 ->
  pending (cl σ) = ∅ ->
  writing_closed (cl σ) = false ->
  done_closed (cl σ) = false ->
  (length (writing (cl σ)) < waiterHWM)%nat ->
  encodes inp reqbody ->
  5 + Z.of_nat (length reqbody) <= 65535 ->
  conn_closed (conn (cl σ)) = false ->
  (length (rd (conn (cl σ))) < leadSize)%nat ->
  rd_err (conn (cl σ)) = Some e ->
  exists w σ1 σ2 σ3 σ4,
    Call UnmarshalMsg method inp out σ = (Park, σ1) /\
    readLoop_iter σ1 = (Park, σ2) /\
    state (cl σ2) = clientClosed /\
    Call_resume UnmarshalMsg w out σ2
    = (Ret (out, Some (Errorf "synapse: fatal error: %s" e)), σ3) /\
    wg (cl σ3) = 0 /\ waiters σ3 = waiters σ /\
    closeError_resume σ3 = (Ret tt, σ4) /\
    conn_closed (conn (cl σ4)) = true.
Proof.
  intros Hpool Hopen Hwg Hpend Hwc Hdc Hl Henc Hsz Hcc Hshort Herr.
  destruct (Call_parks UnmarshalMsg method inp out reqbody σ)
    as (w & x & σp & buf & Epop & Hx & Hd & Hcl & Hev & Hcase & ECall);
    auto; [lia|].
  set (sn := wrap64 (csn (cl σ) + 1)) in *.
  set (σ1 := queued w x sn buf σp) in *.
  set (x1 := mkWaiter sn (done x) (err x) buf false (static x)).
  assert (heap σ1 !! w = Some x1) as Hx1.
  { unfold σ1, queued. cbn [heap]. apply lookup_insert_eq. }
  (* the read of the lead fails *)
  assert (conn (cl σ1) = conn (cl σ)) as Hconn1.
  { unfold σ1, queued. cbn. rewrite Hcl. reflexivity. }
  set (σr := on_cl (set_conn (set_rd [] (conn (cl σ)))) σ1).
  assert (ReadFull leadSize σ1 = (Ret (rd (conn (cl σ)), Some e), σr)) as Eread.
  { unfold ReadFull. rewrite Hconn1, Hcc.
    destruct (Nat.leb_spec leadSize (length (rd (conn (cl σ))))); [lia|].
    rewrite Herr. reflexivity. }
  destruct (closeError_open e σr)
    as (r & σ2 & Eclose & Hs2 & Hp2 & Hwg2 & Hws2 & Hset & _ & Hpark & _).
  { unfold σr, σ1, queued. cbn. rewrite Hcl. exact Hopen. }
  { intros s w'. unfold σr, σ1, queued. cbn. rewrite Hcl, Hpend.
    intros Hs. apply lookup_insert_Some in Hs as [[_ <-]|[_ Hs]].
    - rewrite lookup_insert_eq. eauto.
    - rewrite lookup_empty in Hs. discriminate. }
  assert (wg (cl σr) = 1) as Hwgr.
  { unfold σr, σ1, queued. cbn. rewrite Hcl, Hwg. reflexivity. }
  destruct Hpark as [-> Hcl2]; [rewrite Hwgr; discriminate|].
  assert (heap σ2 !! w
          = Some (mkWaiter sn true
                    (Some (Errorf "synapse: fatal error: %s" e)) buf false
                    (static x)))
    as Hx2.
  { rewrite (Hset sn w x1); [reflexivity | | exact Hx1].
    unfold σr, σ1, queued. cbn. apply lookup_insert_eq. }
  assert (readLoop_iter σ1 = (Park, σ2)) as Eiter.
  { unfold readLoop_iter. rewrite (bind_Ret _ _ _ _ _ Eread).
    cbn [snd do_]. rewrite bind_assoc. unfold bind at 1. rewrite Eclose.
    reflexivity. }
  (* the caller is woken *)
  assert (exists σ3,
            Call_resume UnmarshalMsg w out σ2
            = (Ret (out, Some (Errorf "synapse: fatal error: %s" e)), σ3) /\
            wg (cl σ3) = 0 /\ waiters σ3 = waiters σ /\
            done_closed (cl σ3) = false /\ writing_closed (cl σ3) = false)
    as (σ3 & Eresume & Hwg3 & Hws3 & Hdc3 & Hwc3).
  { unfold Call_resume, call_resume. rewrite !bind_assoc.
    erewrite bind_Ret by (apply sema_Wait_ok; [exact Hx2 | reflexivity]).
    rewrite bind_assoc.
    erewrite bind_Ret by (apply wg_Add_ok; wsimpl; rewrite Hwg2, Hwgr; lia).
    rewrite bind_assoc.
    erewrite bind_Ret
      by (unfold deref; wsimpl; rewrite lookup_insert_eq; reflexivity).
    cbn [err set_done].
    erewrite bind_Ret by reflexivity.
    erewrite bind_Ret
      by (apply waiters_push_ok; wsimpl; apply lookup_insert_eq).
    cbn [static]. unfold ret. eexists. split; [reflexivity|].
    assert (forall (A : Type) (f : World -> A) (b : bool) ws σ0,
              (forall ws, f (set_waiters ws σ0) = f σ0) ->
              f (if b then set_waiters ws σ0 else σ0) = f σ0) as Hsame.
    { intros A f b ws σ0 Hf. destruct b; [apply Hf | reflexivity]. }
    split; [|split; [|split]].
    - rewrite (Hsame _ (fun σ => wg (cl σ))) by reflexivity.
      wsimpl. rewrite Hwg2, Hwgr. reflexivity.
    - destruct Hcase as [(Hs & Hws) | (Hs & Hws & Hwsp)]; rewrite Hs.
      + wsimpl. rewrite Hws2. unfold σr, σ1, queued. cbn [waiters on_cl].
        symmetry. exact Hws.
      + wsimpl. rewrite Hws2. unfold σr, σ1, queued. cbn [waiters on_cl].
        rewrite Hws, Hwsp. reflexivity.
    - rewrite (Hsame _ (fun σ => done_closed (cl σ))) by reflexivity.
      wsimpl. rewrite Hcl2. unfold σr, σ1, queued. cbn. rewrite Hcl.
      exact Hdc.
    - rewrite (Hsame _ (fun σ => writing_closed (cl σ))) by reflexivity.
      wsimpl. rewrite Hcl2. unfold σr, σ1, queued. cbn. rewrite Hcl.
      exact Hwc. }
  destruct (closeError_resume_ok σ3 Hwg3 Hdc3 Hwc3) as (σ4 & Efin & Hcc4 & _).
  exists w, σ1, σ2, σ3, σ4. auto 10.
Qed.

End broken_facts.

(** ** Timeouts *)

(** What [reap] does with one entry. *)
Lemma reap_entry_ok (s : Z) (w : loc) (x : waiter) (σ : World) :
  heap σ !! w = Some x ->
  reap_entry s w σ
  = (Ret tt,
     if reap x then
       emit (EvWake w)
         (on_heap (<[w := set_done true (set_err (Some ErrTimeout) x)]>)
            (on_cl (fun c => set_pending (delete s (pending c)) c) σ))
     else on_heap (<[w := set_reap true x]>) σ).
Proof.
  intros Hx. unfold reap_entry, bind at 1, deref. rewrite Hx.
  destruct (reap x).
  - erewrite bind_Ret by reflexivity.
    erewrite bind_Ret by (apply update_ok; wsimpl; eauto).
    unfold sema_Wake.
    erewrite bind_Ret by (apply update_ok; wsimpl; apply lookup_insert_eq).
    wsimpl. rewrite on_heap_insert_insert. reflexivity.
  - apply update_ok. exact Hx.
Qed.

(** The pass of [reap] over entries that are neither under the key [s0]
    nor on the waiter [w0] leaves both alone. *)
Lemma reap_frame (s0 : Z) (w0 : loc) (l : list (Z * loc)) :
  forall σ : World,
  (forall s w, (s, w) ∈ l -> s <> s0 /\ w <> w0 /\ is_Some (heap σ !! w)) ->
  exists σ',
    for_each (fun sw => reap_entry sw.1 sw.2) l σ = (Ret tt, σ') /\
    heap σ' !! w0 = heap σ !! w0 /\
    pending (cl σ') !! s0 = pending (cl σ) !! s0 /\
    (forall s w, pending (cl σ') !! s = Some w -> pending (cl σ) !! s = Some w) /\
    (forall w, is_Some (heap σ !! w) -> is_Some (heap σ' !! w)) /\
    (forall c, cl σ = c ->
       cl σ' = set_pending (pending (cl σ')) c) /\
    waiters σ' = waiters σ /\ brk σ' = brk σ.
Proof.
  induction l as [|[s1 w1] l IH]; intros σ Hl.
  { exists σ. cbn. repeat split; auto. intros c <-. destruct (cl σ).
    reflexivity. }
  destruct (Hl s1 w1) as (Hs1 & Hw1 & [x1 Hx1]); [left|].
  cbn [for_each fst snd].
  erewrite bind_Ret by (apply reap_entry_ok; exact Hx1).
  match goal with |- context [for_each _ l ?s] => set (σ1 := s) end.
  assert (heap σ1 !! w0 = heap σ !! w0 /\
          pending (cl σ1) !! s0 = pending (cl σ) !! s0 /\
          (forall s w, pending (cl σ1) !! s = Some w ->
             pending (cl σ) !! s = Some w) /\
          (forall w, is_Some (heap σ !! w) -> is_Some (heap σ1 !! w)) /\
          cl σ1 = set_pending (pending (cl σ1)) (cl σ) /\
          waiters σ1 = waiters σ /\ brk σ1 = brk σ)
    as (Hh1 & Hp1 & Hsub1 & Hdom1 & Hcl1 & Hws1 & Hbrk1).
  { unfold σ1. destruct (reap x1); wsimpl.
    - split; [apply lookup_insert_ne; auto|].
      split; [apply lookup_delete_ne; auto|].
      split.
      { intros s w Hs. apply lookup_delete_Some in Hs as [_ Hs]. exact Hs. }
      split.
      { intros w Hw. destruct (decide (w = w1)) as [->|Hne].
        - rewrite lookup_insert_eq. eauto.
        - rewrite lookup_insert_ne by auto. exact Hw. }
      repeat split.
    - split; [apply lookup_insert_ne; auto|].
      split; [reflexivity|]. split; [auto|]. split.
      { intros w Hw. destruct (decide (w = w1)) as [->|Hne].
        - rewrite lookup_insert_eq. eauto.
        - rewrite lookup_insert_ne by auto. exact Hw. }
      split; [destruct (cl σ); reflexivity|]. split; reflexivity. }
  destruct (IH σ1) as (σ' & E & Hh & Hp & Hsub & Hdom & Hcl & Hws & Hbrk).
  { intros s w Hsw. destruct (Hl s w) as (? & ? & ?); [right; exact Hsw|].
    auto. }
  exists σ'. split; [exact E|]. rewrite Hh, Hp, Hws, Hbrk.
  repeat split; auto.
  intros c <-. rewrite (Hcl _ eq_refl), Hcl1. reflexivity.
Qed.

(** The pass of [reap] over entries with distinct keys, one of them the
    entry of the waiter [w0] under [s0], and no other on [w0]: a waiter
    that was not marked is marked and stays registered; one that was
    marked is removed, gets [ErrTimeout] and is woken. *)
Lemma reap_each (s0 : Z) (w0 : loc) (x0 : waiter) (l : list (Z * loc)) :
  forall σ : World,
  NoDup l.*1 ->
  (s0, w0) ∈ l ->
  (forall s w, (s, w) ∈ l -> is_Some (heap σ !! w) /\ (w = w0 -> s = s0)) ->
  heap σ !! w0 = Some x0 ->
  exists σ',
    for_each (fun sw => reap_entry sw.1 sw.2) l σ = (Ret tt, σ') /\
    (if reap x0
     then heap σ' !! w0
          = Some (set_done true (set_err (Some ErrTimeout) x0)) /\
          pending (cl σ') !! s0 = None
     else heap σ' !! w0 = Some (set_reap true x0) /\
          pending (cl σ') !! s0 = pending (cl σ) !! s0) /\
    (forall s w, pending (cl σ') !! s = Some w -> pending (cl σ) !! s = Some w) /\
    (forall w, is_Some (heap σ !! w) -> is_Some (heap σ' !! w)) /\
    cl σ' = set_pending (pending (cl σ')) (cl σ) /\
    waiters σ' = waiters σ /\ brk σ' = brk σ.
Proof.
  induction l as [|[s1 w1] l IH]; intros σ Hnd Hin Hl Hx0.
  { inversion Hin. }
  cbn [fmap list_fmap fst] in Hnd. apply NoDup_cons in Hnd as [Hs1 Hnd].
  destruct (Hl s1 w1) as ([x1 Hx1] & Hkey1); [left|].
  cbn [for_each fst snd].
  erewrite bind_Ret by (apply reap_entry_ok; exact Hx1).
  match goal with |- context [for_each _ l ?s] => set (σ1 := s) end.
  destruct (decide (w1 = w0)) as [->|Hne].
  - (* the entry of [w0] *)
    assert (s1 = s0) as -> by auto.
    rewrite Hx0 in Hx1. injection Hx1 as <-.
    destruct (reap_frame s0 w0 l σ1)
      as (σ' & E & Hh & Hp & Hsub & Hdom & Hcl & Hws & Hbrk).
    { intros s w Hsw. split; [|split].
      - intros ->. apply Hs1. apply list_elem_of_fmap. exists (s0, w).
        split; [reflexivity | exact Hsw].
      - intros ->. destruct (Hl s w0) as [_ Hk]; [right; exact Hsw|].
        apply Hs1. apply list_elem_of_fmap. exists (s, w0).
        split; [symmetry; apply Hk; reflexivity | exact Hsw].
      - destruct (Hl s w) as [[x Hx] _]; [right; exact Hsw|].
        unfold σ1. destruct (reap x0); wsimpl.
        + destruct (decide (w = w0)) as [->|Hne'].
          * rewrite lookup_insert_eq. eauto.
          * rewrite lookup_insert_ne by auto. eauto.
        + destruct (decide (w = w0)) as [->|Hne'].
          * rewrite lookup_insert_eq. eauto.
          * rewrite lookup_insert_ne by auto. eauto. }
    exists σ'. split; [exact E|]. rewrite Hh, Hp, Hws, Hbrk.
    unfold σ1. destruct (reap x0) eqn:Hr; wsimpl.
    + rewrite lookup_insert_eq, lookup_delete_eq.
      split; [auto|]. split.
      { intros s w Hsw. apply Hsub in Hsw. unfold σ1 in Hsw. wsimpl.
        apply lookup_delete_Some in Hsw as [_ Hsw]. exact Hsw. }
      split.
      { intros w Hw. apply Hdom. unfold σ1. wsimpl.
        destruct (decide (w = w0)) as [->|Hne'].
        - rewrite lookup_insert_eq. eauto.
        - rewrite lookup_insert_ne by auto. exact Hw. }
      split; [|auto].
      rewrite (Hcl _ eq_refl). unfold σ1. wsimpl. reflexivity.
    + rewrite lookup_insert_eq.
      split; [auto|]. split.
      { intros s w Hsw. apply Hsub in Hsw. unfold σ1 in Hsw. exact Hsw. }
      split.
      { intros w Hw. apply Hdom. unfold σ1. wsimpl.
        destruct (decide (w = w0)) as [->|Hne'].
        - rewrite lookup_insert_eq. eauto.
        - rewrite lookup_insert_ne by auto. exact Hw. }
      split; [|auto].
      rewrite (Hcl _ eq_refl). unfold σ1. wsimpl.
      destruct (cl σ); reflexivity.
  - (* another entry *)
    assert ((s0, w0) ∈ l) as Hin'.
    { apply elem_of_cons in Hin as [Heq|Hin]; [|exact Hin].
      injection Heq as _ <-. contradiction. }
    assert (s1 <> s0) as Hsne.
    { intros ->. apply Hs1. apply list_elem_of_fmap. exists (s0, w0).
      split; [reflexivity | exact Hin']. }
    assert (heap σ1 !! w0 = Some x0 /\
            pending (cl σ1) !! s0 = pending (cl σ) !! s0 /\
            (forall s w, pending (cl σ1) !! s = Some w ->
               pending (cl σ) !! s = Some w) /\
            (forall w, is_Some (heap σ !! w) -> is_Some (heap σ1 !! w)) /\
            cl σ1 = set_pending (pending (cl σ1)) (cl σ) /\
            waiters σ1 = waiters σ /\ brk σ1 = brk σ)
      as (Hh1 & Hp1 & Hsub1 & Hdom1 & Hcl1 & Hws1 & Hbrk1).
    { unfold σ1. destruct (reap x1); wsimpl.
      - split; [rewrite lookup_insert_ne by auto; exact Hx0|].
        split; [apply lookup_delete_ne; auto|].
        split.
        { intros s w Hs. apply lookup_delete_Some in Hs as [_ Hs]. exact Hs. }
        split.
        { intros w Hw. destruct (decide (w = w1)) as [->|Hne'].
          - rewrite lookup_insert_eq. eauto.
          - rewrite lookup_insert_ne by auto. exact Hw. }
        repeat split.
      - split; [rewrite lookup_insert_ne by auto; exact Hx0|].
        split; [reflexivity|]. split; [auto|]. split.
        { intros w Hw. destruct (decide (w = w1)) as [->|Hne'].
          - rewrite lookup_insert_eq. eauto.
          - rewrite lookup_insert_ne by auto. exact Hw. }
        split; [destruct (cl σ); reflexivity|]. split; reflexivity. }
    destruct (IH σ1 Hnd Hin') as (σ' & E & Hcase & Hsub & Hdom & Hcl & Hws & Hbrk).
    { intros s w Hsw. destruct (Hl s w) as [Hw Hk]; [right; exact Hsw|].
      split; [apply Hdom1, Hw | exact Hk]. }
    { exact Hh1. }
    exists σ'. split; [exact E|]. split.
    { destruct (reap x0); [exact Hcase|]. rewrite <- Hp1. exact Hcase. }
    split; [auto|]. split; [auto|]. split.
    { rewrite Hcl, Hcl1. reflexivity. }
    split; congruence.
Qed.

(** [reap] on a world whose pending waiters are in the store and are
    registered once: what it does to the waiter [w0] under [s0]. *)
Lemma pending_reap_ok (s0 : Z) (w0 : loc) (x0 : waiter) (σ : World) :
  pending (cl σ) !! s0 = Some w0 ->
  heap σ !! w0 = Some x0 ->
  (forall s w, pending (cl σ) !! s = Some w ->
     is_Some (heap σ !! w) /\ (w = w0 -> s = s0)) ->
  exists σ',
    pending_reap σ = (Ret tt, σ') /\
    (if reap x0
     then heap σ' !! w0
          = Some (set_done true (set_err (Some ErrTimeout) x0)) /\
          pending (cl σ') !! s0 = None
     else heap σ' !! w0 = Some (set_reap true x0) /\
          pending (cl σ') !! s0 = Some w0) /\
    (forall s w, pending (cl σ') !! s = Some w -> pending (cl σ) !! s = Some w) /\
    (forall w, is_Some (heap σ !! w) -> is_Some (heap σ' !! w)) /\
    cl σ' = set_pending (pending (cl σ')) (cl σ) /\
    waiters σ' = waiters σ /\ brk σ' = brk σ.
Proof.
  intros Hs0 Hx0 Hall. unfold pending_reap.
  erewrite bind_Ret by reflexivity.
  destruct (reap_each s0 w0 x0 (map_to_list (pending (cl σ))) σ)
    as (σ' & E & Hcase & Hrest).
  - apply NoDup_fst_map_to_list.
  - apply elem_of_map_to_list. exact Hs0.
  - intros s w Hsw. apply elem_of_map_to_list in Hsw. apply Hall, Hsw.
  - exact Hx0.
  - exists σ'. split; [exact E|]. split; [|exact Hrest].
    destruct (reap x0); [exact Hcase|]. rewrite <- Hs0. exact Hcase.
Qed.

(** [pop] returns the head of the free list or the waiter at the
    allocation mark, and leaves the other waiters alone. *)
Lemma waiters_pop_frame (w : loc) (σ σp : World) :
  waiters_pop σ = (Ret w, σp) ->
  (w ∈ waiters σ \/ w = brk σ) /\
  (forall w', w' <> w -> heap σp !! w' = heap σ !! w').
Proof.
  unfold waiters_pop. destruct (waiters σ) as [|w0 rest] eqn:Hws.
  - intros E. injection E as <- <-. split; [right; reflexivity|].
    intros w' Hne. cbn. apply lookup_insert_ne. auto.
  - intros E. apply bind_Ret_inv in E as (u & σ1 & E1 & E).
    apply update_Ret in E1 as (x & Hx & ->). apply ret_Ret in E as [-> ->].
    split; [left; left|]. intros w' Hne. cbn. apply lookup_insert_ne. auto.
Qed.

Section timeout_facts.
Context `{Decls}.
Context {T : Type}.
Variable UnmarshalMsg : T -> list byte -> T * list byte * option error.

(** One tick of the scavenger while the client is not closed: a pass of
    [reap], after which the loop blocks again. *)
Lemma timeoutLoop_tick (takes_done : bool) (σ σ' : World) :
  done_closed (cl σ) = false ->
  pending_reap σ = (Ret tt, σ') ->
  done_closed (cl σ') = false ->
  timeoutLoop [takes_done] σ = (Park, σ').
Proof.
  intros Hdc E Hdc'. cbn [timeoutLoop].
  erewrite bind_Ret by reflexivity. rewrite Hdc. cbn [andb].
  rewrite (bind_Ret _ _ _ _ _ E).
  erewrite bind_Ret by reflexivity. rewrite Hdc'. reflexivity.
Qed.

(** X14. A call that gets no response. On an open client, [Call] queues
    the request and parks. The first tick of the scavenger after that
    only marks the waiter: it stays registered and the caller stays
    blocked. The second tick removes it from the pending map and wakes
    the caller, which returns [ErrTimeout] and leaves [out] alone; the
    counter of outstanding operations and the free list are then as
    before the call. *)
Theorem Call_times_out_at_the_second_tick (method : Z)
    (inp : option Marshaler) (reqbody : list byte) (out : option T)
    (σ : World) (t1 t2 : bool) :
  pool_ok σ ->
  pending_ok σ ->
  state (cl σ) = clientOpen ->
  0 <= wg (cl σ) ->
  writing_closed (cl σ) = false ->
  done_closed (cl σ) = false ->
  (length (writing (cl σ)) < waiterHWM)%nat ->
  encodes inp reqbody ->
  5 + Z.of_nat (length reqbody) <= 65535 ->
  let sn := wrap64 (csn (cl σ) + 1) in
  exists w σ1 σ2 σ3 σ4,
    Call UnmarshalMsg method inp out σ = (Park, σ1) /\
    timeoutLoop [t1] σ1 = (Park, σ2) /\
    pending (cl σ2) !! sn = Some w /\
    Call_resume UnmarshalMsg w out σ2 = (Park, σ2) /\
    timeoutLoop [t2] σ2 = (Park, σ3) /\
    pending (cl σ3) !! sn = None /\
    Call_resume UnmarshalMsg w out σ3 = (Ret (out, Some ErrTimeout), σ4) /\
    wg (cl σ4) = wg (cl σ) /\ waiters σ4 = waiters σ.
Proof.
  intros Hpool Hpend Hopen Hwg Hwc Hdc Hl Henc Hsz sn.
  destruct (Call_parks UnmarshalMsg method inp out reqbody σ)
    as (w & x & σp & buf & Epop & Hx & Hd & Hcl & Hev & Hcase & ECall);
    auto.
  fold sn in ECall.
  destruct (waiters_pop_frame w σ σp Epop) as (Hwhere & Hframe).
  set (σ1 := queued w x sn buf σp) in *.
  set (x1 := mkWaiter sn false (err x) buf false (static x)).
  assert (heap σ1 !! w = Some x1) as Hx1.
  { unfold σ1, queued, x1. cbn [heap]. rewrite lookup_insert_eq, Hd.
    reflexivity. }
  assert (pending (cl σ1) !! sn = Some w) as Hp1.
  { unfold σ1, queued. cbn. apply lookup_insert_eq. }
  assert (forall s w', pending (cl σ1) !! s = Some w' ->
            is_Some (heap σ1 !! w') /\ (w' = w -> s = sn)) as Hall1.
  { intros s w'. unfold σ1, queued. cbn [cl pending heap]. rewrite Hcl.
    intros Hs. apply lookup_insert_Some in Hs as [[<- <-]|[Hne Hs]].
    - rewrite lookup_insert_eq. eauto.
    - destruct (Hpend s w' Hs) as (Hin & Hfree & Hbrk).
      assert (w' <> w) as Hne'.
      { intros ->. destruct Hwhere as [Hw| ->]; [contradiction | lia]. }
      rewrite lookup_insert_ne by auto. rewrite Hframe by exact Hne'.
      split; [exact Hin | contradiction]. }
  (* the first tick *)
  destruct (pending_reap_ok sn w x1 σ1 Hp1 Hx1 Hall1)
    as (σ2 & Ereap1 & Hcase1 & Hsub1 & Hdom1 & Hcl1 & Hws1 & _).
  cbn [reap x1] in Hcase1. destruct Hcase1 as [Hx2 Hp2].
  assert (done_closed (cl σ1) = false) as Hdc1.
  { unfold σ1, queued. cbn. rewrite Hcl. exact Hdc. }
  assert (done_closed (cl σ2) = false) as Hdc2.
  { rewrite Hcl1. exact Hdc1. }
  assert (forall s w', pending (cl σ2) !! s = Some w' ->
            is_Some (heap σ2 !! w') /\ (w' = w -> s = sn)) as Hall2.
  { intros s w' Hs. apply Hsub1 in Hs. destruct (Hall1 s w' Hs). auto. }
  (* the second tick *)
  destruct (pending_reap_ok sn w _ σ2 Hp2 Hx2 Hall2)
    as (σ3 & Ereap2 & Hcase2 & _ & _ & Hcl2 & Hws2 & _).
  cbn [reap set_reap x1] in Hcase2. destruct Hcase2 as [Hx3 Hp3].
  assert (done_closed (cl σ3) = false) as Hdc3.
  { rewrite Hcl2. exact Hdc2. }
  assert (wg (cl σ3) = wg (cl σ) + 1) as Hwg3.
  { rewrite Hcl2. cbn. rewrite Hcl1. unfold σ1, queued. cbn.
    rewrite Hcl. reflexivity. }
  assert (waiters σ3 = waiters σp) as Hws3.
  { rewrite Hws2, Hws1. reflexivity. }
  (* the caller *)
  subst x1. cbn [set_done set_err set_reap seq done err in_ reap static] in *.
  assert (exists σ4,
            Call_resume UnmarshalMsg w out σ3
            = (Ret (out, Some ErrTimeout), σ4) /\
            wg (cl σ4) = wg (cl σ) /\ waiters σ4 = waiters σ)
    as (σ4 & Eresume & Hwg4 & Hws4).
  { unfold Call_resume, call_resume. rewrite !bind_assoc.
    erewrite bind_Ret by (apply sema_Wait_ok; [exact Hx3 | reflexivity]).
    rewrite bind_assoc.
    erewrite bind_Ret by (apply wg_Add_ok; wsimpl; rewrite Hwg3; lia).
    rewrite bind_assoc.
    erewrite bind_Ret
      by (unfold deref; wsimpl; rewrite lookup_insert_eq; reflexivity).
    cbn [err set_done].
    erewrite bind_Ret by reflexivity.
    erewrite bind_Ret
      by (apply waiters_push_ok; wsimpl; apply lookup_insert_eq).
    cbn [static]. unfold ret. eexists. split; [reflexivity|].
    destruct Hcase as [(Hs & Hws) | (Hs & Hws & Hwsp)]; rewrite Hs; wsimpl.
    - rewrite Hwg3, Hws3, Hws. split; [lia | reflexivity].
    - rewrite Hwg3, Hws3, Hws, Hwsp. split; [lia | reflexivity]. }
  exists w, σ1, σ2, σ3, σ4.
  split; [exact ECall|].
  split; [apply timeoutLoop_tick; assumption|].
  split; [exact Hp2|]. split.
  { unfold Call_resume, call_resume. rewrite !bind_assoc. unfold bind at 1.
    erewrite sema_Wait_parks; [reflexivity | exact Hx2 | reflexivity]. }
  split; [apply timeoutLoop_tick; assumption|].
  auto.
Qed.

End timeout_facts.

Section command_facts.
Context `{Decls}.

(** [sendCommand] once its waiter is woken without an error: the three
    ways it ends. *)
Lemma sendCommand_resume_cases (w : loc) (x : waiter) (σ : World) :
  heap σ !! w = Some x ->
  done x = true ->
  err x = None ->
  1 <= wg (cl σ) ->
  let σ1 := on_cl (set_wg (wg (cl σ) - 1))
              (on_heap (<[w := set_done false x]>) σ) in
  let pushed := fun σ0 : World =>
    if static x then set_waiters (w :: waiters σ0) σ0 else σ0 in
  (in_ x = [] ->
   sendCommand_resume w σ = (Ret (Some errNoCmd), pushed σ1)) /\
  (forall b0 rest, in_ x = b0 :: rest ->
     u8 b0 = cmdInvalid \/ _maxcommand <= u8 b0 ->
     sendCommand_resume w σ = (Ret (Some errUnknownCmd), pushed σ1)) /\
  (forall b0 rest, in_ x = b0 :: rest ->
     u8 b0 <> cmdInvalid -> u8 b0 < _maxcommand ->
     sendCommand_resume w σ
     = (Ret None,
        pushed (on_cl (fun c => cmdDirectory_done (u8 b0) c rest) σ1))).
Proof.
  intros Hx Hd He Hwg. cbn zeta.
  assert (sendCommand_resume w σ
            = bind (in_get w)
                (fun b =>
                   match b with
                   | [] => waiters_push w ;; ret (Some errNoCmd)
                   | b0 :: rest =>
                     let r := u8 b0 in
                     if (r =? cmdInvalid) || (r >=? _maxcommand)
                     then waiters_push w ;; ret (Some errUnknownCmd)
                     else
                       modify (on_cl (fun c => cmdDirectory_done r c rest)) ;;
                       waiters_push w ;; ret None
                   end)
                (on_cl (set_wg (wg (cl σ) - 1))
                   (on_heap (<[w := set_done false x]>) σ))) as Hstart.
  { unfold sendCommand_resume.
    erewrite bind_Ret by (apply sema_Wait_ok; eauto).
    unfold wg_Done.
    erewrite bind_Ret by (apply wg_Add_ok; wsimpl; lia).
    erewrite bind_Ret
      by (unfold deref; wsimpl; rewrite lookup_insert_eq; reflexivity).
    cbn [err set_done]. rewrite He.
    replace (wg (cl σ) + -1) with (wg (cl σ) - 1) by lia. reflexivity. }
  rewrite Hstart. clear Hstart.
  erewrite bind_Ret by (apply in_get_ok; wsimpl; apply lookup_insert_eq).
  cbn [in_ set_done].
  split; [|split].
  - intros ->.
    erewrite bind_Ret
      by (apply waiters_push_ok; wsimpl; apply lookup_insert_eq).
    reflexivity.
  - intros b0 rest -> Hbad. cbv zeta.
    assert ((u8 b0 =? cmdInvalid) || (u8 b0 >=? _maxcommand) = true) as ->.
    { apply orb_true_iff. destruct Hbad as [Hb|Hb].
      - left. apply Z.eqb_eq. exact Hb.
      - right. apply Z.geb_le. exact Hb. }
    erewrite bind_Ret
      by (apply waiters_push_ok; wsimpl; apply lookup_insert_eq).
    reflexivity.
  - intros b0 rest -> Hne Hlt. cbv zeta.
    assert ((u8 b0 =? cmdInvalid) || (u8 b0 >=? _maxcommand) = false) as ->.
    { apply orb_false_iff. split.
      - apply Z.eqb_neq. exact Hne.
      - destruct (Z.geb_spec (u8 b0) _maxcommand); [lia | reflexivity]. }
    erewrite bind_Ret by reflexivity.
    erewrite bind_Ret
      by (apply waiters_push_ok; wsimpl; apply lookup_insert_eq).
    reflexivity.
Qed.

(** X15. [sendCommand] once its waiter is woken without an error. An
    empty response fails with [errNoCmd]; a response whose first byte is
    the invalid command or is not below [_maxcommand] fails with
    [errUnknownCmd]; otherwise the handler of the directory for that byte
    runs on the rest of the response and the result is nil. In all three
    cases the counter of outstanding operations is decremented and the
    waiter is handed to [push]. *)
Theorem sendCommand_checks_the_response (w : loc) (x : waiter) (σ : World) :
  heap σ !! w = Some x ->
  done x = true ->
  err x = None ->
  1 <= wg (cl σ) ->
  let σ1 := on_cl (set_wg (wg (cl σ) - 1))
              (on_heap (<[w := set_done false x]>) σ) in
  let pushed := fun σ0 : World =>
    if static x then set_waiters (w :: waiters σ0) σ0 else σ0 in
  (in_ x = [] ->
   sendCommand_resume w σ = (Ret (Some errNoCmd), pushed σ1)) /\
  (forall b0 rest, in_ x = b0 :: rest ->
     u8 b0 = cmdInvalid \/ _maxcommand <= u8 b0 ->
     sendCommand_resume w σ = (Ret (Some errUnknownCmd), pushed σ1)) /\
  (forall b0 rest, in_ x = b0 :: rest ->
     u8 b0 <> cmdInvalid -> u8 b0 < _maxcommand ->
     sendCommand_resume w σ
     = (Ret None,
        pushed (on_cl (fun c => cmdDirectory_done (u8 b0) c rest) σ1))).
Proof.
  exact (sendCommand_resume_cases w x σ).
Qed.

(** [sendCommand] on an open client whose queue has room: the command is
    queued on a waiter from the free list and the caller parks. *)
Lemma sendCommand_parks (cmd : Z) (msg : list byte) (σ : World) :
  pool_ok σ ->
  state (cl σ) = clientOpen ->
  0 <= wg (cl σ) ->
  writing_closed (cl σ) = false ->
  (length (writing (cl σ)) < waiterHWM)%nat ->
  Z.of_nat (length msg) + 1 <= maxMessageSize ->
  exists w x σp,
    waiters_pop σ = (Ret w, σp) /\
    heap σp !! w = Some x /\ done x = false /\
    cl σp = cl σ /\ events σp = events σ /\
    sendCommand cmd msg σ
    = (Park,
       queued w x (wrap64 (csn (cl σ) + 1))
         (copy_at (leadSize + 1) msg
            (<[leadSize := byte_of_Z cmd]>
               (putFrame
                  (resize (leadSize + Z.to_nat (Z.of_nat (length msg) + 1))
                     (in_ x))
                  (wrap64 (csn (cl σ) + 1)) fCMD
                  (Z.of_nat (length msg) + 1)))) σp).
Proof.
  intros Hpool Hopen Hwg Hc Hl Hsz.
  destruct (waiters_pop_ok σ Hpool)
    as (w & x & σp & Epop & Hx & Hd & Hcl & Hev & Hcase).
  exists w, x, σp.
  split; [exact Epop|]. split; [exact Hx|]. split; [exact Hd|].
  split; [exact Hcl|]. split; [exact Hev|].
  unfold sendCommand. rewrite (bind_Ret _ _ _ _ _ Epop).
  erewrite bind_Ret.
  2:{ apply (writeCommand_ok w x cmd msg σp); rewrite ?Hcl; auto.
      rewrite Hopen. discriminate. }
  cbv beta iota. unfold sendCommand_resume. rewrite Hcl.
  unfold bind at 1.
  erewrite sema_Wait_parks;
    [reflexivity | unfold queued; cbn [heap]; apply lookup_insert_eq | exact Hd].
Qed.



End command_facts.

(** ** The writer *)

Section writer_facts.
Context `{Decls} {W : Type}.
Variable bwr_Write : W -> list byte -> W * option error.
Variable bwr_Flush : W -> W * option error.

Lemma write_waiter_ok (bw bw' : W) (w : loc) (b : list byte) (σ : World) :
  in_ <$> heap σ !! w = Some b ->
  bwr_Write bw b = (bw', None) ->
  (write_waiter bwr_Write) bw w σ = (Ret (bw', true), σ).
Proof.
  intros Hb Hw. unfold write_waiter.
  destruct (heap σ !! w) as [x|] eqn:Hx; [|discriminate].
  injection Hb as <-.
  erewrite bind_Ret by (apply in_get_ok; exact Hx).
  rewrite Hw. reflexivity.
Qed.

Lemma write_waiter_fails (bw bw' : W) (w : loc) (b : list byte) (e : error)
    (σ : World) :
  in_ <$> heap σ !! w = Some b ->
  bwr_Write bw b = (bw', Some e) ->
  (write_waiter bwr_Write) bw w σ = (closeError e ;; ret (bw', false)) σ.
Proof.
  intros Hb Hw. unfold write_waiter.
  destruct (heap σ !! w) as [x|] eqn:Hx; [|discriminate].
  injection Hb as <-.
  erewrite bind_Ret by (apply in_get_ok; exact Hx).
  rewrite Hw. cbn [do_]. rewrite bind_assoc. unfold bind.
  destruct (closeError e σ) as [[[]| |msg] σ']; reflexivity.
Qed.

(** From the label [more], the waiters at the head of the queue whose
    writes succeed are written one after the other. *)
Lemma writeLoop_more_prefix (ws : list loc) :
  forall (bs : list (list byte)) (rest : list loc) (bw bw1 : W) (σ : World)
         (fuel : nat),
  writing (cl σ) = ws ++ rest ->
  (length ws <= fuel)%nat ->
  buffers σ ws bs ->
  write_all bwr_Write bw bs = (bw1, None) ->
  (writeLoop_more bwr_Write bwr_Flush) fuel bw σ
  = (writeLoop_more bwr_Write bwr_Flush) (fuel - length ws) bw1 (on_cl (set_writing rest) σ).
Proof.
  induction ws as [|w ws IH]; intros bs rest bw bw1 σ fuel Hq Hfuel Hbs Hall.
  - inversion Hbs; subst. cbn in Hall. injection Hall as <-.
    cbn [length]. rewrite Nat.sub_0_r. cbn in Hq. rewrite <- Hq.
    destruct σ as [[] ? ? ? ? ?]. reflexivity.
  - inversion Hbs as [|w' b ws' bs' Hb Hbs']; subst.
    cbn [write_all] in Hall.
    destruct (bwr_Write bw b) as [bw' [e|]] eqn:Hw; [discriminate|].
    destruct fuel as [|fuel]; [cbn in Hfuel; lia|].
    cbn [app] in Hq. cbn [writeLoop_more].
    erewrite bind_Ret.
    2:{ unfold select_writing. rewrite Hq. reflexivity. }
    cbv beta iota.
    erewrite bind_Ret by (eapply write_waiter_ok; [exact Hb | exact Hw]).
    cbn [snd fst negb].
    rewrite (IH bs' rest bw' bw1 (on_cl (set_writing (ws ++ rest)) σ) fuel);
      [reflexivity | reflexivity | cbn in Hfuel; lia | exact Hbs' | exact Hall].
Qed.

(** X17. [writeLoop] writes the buffers of the queued waiters in the
    order of the queue, without a flush between them. On an open channel,
    when the writes and the flush that follows them succeed, the pass
    leaves the queue empty and the writer flushed once, and [writeLoop]
    then blocks on the channel. On a closed channel [writeLoop] writes
    what is left in the queue, flushes once (an error of this flush is
    dropped) and returns; when nothing is left it returns at once and
    leaves the writer as it is. *)
Theorem writeLoop_writes_the_queue_in_order (w : loc) (ws : list loc)
    (bs : list (list byte)) (bw bw1 : W) (σ : World) (fuel : nat) :
  buffers σ (w :: ws) bs ->
  write_all bwr_Write bw bs = (bw1, None) ->
  (writing (cl σ) = w :: ws -> writing_closed (cl σ) = false ->
   forall bw2, bwr_Flush bw1 = (bw2, None) ->
   (writeLoop_iter bwr_Write bwr_Flush) bw σ = (Ret (bw2, true), on_cl (set_writing []) σ) /\
   (writeLoop bwr_Write bwr_Flush) (S (S fuel)) bw σ = Some (Park, on_cl (set_writing []) σ)) /\
  (writing (cl σ) = w :: ws -> writing_closed (cl σ) = true ->
   (writeLoop bwr_Write bwr_Flush) (S fuel) bw σ
   = Some (Ret (bwr_Flush bw1).1, on_cl (set_writing []) σ)) /\
  (writing (cl σ) = [] -> writing_closed (cl σ) = true ->
   (writeLoop bwr_Write bwr_Flush) (S fuel) bw σ = Some (Ret bw, σ)).
Proof.
  intros Hbs Hall.
  inversion Hbs as [|w' b ws' bs' Hb Hbs']; subst.
  cbn [write_all] in Hall.
  destruct (bwr_Write bw b) as [bw' [e|]] eqn:Hw; [discriminate|].
  assert (writing (cl σ) = w :: ws ->
          (writeLoop_iter bwr_Write bwr_Flush) bw σ
          = (writeLoop_more bwr_Write bwr_Flush) 0 bw1 (on_cl (set_writing []) σ)) as Hiter.
  { intros Hq. unfold writeLoop_iter.
    erewrite bind_Ret.
    2:{ unfold recv_writing. rewrite Hq. reflexivity. }
    cbv beta iota.
    erewrite bind_Ret by (eapply write_waiter_ok; [exact Hb | exact Hw]).
    cbn [snd fst negb]. erewrite bind_Ret by reflexivity.
    cbn [cl on_cl writing set_writing].
    rewrite (writeLoop_more_prefix ws bs' [] bw' bw1);
      [ | cbn; rewrite app_nil_r; reflexivity | lia | exact Hbs' | exact Hall].
    rewrite Nat.sub_diag. reflexivity. }
  split; [|split].
  - intros Hq Hopen bw2 Hflush.
    assert ((writeLoop_iter bwr_Write bwr_Flush) bw σ = (Ret (bw2, true), on_cl (set_writing []) σ))
      as E.
    { rewrite (Hiter Hq). cbn [writeLoop_more].
      erewrite bind_Ret.
      2:{ unfold select_writing. cbn. rewrite Hopen. reflexivity. }
      cbv beta iota.
      rewrite Hflush. reflexivity. }
    split; [exact E|].
    cbn [writeLoop]. rewrite E.
    unfold writeLoop_iter, recv_writing, bind. cbn.
    rewrite Hopen. reflexivity.
  - intros Hq Hclosed. cbn [writeLoop].
    rewrite (Hiter Hq). cbn [writeLoop_more].
    erewrite bind_Ret.
    2:{ unfold select_writing. cbn. rewrite Hclosed. reflexivity. }
    cbv beta iota.
    reflexivity.
  - intros Hq Hclosed. cbn [writeLoop].
    unfold writeLoop_iter, recv_writing, bind. rewrite Hq, Hclosed.
    reflexivity.
Qed.

(** X18. [writeLoop] stops at the first write that fails: the waiters
    before it in the queue have been written, the pass goes on as
    [closeError] with the error of the write, after which [writeLoop]
    returns, and the waiters behind it stay in the queue and are never
    written. *)
Theorem writeLoop_stops_at_the_first_failed_write (ws1 ws2 : list loc)
    (w : loc) (bs1 : list (list byte)) (b : list byte) (bw bw1 bw2 : W)
    (e : error) (σ : World) :
  writing (cl σ) = ws1 ++ w :: ws2 ->
  buffers σ ws1 bs1 ->
  in_ <$> heap σ !! w = Some b ->
  write_all bwr_Write bw bs1 = (bw1, None) ->
  bwr_Write bw1 b = (bw2, Some e) ->
  (writeLoop_iter bwr_Write bwr_Flush) bw σ
  = (closeError e ;; ret (bw2, false)) (on_cl (set_writing ws2) σ).
Proof.
  intros Hq Hbs Hb Hall Hfail.
  assert (forall fuel σ0,
            writing (cl σ0) = w :: ws2 ->
            heap σ0 = heap σ ->
            (writeLoop_more bwr_Write bwr_Flush) fuel bw1 σ0
            = (closeError e ;; ret (bw2, false)) (on_cl (set_writing ws2) σ0))
    as Hmore.
  { intros fuel σ0 Hq0 Hh0.
    destruct fuel; cbn [writeLoop_more];
      (erewrite bind_Ret;
       [|unfold select_writing; rewrite Hq0; reflexivity]);
      cbv beta iota; unfold bind at 1;
      (erewrite (write_waiter_fails bw1 bw2 w b e);
       [|cbn; rewrite Hh0; exact Hb | exact Hfail]);
      unfold bind;
      destruct (closeError e _) as [[[]| |msg] σ']; reflexivity. }
  unfold writeLoop_iter.
  destruct ws1 as [|w1 ws1].
  - inversion Hbs; subst. cbn in Hall. injection Hall as <-. cbn in Hq.
    erewrite bind_Ret.
    2:{ unfold recv_writing. rewrite Hq. reflexivity. }
    cbv beta iota.
    unfold bind at 1.
    erewrite (write_waiter_fails bw bw2 w b e); [|exact Hb | exact Hfail].
    unfold bind.
    destruct (closeError e _) as [[[]| |msg] σ']; reflexivity.
  - inversion Hbs as [|w' b1 ws' bs' Hb1 Hbs']; subst.
    cbn [write_all] in Hall.
    destruct (bwr_Write bw b1) as [bw' [e1|]] eqn:Hw; [discriminate|].
    cbn in Hq.
    erewrite bind_Ret.
    2:{ unfold recv_writing. rewrite Hq. reflexivity. }
    cbv beta iota.
    erewrite bind_Ret by (eapply write_waiter_ok; [exact Hb1 | exact Hw]).
    cbn [snd fst negb]. erewrite bind_Ret by reflexivity.
    cbn [cl on_cl writing set_writing].
    rewrite (writeLoop_more_prefix ws1 bs' (w :: ws2) bw' bw1);
      [ | reflexivity | rewrite length_app; lia | exact Hbs' | exact Hall].
    rewrite Hmore; reflexivity.
Qed.

End writer_facts.

(** ** Requests *)

Section request_facts.
Context {T : Type}.
Variable UnmarshalMsg : T -> list byte -> T * list byte * option error.

(** X19. [Decode] never touches the name and the address of a request.
    Without an object to decode into it does nothing and returns nil.
    With one, the body of the request becomes what [UnmarshalMsg] left of
    it, whether it failed or not: a second [Decode] on the same request
    reads the object that follows the first one in the body, not the
    first one again. *)
Theorem Decode_consumes_the_body (m : option T) (r : req.request) :
  let r' := (req.Decode UnmarshalMsg m r).1.2 in
  req.Name r' = req.Name r /\ req.RemoteAddr r' = req.RemoteAddr r /\
  (m = None -> req.Decode UnmarshalMsg m r = (None, r, None)) /\
  (forall o, m = Some o ->
     req.in_ r' = (UnmarshalMsg o (req.in_ r)).1.2 /\
     (req.Decode UnmarshalMsg m r).2 = (UnmarshalMsg o (req.in_ r)).2) /\
  (forall o o2 v rest,
     m = Some o ->
     UnmarshalMsg o (req.in_ r) = (v, rest, None) ->
     req.Decode UnmarshalMsg (Some o2) r'
     = (Some (UnmarshalMsg o2 rest).1.1,
        req.mkRequest (req.name r) (req.addr r) (UnmarshalMsg o2 rest).1.2,
        (UnmarshalMsg o2 rest).2)).
Proof.
  cbn zeta. unfold req.Decode. destruct m as [o|].
  - destruct (UnmarshalMsg o (req.in_ r)) as [[o' rest] err] eqn:E. cbn.
    split; [reflexivity|]. split; [reflexivity|]. split; [discriminate|].
    split.
    + intros o0 Ho. injection Ho as <-. rewrite E. auto.
    + intros o0 o2 v rest0 Ho E0. injection Ho as <-.
      rewrite E in E0. injection E0 as <- <- ->.
      destruct (UnmarshalMsg o2 rest) as [[o2' rest2] err2]. reflexivity.
  - cbn. repeat split; discriminate.
Qed.

End request_facts.

Section refusal_facts.
Context `{Decls}.
Context {T : Type}.
Variable UnmarshalMsg : T -> list byte -> T * list byte * option error.

(** X20. A client that is closed refuses requests and commands: [Call]
    and [sendCommand] return [ErrClosed] without waiting; no sequence
    number is drawn, nothing is registered or queued, and the counter of
    outstanding operations is as before. *)
Theorem closed_client_refuses (method : Z) (inp : option Marshaler)
    (out : option T) (cmd : Z) (msg : list byte) (σ : World) :
  pool_ok σ ->
  state (cl σ) = clientClosed ->
  0 <= wg (cl σ) ->
  (exists σ',
     Call UnmarshalMsg method inp out σ = (Ret (out, Some ErrClosed), σ') /\
     cl σ' = cl σ) /\
  (exists σ',
     sendCommand cmd msg σ = (Ret (Some ErrClosed), σ') /\ cl σ' = cl σ).
Proof.
  intros Hpool Hclosed Hwg.
  destruct (waiters_pop_ok σ Hpool)
    as (w & x & σp & Epop & Hx & Hd & Hcl & Hev & Hcase).
  assert (on_cl (set_wg (wg (cl σ) + 1 + -1)) (on_cl (set_wg (wg (cl σ) + 1)) σp)
          = σp) as Hback.
  { replace (wg (cl σ) + 1 + -1) with (wg (cl σp)) by (rewrite Hcl; lia).
    destruct σp as [[] ? ? ? ? ?]. reflexivity. }
  split.
  - eexists. split.
    + unfold Call, call, write. rewrite (bind_Ret _ _ _ _ _ Epop).
      rewrite !bind_assoc.
      erewrite bind_Ret by (apply wg_Add_ok; rewrite Hcl; lia).
      rewrite !bind_assoc. erewrite bind_Ret by reflexivity.
      wsimpl. rewrite Hcl, Hclosed. cbn [Z.eqb clientClosed].
      erewrite bind_Ret by reflexivity. cbv beta iota.
      unfold wg_Done. rewrite bind_assoc.
      erewrite bind_Ret by (apply wg_Add_ok; wsimpl; rewrite ?Hcl; lia).
      erewrite bind_Ret by reflexivity.
      wsimpl. rewrite Hback.
      erewrite bind_Ret by (apply waiters_push_ok; exact Hx).
      reflexivity.
    + destruct (static x); [|exact Hcl]. cbn. exact Hcl.
  - eexists. split.
    + unfold sendCommand, writeCommand. rewrite (bind_Ret _ _ _ _ _ Epop).
      rewrite !bind_assoc.
      erewrite bind_Ret by (apply wg_Add_ok; rewrite Hcl; lia).
      rewrite !bind_assoc. erewrite bind_Ret by reflexivity.
      wsimpl. rewrite Hcl, Hclosed. cbn [Z.eqb clientClosed].
      erewrite bind_Ret by reflexivity. cbv beta iota.
      unfold wg_Done.
      erewrite bind_Ret by (apply wg_Add_ok; wsimpl; rewrite ?Hcl; lia).
      wsimpl. rewrite Hback. reflexivity.
    + exact Hcl.
Qed.

(** X21. On an open client whose queue is full, [write] parks in the
    send on the channel: at that point the sequence number is drawn, the
    counter of outstanding operations is incremented and the waiter is
    registered under the sequence number, so that a response could
    already be routed to it, but the queue is as it was. *)
Theorem write_blocks_on_a_full_queue (w : loc) (x : waiter) (method : Z)
    (inp : option Marshaler) (body : list byte) (σ : World) :
  heap σ !! w = Some x ->
  state (cl σ) = clientOpen ->
  0 <= wg (cl σ) ->
  writing_closed (cl σ) = false ->
  (waiterHWM <= length (writing (cl σ)))%nat ->
  encodes inp body ->
  5 + Z.of_nat (length body) <= 65535 ->
  let sn := wrap64 (csn (cl σ) + 1) in
  exists σ',
    write w method inp σ = (Park, σ') /\
    csn (cl σ') = sn /\ wg (cl σ') = wg (cl σ) + 1 /\
    pending (cl σ') = <[sn := w]> (pending (cl σ)) /\
    writing (cl σ') = writing (cl σ) /\
    seq <$> heap σ' !! w = Some sn.
Proof.
  intros Hx Hopen Hwg Hc Hfull Henc Hsz sn.
  set (b0 := msgp.AppendUint32 (resize leadSize (in_ x)) (wrap32 method)).
  assert (marshal inp b0 = (b0 ++ body, None)) as Hm.
  { unfold marshal, encodes in *. destruct inp as [m|]; [apply Henc|].
    rewrite Henc. reflexivity. }
  assert (length (b0 ++ body) <= leadSize + (5 + length body))%nat as Hlb.
  { unfold b0. rewrite AppendUint32_app, !length_app, length_resize.
    pose proof (length_AppendUint32_wrap32 method). lia. }
  unfold write, in_set.
  fwd_step. fwd_step.
  rewrite Hopen. cbn [Z.eqb clientOpen clientClosed].
  do 5 fwd_step. fold b0. fold sn.
  assert (forall (k : option error -> M (option error)) σ0,
            heap σ0 !! w = Some (set_in b0 x) ->
            bind (match inp with
                  | Some m =>
                    b <- in_get w ;; update w (set_in (m b).1) ;; ret (m b).2
                  | None =>
                    b <- in_get w ;;
                    update w (set_in (msgp.AppendMapHeader b 0)) ;; ret None
                  end) k σ0
            = k None (on_heap (<[w := set_in (b0 ++ body) x]>) σ0))
    as Hbody.
  { intros k σ0 H0. unfold marshal in Hm. destruct inp as [m|].
    - rewrite bind_assoc. erewrite bind_Ret by (apply in_get_ok; eauto).
      cbn [in_ set_in]. rewrite bind_assoc.
      erewrite bind_Ret by (apply update_ok; eauto).
      erewrite bind_Ret by reflexivity. rewrite Hm. reflexivity.
    - rewrite bind_assoc. erewrite bind_Ret by (apply in_get_ok; eauto).
      cbn [in_ set_in]. rewrite bind_assoc.
      erewrite bind_Ret by (apply update_ok; eauto).
      erewrite bind_Ret by reflexivity. injection Hm as ->. reflexivity. }
  rewrite Hbody by (wsimpl; apply lookup_insert_eq).
  wsimpl. rewrite ?on_heap_insert_insert.
  fwd_step.
  match goal with
  | |- context [if ?a >? ?b then _ else _] =>
    destruct (Z.gtb_spec a b) as [Hgt|_];
      [unfold maxMessageSize in Hgt; lia|]
  end.
  fwd_step. unfold writebody. rewrite !bind_assoc.
  repeat fwd_step.
  unfold bind at 1, send_writing. wsimpl. rewrite Hc.
  destruct (Nat.ltb_spec (length (writing (cl σ))) waiterHWM); [lia|].
  eexists. split; [reflexivity|]. wsimpl. rewrite lookup_insert_eq.
  repeat split.
Qed.

(** X22. [Close] on an open client without outstanding operations and
    with an empty queue ends all three loops of the client: after it
    [timeoutLoop] returns, [writeLoop] returns and leaves its writer as it
    is, and [readLoop] returns, its read failing on the closed
    connection. *)
Theorem Close_ends_the_loops (σ : World) (fuel : nat) :
  state (cl σ) = clientOpen ->
  wg (cl σ) = 0 ->
  done_closed (cl σ) = false ->
  writing_closed (cl σ) = false ->
  writing (cl σ) = [] ->
  exists σ',
    Close σ = (Ret (close_result (conn (cl σ))), σ') /\
    timeoutLoop [] σ' = (Ret tt, σ') /\
    (forall (W : Type) (bwr_Write : W -> list byte -> W * option error)
            (bwr_Flush : W -> W * option error) (bw : W),
       writeLoop bwr_Write bwr_Flush (S fuel) bw σ' = Some (Ret bw, σ')) /\
    readLoop (S fuel) σ' = Some (Ret tt, σ').
Proof.
  intros Hopen Hwg Hdc Hwc Hq.
  assert (exists σ',
            Close σ = (Ret (close_result (conn (cl σ))), σ') /\
            state (cl σ') = clientClosed /\
            done_closed (cl σ') = true /\ writing_closed (cl σ') = true /\
            conn_closed (conn (cl σ')) = true /\ writing (cl σ') = [])
    as (σ' & EClose & Hst & Hdc' & Hwc' & Hcc & Hq').
  { unfold Close, Close_resume, CompareAndSwapUint32_state, wg_Wait,
      close_done, close_writing, conn_Close, bind, ret.
    rewrite Hopen. cbn. rewrite Hwg. cbn. rewrite Hdc. cbn. rewrite Hwc. cbn.
    eexists. split; [reflexivity|]. cbn. auto. }
  exists σ'. split; [exact EClose|]. split; [|split].
  - cbn [timeoutLoop]. unfold bind, gets. rewrite Hdc'. reflexivity.
  - intros W bwr_Write bwr_Flush bw. cbn [writeLoop].
    unfold writeLoop_iter, recv_writing, bind. rewrite Hq', Hwc'.
    reflexivity.
  - cbn [readLoop]. unfold readLoop_iter.
    erewrite bind_Ret.
    2:{ unfold ReadFull. rewrite Hcc. reflexivity. }
    cbn [snd do_]. unfold closeError. rewrite !bind_assoc.
    erewrite bind_Ret.
    2:{ unfold CompareAndSwapUint32_state. rewrite Hst. reflexivity. }
    cbn [negb]. erewrite bind_Ret by reflexivity.
    erewrite bind_Ret by reflexivity. reflexivity.
Qed.

End refusal_facts.

Section handshake_facts.
Context `{Decls}.

(** X23. A handshake that succeeds. [NewClient] queues its ping and
    parks. When the frame of the response is what the connection
    delivers next and its body starts with the code of a known command,
    one pass of the reader wakes the waiter of the ping and [NewClient],
    once woken, returns without an error: the handler of the directory
    has run on the rest of the body, on a client that is open, has no
    operation outstanding and nothing pending. *)
Theorem NewClient_returns_once_the_ping_is_answered (c : Conn) (timeout : Z)
    (σ : World) (lead rest args : list byte) (b0 : byte) (k : fType) :
  pool_ok σ ->
  conn_closed c = false ->
  rd c = lead ++ (b0 :: args) ++ rest ->
  length lead = leadSize ->
  readFrame lead = (1, k, Z.of_nat (length (b0 :: args))) ->
  k = fCMD \/ k = fRES ->
  u8 b0 <> cmdInvalid ->
  u8 b0 < _maxcommand ->
  exists w σ1 σ2 σ3,
    NewClient c timeout σ = (Park, σ1) /\
    readLoop_iter σ1 = (Ret true, σ2) /\
    NewClient_resume w σ2 = (Ret None, σ3) /\
    cl σ3
    = cmdDirectory_done (u8 b0)
        (mkClient "" (set_rd rest c) 1 [w] false false 0 clientOpen ∅) args.
Proof.
  intros Hpool Hcc Hrd Hlead Hframe Hk Hne Hlt.
  set (σ0 := on_cl (fun _ => mkClient "" c 0 [] false false 0 clientOpen ∅) σ).
  destruct (sendCommand_parks cmdPing [] σ0)
    as (w & x & σp & Epop & Hx & Hd & Hcl & Hev & Esend);
    try reflexivity;
    [exact Hpool | unfold waiterHWM; cbn; lia |
     unfold maxMessageSize; cbn; lia |].
  change (wrap64 (csn (cl σ0) + 1)) with 1 in Esend.
  match type of Esend with
  | _ = (_, queued _ _ _ ?b _) => set (buf := b) in *
  end.
  match type of Esend with _ = (_, ?s) => set (σ1 := s) in * end.
  assert (NewClient c timeout σ = (Park, σ1)) as Enew.
  { unfold NewClient, ping. erewrite bind_Ret by reflexivity.
    fold σ0. unfold bind at 1. rewrite Esend. reflexivity. }
  set (x1 := mkWaiter 1 (done x) (err x) buf false (static x)).
  assert (heap σ1 !! w = Some x1) as Hx1.
  { unfold σ1, queued. cbn [heap]. apply lookup_insert_eq. }
  assert (cl σ1 = mkClient "" c 1 [w] false false 1 clientOpen {[1 := w]})
    as Hcl1.
  { unfold σ1, queued. rewrite Hcl. cbn. rewrite insert_empty. reflexivity. }
  pose proof (readLoop_iter_routed σ1 lead (b0 :: args) rest 1 k
                (Z.of_nat (length (b0 :: args))) w x1) as Eread.
  rewrite Nat2Z.id in Eread.
  specialize (Eread ltac:(rewrite Hcl1; exact Hcc)
                    ltac:(rewrite Hcl1; exact Hrd)
                    Hlead Hframe eq_refl Hk
                    ltac:(rewrite Hcl1; apply lookup_insert_eq)
                    Hx1).
  cbn [seq reap static x1] in Eread.
  match type of Eread with _ = (_, ?s) => set (σ2 := s) in * end.
  set (x2 := mkWaiter 1 true None (b0 :: args) false (static x)).
  assert (heap σ2 !! w = Some x2) as Hx2.
  { unfold σ2. cbn [heap]. apply lookup_insert_eq. }
  assert (cl σ2 = mkClient "" (set_rd rest c) 1 [w] false false 1 clientOpen ∅)
    as Hcl2.
  { unfold σ2. cbn [cl]. rewrite Hcl1. cbn. rewrite delete_singleton_eq.
    reflexivity. }
  destruct (sendCommand_resume_cases w x2 σ2 Hx2 eq_refl eq_refl)
    as (_ & _ & Hgood).
  { rewrite Hcl2. cbn. lia. }
  specialize (Hgood b0 args eq_refl Hne Hlt).
  exists w, σ1, σ2. eexists.
  split; [exact Enew|]. split; [exact Eread|]. split.
  { unfold NewClient_resume. rewrite (bind_Ret _ _ _ _ _ Hgood).
    reflexivity. }
  destruct (static x2); wsimpl; rewrite Hcl2; reflexivity.
Qed.

Context {T : Type}.
Variable UnmarshalMsg : T -> list byte -> T * list byte * option error.


End handshake_facts.

Section delivery_facts.
Context `{Decls}.

(** [readLoop] over the frames of [ds], all of them arrived and each for
    a waiter that is registered: what it leaves when the bytes run
    out. *)
Lemma readLoop_deliveries (ds : list delivery) :
  forall (σ : World) (fuel : nat),
  (0 < leadSize)%nat ->
  conn_closed (conn (cl σ)) = false ->
  rd_err (conn (cl σ)) = None ->
  rd (conn (cl σ)) = stream ds ->
  Forall well_framed ds ->
  NoDup (d_seq <$> ds) ->
  NoDup (d_waiter <$> ds) ->
  (forall d, d ∈ ds ->
     pending (cl σ) !! d_seq d = Some (d_waiter d) /\
     is_Some (heap σ !! d_waiter d)) ->
  exists σ',
    readLoop (S (length ds + fuel)) σ = Some (Park, σ') /\
    rd (conn (cl σ')) = [] /\
    events σ' = events σ ++ (EvWake <$> (d_waiter <$> ds)) /\
    wg (cl σ') = wg (cl σ) /\ state (cl σ') = state (cl σ) /\
    waiters σ' = waiters σ /\
    (forall s, pending (cl σ') !! s
               = if bool_decide (s ∈ d_seq <$> ds) then None
                 else pending (cl σ) !! s) /\
    (forall d x, d ∈ ds -> heap σ !! d_waiter d = Some x ->
       heap σ' !! d_waiter d
       = Some (mkWaiter (seq x) true None (d_body d) (reap x) (static x))) /\
    (forall w, w ∉ d_waiter <$> ds -> heap σ' !! w = heap σ !! w).
Proof.
  induction ds as [|d ds IH];
    intros σ fuel Hlead Hcc Herr Hrd Hwf Hnds Hndw Hreg.
  - exists σ. cbn [length Nat.add readLoop].
    assert (readLoop_iter σ = (Park, σ)) as ->.
    { unfold readLoop_iter, bind at 1, ReadFull. rewrite Hcc, Hrd. cbn.
      destruct (Nat.leb_spec leadSize 0); [lia|]. rewrite Herr.
      reflexivity. }
    cbn. rewrite app_nil_r. repeat split; auto.
    intros d x Hd. apply elem_of_nil in Hd as [].
  - apply Forall_cons in Hwf as [(Hl & Hframe & Hk) Hwf].
    cbn [fmap list_fmap] in Hnds, Hndw.
    apply NoDup_cons in Hnds as [Hs Hnds].
    apply NoDup_cons in Hndw as [Hw Hndw].
    destruct (Hreg d) as (Hp & [x Hx]); [left|].
    pose proof (readLoop_iter_routed σ (d_lead d) (d_body d) (stream ds)
                  (d_seq d) (d_kind d) (Z.of_nat (length (d_body d)))
                  (d_waiter d) x Hcc) as Eiter.
    rewrite Nat2Z.id in Eiter.
    specialize (Eiter ltac:(rewrite Hrd; unfold stream; cbn;
                            rewrite <- app_assoc; reflexivity)
                      Hl Hframe eq_refl Hk Hp Hx).
    match type of Eiter with _ = (_, ?s) => set (σ1 := s) in * end.
    destruct (IH σ1 fuel Hlead)
      as (σ' & E & Hrd' & Hev' & Hwg' & Hst' & Hws' & Hpend' & Hheap' & Hkeep');
      auto.
    { intros d' Hd'. unfold σ1. cbn [cl pending set_pending heap]. split.
      - rewrite lookup_delete_ne.
        + apply Hreg. right. exact Hd'.
        + intros Heq. apply Hs. rewrite Heq. apply list_elem_of_fmap.
          exists d'. auto.
      - destruct (Hreg d') as (_ & [x' Hx']); [right; exact Hd'|].
        rewrite lookup_insert_ne; [eauto|].
        intros Heq. apply Hw. rewrite Heq. apply list_elem_of_fmap.
        exists d'. auto. }
    exists σ'. split.
    { cbn [length Nat.add]. cbn [readLoop]. rewrite Eiter. exact E. }
    split; [exact Hrd'|]. split.
    { rewrite Hev'. unfold σ1. cbn [events]. rewrite <- app_assoc.
      reflexivity. }
    split; [rewrite Hwg'; reflexivity|].
    split; [rewrite Hst'; reflexivity|].
    split; [rewrite Hws'; reflexivity|].
    split; [|split].
    + intros s. rewrite Hpend'. unfold σ1. cbn [cl pending set_pending].
      cbn [fmap list_fmap].
      destruct (decide (s = d_seq d)) as [->|Hne].
      * rewrite (bool_decide_eq_true_2 (d_seq d ∈ d_seq d :: _)) by left.
        rewrite lookup_delete_eq. destruct (bool_decide _); reflexivity.
      * rewrite lookup_delete_ne by auto.
        destruct (decide (s ∈ d_seq <$> ds)) as [Hin|Hin].
        -- rewrite !bool_decide_eq_true_2; [reflexivity | right; exact Hin |
                                            exact Hin].
        -- rewrite !bool_decide_eq_false_2; [reflexivity | | exact Hin].
           intros Hin'. apply elem_of_cons in Hin' as [?|?]; contradiction.
    + intros d' x' Hd' Hx'. apply elem_of_cons in Hd' as [->|Hd'].
      * rewrite Hkeep' by exact Hw. unfold σ1. cbn [heap].
        rewrite lookup_insert_eq. rewrite Hx in Hx'. injection Hx' as <-.
        reflexivity.
      * apply Hheap'; [exact Hd'|]. unfold σ1. cbn [heap].
        rewrite lookup_insert_ne; [exact Hx'|].
        intros Heq. apply Hw. rewrite Heq. apply list_elem_of_fmap.
        exists d'. auto.
    + intros w Hnin. cbn [fmap list_fmap] in Hnin.
      apply not_elem_of_cons in Hnin as [Hne Hnin].
      rewrite Hkeep' by exact Hnin. unfold σ1. cbn [heap].
      apply lookup_insert_ne. auto.
Qed.

(** X25. [readLoop] delivers in order. When the frames that have arrived
    are each for a different registered waiter, [readLoop] hands every
    body to its waiter and wakes the waiters in the order of the frames,
    takes them out of the pending map and touches no other waiter; when
    the bytes run out it blocks in the read of the next lead. As many
    passes as frames, and one, are enough. *)
Theorem readLoop_delivers_in_order (ds : list delivery) (σ : World)
    (fuel : nat) :
  (0 < leadSize)%nat ->
  conn_closed (conn (cl σ)) = false ->
  rd_err (conn (cl σ)) = None ->
  rd (conn (cl σ)) = stream ds ->
  Forall well_framed ds ->
  NoDup (d_seq <$> ds) ->
  NoDup (d_waiter <$> ds) ->
  (forall d, d ∈ ds ->
     pending (cl σ) !! d_seq d = Some (d_waiter d) /\
     is_Some (heap σ !! d_waiter d)) ->
  exists σ',
    readLoop (S (length ds + fuel)) σ = Some (Park, σ') /\
    rd (conn (cl σ')) = [] /\
    events σ' = events σ ++ (EvWake <$> (d_waiter <$> ds)) /\
    (forall d, d ∈ ds -> pending (cl σ') !! d_seq d = None) /\
    (forall s, s ∉ d_seq <$> ds ->
       pending (cl σ') !! s = pending (cl σ) !! s) /\
    (forall d x, d ∈ ds -> heap σ !! d_waiter d = Some x ->
       heap σ' !! d_waiter d
       = Some (mkWaiter (seq x) true None (d_body d) (reap x) (static x))) /\
    (forall w, w ∉ d_waiter <$> ds -> heap σ' !! w = heap σ !! w).
Proof.
  intros Hlead Hcc Herr Hrd Hwf Hnds Hndw Hreg.
  destruct (readLoop_deliveries ds σ fuel Hlead Hcc Herr Hrd Hwf Hnds Hndw Hreg)
    as (σ' & E & Hrd' & Hev & _ & _ & _ & Hpend & Hheap & Hkeep).
  exists σ'. split; [exact E|]. split; [exact Hrd'|]. split; [exact Hev|].
  split; [|split; [|split]].
  - intros d Hd. rewrite Hpend. rewrite bool_decide_eq_true_2; [reflexivity|].
    apply list_elem_of_fmap. exists d. auto.
  - intros s Hs. rewrite Hpend. rewrite bool_decide_eq_false_2; auto.
  - exact Hheap.
  - exact Hkeep.
Qed.

End delivery_facts.

(** ** The properties on concrete worlds *)

(** Decides a closed equation or comparison by evaluation. *)
Ltac concrete :=
  lazymatch goal with
  | |- @eq _ _ _ => reflexivity
  | |- Z.le _ _ => vm_compute; congruence
  | |- Z.lt _ _ => reflexivity
  | |- lt _ _ => vm_compute; lia
  | |- le _ _ => vm_compute; lia
  | |- not (@eq _ _ _) => vm_compute; congruence
  | |- encodes None _ => reflexivity
  end.

Lemma next_round_robin_witness :
  rounds 3 cluster3
  = [Some (node "10.0.0.3:7000"); Some (node "10.0.0.1:7000");
     Some (node "10.0.0.2:7000")] /\
  rounds 3 cluster3 ≡ₚ Some <$> pool.clients cluster3.
Proof.
  destruct (next_round_robin cluster3) as [_ Hperm];
    [vm_compute; discriminate | vm_compute; reflexivity |].
  split; [reflexivity | exact Hperm].
Defined.

Lemma Call_redials_an_empty_cluster_witness :
  exists c1 v,
    v ∈ pool.clients c1 /\ pool.cluster_tick v /\
    pool.Call net_one ping_ok call_ok handle_keep 2 [1%nat; 0%nat] cluster_lost
    = Some (Ret (c1, None)).
Proof.
  destruct (Call_redials_an_empty_cluster net_one ping_ok call_ok handle_keep
              0 [1%nat; 0%nat] cluster_lost two_addrs_schedule eq_refl)
    as (_ & _ & _ & Hdial).
  destruct Hdial as (c1 & v & Hin & Htick & E); [reflexivity | |].
  - exists "10.0.0.1:7000"%string. split; [right; left | reflexivity].
  - exists c1, v. split; [exact Hin|]. split; [exact Htick|]. exact E.
Defined.

Lemma DialCluster_connected_are_remotes_witness :
  exists c,
    pool.DialCluster net_one ping_ok [1%nat; 0%nat] "tcp" two_addrs
    = Ret (Some c, None) /\
    known c /\
    (forall r, r ∈ pool.Connected (pool.Status c) -> r ∈ pool.remotes c).
Proof.
  eexists. split; [reflexivity|].
  eapply (DialCluster_connected_are_remotes net_one ping_ok [1%nat; 0%nat]
            "tcp" two_addrs _ None).
  reflexivity.
Defined.

Lemma closed_cluster_refuses_witness :
  let c' := (pool.Close cluster3).1 in
  (pool.Close cluster3).2 = None /\
  pool.Close c' = (c', Some ErrClosed) /\
  pool.Add net_up ping_ok "10.0.0.4:7000" c' = (c', Some ErrClosed) /\
  pool.Call net_up ping_ok call_ok handle_keep 1 [] c'
  = Some (Ret (pool.set_idx 5 c', Some ErrClosed)) /\
  pool.Status c'
  = pool.mkStatus "tcp" []
      ["10.0.0.1:7000"; "10.0.0.2:7000"; "10.0.0.3:7000"]%string.
Proof.
  apply (closed_cluster_refuses net_up ping_ok call_ok handle_keep cluster3
           "10.0.0.4:7000" 0 []).
  reflexivity.
Defined.

Lemma pool_ok_world_in (bs : list byte) : pool_ok (world_in bs).
Proof.
  exact pool_ok_world0.
Defined.

Lemma writeCommand_frames_the_command_witness :
  exists σ' lead,
    writeCommand (H := wire) 0%nat 1 [] world0 = (Ret None, σ') /\
    in_ <$> heap σ' !! 0%nat = Some (lead ++ [x01]) /\
    length lead = 12%nat /\
    readFrame (Decls := wire) lead = (1, 2, 1) /\
    seq <$> heap σ' !! 0%nat = Some 1 /\
    pending (cl σ') !! 1 = Some 0%nat /\
    writing (cl σ') = [0%nat].
Proof.
  apply (writeCommand_frames_the_command (H := wire) 0%nat
           (mkWaiter 0 false None [] false true) 1 [] world0 wire_framing);
    concrete.
Defined.

Lemma write_frames_the_request_witness :
  exists σ' lead,
    write (H := wire) 0%nat 42 None world0 = (Ret None, σ') /\
    in_ <$> heap σ' !! 0%nat = Some (lead ++ [x2a; x80]) /\
    length lead = 12%nat /\
    readFrame (Decls := wire) lead = (1, 0, 2) /\
    seq <$> heap σ' !! 0%nat = Some 1 /\
    pending (cl σ') !! 1 = Some 0%nat /\
    writing (cl σ') = [0%nat].
Proof.
  destruct (write_frames_the_request (H := wire) 0%nat
              (mkWaiter 0 false None [] false true) 42 None [x80] world0
              wire_framing)
    as (σ' & lead & E & Hin & Hlen & Hread & _ & Hseq & Hp & Hq);
    [concrete .. |].
  exists σ', lead. split; [exact E|]. split; [exact Hin|].
  split; [exact Hlen|]. split; [exact Hread|]. split; [exact Hseq|].
  split; [exact Hp | exact Hq].
Defined.

Lemma Call_returns_the_decoded_response_witness :
  exists w σ1 σ2 σ3,
    Call (H := wire) discard 42 None (Some tt) (world_in (frame 1 1 ok_body))
    = (Park, σ1) /\
    readLoop_iter (H := wire) σ1 = (Ret true, σ2) /\
    Call_resume (H := wire) discard w (Some tt) σ2
    = (Ret (Some tt, None), σ3) /\
    wg (cl σ3) = 0 /\
    waiters σ3 = [0%nat; 1%nat] /\
    pending (cl σ3) = ∅ /\
    rd (conn (cl σ3)) = [].
Proof.
  destruct (Call_returns_the_decoded_response (H := wire) discard 42 None
              [x80] tt (world_in (frame 1 1 ok_body))
              (take 12 (frame 1 1 ok_body)) ok_body [xc0] [] 1
              (pool_ok_world_in _))
    as (w & σ1 & σ2 & σ3 & E1 & E2 & E3 & Hwg & Hws & Hp & Hrd);
    try concrete.
  { right. reflexivity. }
  exists w, σ1, σ2, σ3. rewrite Hwg, Hws, Hp, Hrd.
  repeat split; assumption.
Defined.

Lemma pending_ok_world0 : pending_ok world0.
Proof.
  intros s w Hs. cbn in Hs. rewrite lookup_empty in Hs. discriminate.
Defined.

Lemma Call_fails_when_the_connection_fails_witness :
  exists w σ1 σ2 σ3 σ4,
    Call (H := wire) discard 42 None (Some tt) world_eof = (Park, σ1) /\
    readLoop_iter (H := wire) σ1 = (Park, σ2) /\
    state (cl σ2) = clientClosed /\
    Call_resume (H := wire) discard w (Some tt) σ2
    = (Ret (Some tt,
            Some (Errorf "synapse: fatal error: %s" (ExtError "EOF"))), σ3) /\
    wg (cl σ3) = 0 /\ waiters σ3 = [0%nat; 1%nat] /\
    closeError_resume σ3 = (Ret tt, σ4) /\
    conn_closed (conn (cl σ4)) = true.
Proof.
  apply (Call_fails_when_the_connection_fails (H := wire) discard 42 None
           [x80] (Some tt) world_eof (ExtError "EOF") pool_ok_world0);
    concrete.
Defined.

Lemma Call_times_out_at_the_second_tick_witness :
  exists w σ1 σ2 σ3 σ4,
    Call (H := wire) discard 42 None (Some tt) world0 = (Park, σ1) /\
    timeoutLoop [false] σ1 = (Park, σ2) /\
    pending (cl σ2) !! 1 = Some w /\
    Call_resume (H := wire) discard w (Some tt) σ2 = (Park, σ2) /\
    timeoutLoop [false] σ2 = (Park, σ3) /\
    pending (cl σ3) !! 1 = None /\
    Call_resume (H := wire) discard w (Some tt) σ3
    = (Ret (Some tt, Some ErrTimeout), σ4) /\
    wg (cl σ4) = 0 /\ waiters σ4 = [0%nat; 1%nat].
Proof.
  apply (Call_times_out_at_the_second_tick (H := wire) discard 42 None
           [x80] (Some tt) world0 false false pool_ok_world0
           pending_ok_world0);
    concrete.
Defined.

Lemma sendCommand_checks_the_response_witness :
  sendCommand_resume (H := wire) 0%nat (world_answered [])
  = (Ret (Some errNoCmd),
     set_waiters [0%nat; 1%nat]
       (on_cl (set_wg 0)
          (on_heap (<[0%nat := mkWaiter 1 false None [] false true]>)
             (world_answered [])))) /\
  sendCommand_resume (H := wire) 0%nat (world_answered [x07])
  = (Ret (Some errUnknownCmd),
     set_waiters [0%nat; 1%nat]
       (on_cl (set_wg 0)
          (on_heap (<[0%nat := mkWaiter 1 false None [x07] false true]>)
             (world_answered [x07])))) /\
  sendCommand_resume (H := wire) 0%nat (world_answered [x01])
  = (Ret None,
     set_waiters [0%nat; 1%nat]
       (on_cl (set_wg 0)
          (on_heap (<[0%nat := mkWaiter 1 false None [x01] false true]>)
             (world_answered [x01])))).
Proof.
  split; [|split].
  - destruct (sendCommand_checks_the_response (H := wire) 0%nat
                (mkWaiter 1 true None [] false true) (world_answered []))
      as (Hempty & _ & _); [concrete .. |].
    exact (Hempty eq_refl).
  - destruct (sendCommand_checks_the_response (H := wire) 0%nat
                (mkWaiter 1 true None [x07] false true)
                (world_answered [x07]))
      as (_ & Hunknown & _); [concrete .. |].
    apply (Hunknown x07 []); [reflexivity|].
    right. vm_compute. congruence.
  - destruct (sendCommand_checks_the_response (H := wire) 0%nat
                (mkWaiter 1 true None [x01] false true)
                (world_answered [x01]))
      as (_ & _ & Hknown); [concrete .. |].
    apply (Hknown x01 []); [reflexivity | vm_compute; congruence |
                            reflexivity].
Defined.


Lemma buffers_world_queued (b0 b1 : list byte) :
  buffers (world_queued b0 b1) [0%nat; 1%nat] [b0; b1].
Proof.
  repeat constructor.
Defined.

Lemma writeLoop_writes_the_queue_in_order_witness :
  writeLoop_iter (cap_Write 8) cap_Flush [] (world_queued [x01; x02] [x03])
  = (Ret ([x01; x02; x03], true),
     on_cl (set_writing []) (world_queued [x01; x02] [x03])) /\
  writeLoop (cap_Write 8) cap_Flush 2 [] (world_queued [x01; x02] [x03])
  = Some (Park, on_cl (set_writing []) (world_queued [x01; x02] [x03])).
Proof.
  destruct (writeLoop_writes_the_queue_in_order (cap_Write 8)
              cap_Flush 0%nat [1%nat] [[x01; x02]; [x03]] [] [x01; x02; x03]
              (world_queued [x01; x02] [x03]) 0
              (buffers_world_queued _ _) eq_refl) as (Hopen & _ & _).
  exact (Hopen eq_refl eq_refl [x01; x02; x03] eq_refl).
Defined.

Lemma writeLoop_stops_at_the_first_failed_write_witness :
  writeLoop_iter (cap_Write 2) cap_Flush [] (world_queued [x01; x02] [x03])
  = (closeError (ExtError "short write") ;; ret ([x01; x02], false))
      (on_cl (set_writing []) (world_queued [x01; x02] [x03])).
Proof.
  apply (writeLoop_stops_at_the_first_failed_write (cap_Write 2)
           cap_Flush [0%nat] [] 1%nat [[x01; x02]] [x03] [] [x01; x02]
           [x01; x02] (ExtError "short write")
           (world_queued [x01; x02] [x03]));
    try reflexivity.
  repeat constructor.
Defined.

Lemma closed_client_refuses_witness :
  (exists σ',
     Call (H := wire) discard 42 None (Some tt) world_closed
     = (Ret (Some tt, Some ErrClosed), σ') /\
     cl σ' = cl world_closed) /\
  (exists σ',
     sendCommand (H := wire) 1 [] world_closed
     = (Ret (Some ErrClosed), σ') /\ cl σ' = cl world_closed).
Proof.
  apply (closed_client_refuses (H := wire) discard 42 None (Some tt) 1 []
           world_closed pool_ok_world0);
    concrete.
Defined.

Lemma write_blocks_on_a_full_queue_witness :
  exists σ',
    write (H := wire) 0%nat 42 None world_full = (Park, σ') /\
    csn (cl σ') = 1 /\ wg (cl σ') = 1 /\
    pending (cl σ') = {[1 := 0%nat]} /\
    writing (cl σ') = replicate waiterHWM 1%nat /\
    seq <$> heap σ' !! 0%nat = Some 1.
Proof.
  apply (write_blocks_on_a_full_queue (H := wire) 0%nat
           (mkWaiter 0 false None [] false true) 42 None [x80] world_full);
    concrete.
Defined.

Lemma Close_ends_the_loops_witness :
  exists σ',
    Close world0 = (Ret None, σ') /\
    timeoutLoop [] σ' = (Ret tt, σ') /\
    (forall (W : Type) (bwr_Write : W -> list byte -> W * option error)
            (bwr_Flush : W -> W * option error) (bw : W),
       writeLoop bwr_Write bwr_Flush 1 bw σ' = Some (Ret bw, σ')) /\
    readLoop (H := wire) 1 σ' = Some (Ret tt, σ').
Proof.
  apply (Close_ends_the_loops (H := wire) world0 0); reflexivity.
Defined.

Lemma NewClient_returns_once_the_ping_is_answered_witness :
  exists w σ1 σ2 σ3,
    NewClient (H := wire) (set_rd pong conn0) 1000 world0 = (Park, σ1) /\
    readLoop_iter (H := wire) σ1 = (Ret true, σ2) /\
    NewClient_resume (H := wire) w σ2 = (Ret None, σ3) /\
    cl σ3 = mkClient "" conn0 1 [w] false false 0 clientOpen ∅.
Proof.
  apply (NewClient_returns_once_the_ping_is_answered (H := wire)
           (set_rd pong conn0) 1000 world0 (take 12 pong) [] [] x01 2
           pool_ok_world0);
    try concrete.
  left. reflexivity.
Defined.


Lemma two_deliveries_framed : Forall (well_framed (H := wire)) two_deliveries.
Proof.
  constructor; [|constructor; [|constructor]].
  - split; [reflexivity|]. split; [reflexivity|]. right. reflexivity.
  - split; [reflexivity|]. split; [reflexivity|]. left. reflexivity.
Defined.

Lemma readLoop_delivers_in_order_witness :
  exists σ',
    readLoop (H := wire) 3
      (world_two (frame 2 1 ok_body ++ frame 1 2 [x01]))
    = Some (Park, σ') /\
    rd (conn (cl σ')) = [] /\
    events σ' = [EvWake 1%nat; EvWake 0%nat] /\
    pending (cl σ') !! 1 = None /\ pending (cl σ') !! 2 = None /\
    in_ <$> heap σ' !! 1%nat = Some ok_body /\
    in_ <$> heap σ' !! 0%nat = Some [x01].
Proof.
  destruct (readLoop_delivers_in_order (H := wire) two_deliveries
              (world_two (frame 2 1 ok_body ++ frame 1 2 [x01])) 0)
    as (σ' & E & Hrd & Hev & Hgone & _ & Hbody & _);
    try concrete; try exact two_deliveries_framed.
  - cbn. apply NoDup_cons. split; [|apply NoDup_singleton].
    intros Hin. apply list_elem_of_singleton in Hin. discriminate.
  - cbn. apply NoDup_cons. split; [|apply NoDup_singleton].
    intros Hin. apply list_elem_of_singleton in Hin. discriminate.
  - intros d Hd. apply elem_of_cons in Hd as [->|Hd];
      [split; [reflexivity | eexists; reflexivity]|].
    apply list_elem_of_singleton in Hd as ->.
    split; [reflexivity | eexists; reflexivity].
  - exists σ'. split; [exact E|]. split; [exact Hrd|]. split; [exact Hev|].
    split; [apply (Hgone (@mkDelivery wire (take 12 (frame 1 2 [x01])) [x01]
                            1 2 0%nat)); right; left|].
    split; [apply (Hgone (@mkDelivery wire (take 12 (frame 2 1 ok_body))
                            ok_body 2 1 1%nat)); left|].
    split.
    + pose proof (Hbody (@mkDelivery wire (take 12 (frame 2 1 ok_body))
                           ok_body 2 1 1%nat)
                    (mkWaiter 0 false None [] false true)
                    ltac:(left) eq_refl) as Hb.
      exact (f_equal (fmap in_) Hb).
    + pose proof (Hbody (@mkDelivery wire (take 12 (frame 1 2 [x01])) [x01]
                           1 2 0%nat)
                    (mkWaiter 0 false None [] false true)
                    ltac:(right; left) eq_refl) as Hb.
      exact (f_equal (fmap in_) Hb).
Defined.

Lemma remove_takes_first_match_out_witness :
  (pool.remove same_addr (node "10.0.0.1:7000") cluster3).2 = true /\
  exists mid v post,
    pool.clients cluster3 = mid ++ v :: post /\
    Forall (fun u => same_addr u (node "10.0.0.1:7000") = false) mid /\
    same_addr v (node "10.0.0.1:7000") = true /\
    pool.clients (pool.remove same_addr (node "10.0.0.1:7000") cluster3).1
    ≡ₚ mid ++ post.
Proof.
  destruct (remove_takes_first_match_out same_addr (node "10.0.0.1:7000")
              cluster3) as (Hfound & _ & _ & Hyes).
  split; [exact Hfound | exact (Hyes Hfound)].
Defined.

Lemma redial_replaces_the_removed_client_witness :
  exists mid v post,
    pool.clients cluster3 = mid ++ v :: post /\
    same_addr v (node "10.0.0.2:7000") = true /\
    pool.clients
      (pool.redial net_up ping_ok same_addr on_tcp (node "10.0.0.2:7000")
         cluster3)
    ≡ₚ mid ++ post ++ [node "10.0.0.2:7000"].
Proof.
  destruct (redial_replaces_the_removed_client net_up ping_ok same_addr
              on_tcp (node "10.0.0.2:7000") cluster3) as (_ & _ & Hin).
  destruct (Hin eq_refl) as (mid & v & post & Hcl & _ & Hv & Hok & _).
  exists mid, v, post. split; [exact Hcl|]. split; [exact Hv|].
  exact (Hok (mkConn "10.0.0.2:7000" [] None false None) eq_refl eq_refl).
Defined.

Lemma addAnother_dials_a_stored_remote_witness :
  pool.addAnother net_up ping_ok (pool.set_remotes [] cluster3)
  = Ret (pool.set_remotes [] cluster3, Some ErrNoClients) /\
  exists addr c',
    pool.remotes cluster3 !! 2%nat = Some addr /\
    pool.addAnother net_up ping_ok cluster3
    = Ret (c', pool.attempt net_up ping_ok "tcp" addr) /\
    pool.remotes c' = pool.remotes cluster3 /\
    pool.idx c' = 5.
Proof.
  split.
  - destruct (addAnother_dials_a_stored_remote net_up ping_ok
                (pool.set_remotes [] cluster3)) as [Hnone _].
    exact (Hnone eq_refl).
  - destruct (addAnother_dials_a_stored_remote net_up ping_ok cluster3)
      as [_ Hsome].
    destruct Hsome as (addr & c' & Hat & E & Hrem & _ & Hidx & _);
      [discriminate|].
    exists addr, c'. split; [exact Hat|]. split; [exact E|].
    split; [exact Hrem | exact Hidx].
Defined.

Lemma known_cluster3 : known cluster3.
Proof.
  intros v Hv. cbn in Hv.
  apply elem_of_cons in Hv as [->|Hv]; [left|].
  apply elem_of_cons in Hv as [->|Hv]; [right; left|].
  apply list_elem_of_singleton in Hv as ->. right. right. left.
Defined.

Lemma Add_keeps_remotes_consistent_witness :
  known (pool.Add net_up ping_ok "10.0.0.4:7000" cluster3).1 /\
  ("10.0.0.4:7000"%string
   ∈ pool.remotes (pool.Add net_up ping_ok "10.0.0.4:7000" cluster3).1).
Proof.
  destruct (Add_keeps_remotes_consistent net_up ping_ok "10.0.0.4:7000"
              cluster3) as (_ & _ & Hknown & Hnew).
  split; [exact (Hknown known_cluster3)|].
  exact (Hnew (mkConn "10.0.0.4:7000" [] None false None) eq_refl eq_refl).
Defined.

Lemma closeError_fails_every_pending_call_witness :
  exists σ',
    closeError (ExtError "EOF") (world_two []) = (Ret tt, σ') /\
    state (cl σ') = clientClosed /\ pending (cl σ') = ∅ /\
    heap σ' !! 0%nat
    = Some (mkWaiter 0 true
              (Some (Errorf "synapse: fatal error: %s" (ExtError "EOF")))
              [] false true) /\
    conn_closed (conn (cl σ')) = true.
Proof.
  destruct (closeError_fails_every_pending_call (ExtError "EOF")
              (world_two [])) as [_ Hopen].
  destruct (Hopen eq_refl)
    as (r & σ' & E & Hst & Hp & _ & Hfail & _ & _ & Hdone).
  - intros s w Hs.
    destruct (decide (s = 1)) as [->|H1].
    + cbn in Hs. injection Hs as <-. eexists. reflexivity.
    + destruct (decide (s = 2)) as [->|H2].
      * cbn in Hs. injection Hs as <-. eexists. reflexivity.
      * cbn in Hs. rewrite lookup_insert_ne, lookup_insert_ne in Hs by auto.
        rewrite lookup_empty in Hs. discriminate.
  - destruct (Hdone eq_refl eq_refl eq_refl) as (-> & Hconn & _).
    exists σ'. split; [exact E|]. split; [exact Hst|]. split; [exact Hp|].
    split; [|exact Hconn].
    exact (Hfail 1 0%nat (mkWaiter 0 false None [] false true) eq_refl
             eq_refl).
Defined.

Lemma Decode_consumes_the_body_witness :
  req.Decode take_byte (Some []) request2
  = (Some [x01], req.mkRequest "echo" "10.0.0.9:4312" [x02], None) /\
  req.Decode take_byte (Some [])
    (req.Decode take_byte (Some []) request2).1.2
  = (Some [x02], req.mkRequest "echo" "10.0.0.9:4312" [], None).
Proof.
  split; [reflexivity|].
  destruct (Decode_consumes_the_body take_byte (Some []) request2)
    as (_ & _ & _ & _ & Hagain).
  exact (Hagain [] [] [x01] [x02] eq_refl eq_refl).
Defined.
